(* ===== verification/_CoqProject ===== *)
-Q . S2P
Prelude.v
GoText.v
TextProto.v
MimeHeader.v
WsFrame.v
FrameProgress.v
WsClient.v
Strategy.v
StrategyInv.v
Rule.v
RuleSpec.v
Dns.v
Ipset.v
Proxy.v
Main.v
Lifetime.v
