(* ===== verification/Prelude.v ===== *)
(** * A verification development for glider 0.6.9 (pittss/glider)

    glider is a forward proxy.  Listeners accept client connections, a
    rule dialer chooses for each destination the strategy dialer of the
    first matching rule, and the strategy dialer picks a healthy
    forwarder and dials through that forwarder's protocol.  A DNS hook
    lets rules learn the IPs of the domains they route.  The repository
    staged under [src/] holds two files:
    - [src/main.go]: the composition of the process (rule dialer,
      ipset manager, DNS server and its handlers, health checkers,
      listeners);
    - [src/proxy/ws/client.go]: the client side of the WebSocket
      transport (HTTP upgrade handshake, lazily bound frame reader and
      writer, the status-line parser).
    Everything else the two files call (the rule and strategy dialers,
    the frame codec of [proxy/ws/frame.go], the DNS server, the ipset
    manager, the protocol registry) is modelled from [spec.md], and the
    parts of the Go standard library they use (strings.Index, slicing,
    bufio.Reader, net/textproto) from the Go documentation.

    ** Files, in dependency order

    - [Prelude] (this file): the [result] error type of Go's
      [(value, error)] returns with its notation, bytes as [Z] and
      their conversion to and from Go strings, the [glider] hint
      database and the shared tactics.
    - [GoText]: Go semantics the handshake relies on: [Index] (strings.
      Index, -1 when absent), Go's slice expression, which panics out
      of range ([slice] returns [None]), a TCP connection as a list of segments,
      bufio.Reader over it ([BufReader]) with its 4096-byte buffer
      ([bufSize]: each [fill] is one [Read] of at most the free space),
      and textproto's [ReadLine] ([read_line]: line prefixes of a full
      buffer joined), [readContinuedLine] and [ReadMIMEHeader].
    - [WsFrame]: the frame codec (spec 4.2): big-endian length fields,
      the 7/16/64-bit length encoding, masking, [encodeFrame] and
      [decodeHeader], the streaming [FrameReader] with its cursor; its
      [FrameStream] module relates the reader over the connection's
      segments to the decoder over bytes (a simulation between the two
      instances of [decodeHeaderWith]).
    - [FrameProgress]: every read of the frame reader consumes a prefix
      of the connection's pending bytes, and a successful one with a
      non-empty buffer at least one byte: the measure of read loops.
    - [TextProto], [MimeHeader]: textproto's continued lines and
      [ReadMIMEHeader] (canonical keys, the blank line that ends the
      block), over [BufReader].
    - [WsClient]: [src/proxy/ws/client.go] line by line: [Conn] with
      its lazily bound reader and writer, [NewConn], [Handshake],
      [parseFirstLine] (its line split [parse_fields]), [Write],
      [Read]; a reference split [first_line_fields] for the parser.
    - [Strategy] (spec 4.3): forwarders with health state, the
      round-robin, random and high-availability selections, the health
      checker as a step relation [hc_step], [Dial] with bounded retries;
      a sequence of selections and health results is [run].
    - [StrategyInv]: the invariant of a running strategy dialer, lifted
      from any per-forwarder invariant of the health checker (Section
      hypotheses), and the bounds of its selections.
    - [Rule] (spec 4.4): IPv4 and CIDR parsing, domain patterns, the
      first-match [route] and [Dialer], [AddDomainIP], [Check].
    - [RuleSpec]: the abstract rule dialer, the configured rules and
      the history of DNS answers with a first-match router over them,
      and the refinement relation [Refines] to [RuleDialer]:
      [NewRuleDialer] starts from the empty history, [AddDomainIP] is
      the abstract learning step, [Check] a stutter step.
    - [Dns], [Ipset], [Proxy] (spec 4.1, 4.5): the DNS server as main
      uses it ([NewServer], [SetServers], [GetServers], [AddHandler],
      [Start], [notify]), the ipset manager and its hook, and the
      registry's [ServerFromURL] and [DialerFromURL] over the schemes
      main.go imports.
    - [Main]: [src/main.go]: [main] as a function of the configuration
      and the environment, building every forwarder's dialer first
      ([forward_urls], [check_forwarders]: line 44), returning the
      process or the fatal error with the trace of what it started
      ([Effect]); the running process
      answers DNS queries ([on_answer], which runs the registered
      handlers on the one shared rule dialer and ipset manager) and
      dispatches connections ([dispatch]); [serve_answers] runs a
      sequence of answers.  The [log.F] set-up ([logF]) and the wait
      for SIGINT or SIGTERM that ends main ([wait_signal]) are there
      too.
    - [Lifetime]: the running process after [main] has started it: an
      event loop [serve] over [PEvent]s (DNS answers, connections,
      probe results, signals) until the first SIGINT or SIGTERM, the
      signal wait of [src/main.go] lines 87-89.  The loop abstracts the
      goroutines main starts at lines 71, 75 and 84 (the DNS server,
      the health checkers, the proxy servers), whose code is not under
      [src/]: they run in any interleaving, and each event is one of
      their steps.  The
      rule dialer holds each strategy dialer by pointer: the model
      keeps one copy of each, addressed by its [Route] ([dialer_at]),
      and a connection ([dial_step]) or a probe ([probe_step]) writes
      the dialer's new state back ([update_at]), so every later
      connection routed there sees it.

    ** What the theorems show

    - GoText: [Index] finds the first occurrence; [slice] is in range
      exactly when Go does not panic; [ReadLine] strips the line ending
      and consumes exactly one line, however the line is cut by
      segments and by the buffer's bound, and reads the connection only
      when the buffer holds no newline ([from_buffer]); a last line
      without newline is [EOF] only when no byte of it is left after
      the buffer-sized prefixes.
    - WsFrame: the length field is consistent with the payload (bounds),
      masking is an involution, and decode after encode gives back the
      payload and leaves the following bytes untouched (round trip, for
      every payload shorter than 2^64 bytes, in particular the lengths
      0, 1, 125, 126, 65535, 65536 of spec 8.7).
    - WsClient: [parseFirstLine] is equivalent to the reference split
      of the line at its first two spaces, so it never panics
      ([parseFirstLine_ref]); [Write] sends exactly the encoded frame,
      2 + 0/2/8 + 4 + n bytes for an n-byte payload (bounds); [Handshake] fails on every status code
      other than "101", and on a status line with one space such as
      "HTTP/1.1 101" ([Handshake_rejects_no_reason]), and succeeds on a
      well-formed 101 response; the
      request bytes are the fixed block of client.go:56-64 in order;
      [Read] streams a frame's payload through its cursor across any
      sequence of buffer lengths that add up to it, and rejects a
      non-binary opcode, a cut length field and an oversized frame with
      their [FrameError]s (spec 7); a loop reading until [Read] fails
      terminates within one more call than there are bytes pending
      ([read_until_err_terminates]).
      Findings: [NewConn] discards the handshake error and always
      returns a connection; a frame sent in the same TCP segment as the
      end of the 101 response is swallowed by the discarded bufio
      buffer ([NewConn_loses_first_frame]); when that segment is longer
      than the buffer, exactly its first 4096 bytes are taken and the
      frame reader starts at byte 4096, mid-stream
      ([NewConn_keeps_past_buffer], bounds); the Sec-WebSocket-Accept
      token is never checked.  Shared lemmas: every bufio, textproto and
      MIME read leaves the connection a tail of what it was
      ([src_tail]: whole segments dropped or the front of one taken; it
      never invents input), and [FrameStream]
      relates frame reads on a one-segment connection to [take_exact]
      on the bytes.
    - Strategy: the health checker keeps "alive exactly while the
      consecutive failures are below the threshold" on every reachable
      state; round-robin returns the candidates once each, rotated by
      the cursor; high-availability stays on the active forwarder while
      it is alive and otherwise switches to the highest-priority alive
      one; a dial tries at most [retries + 1] distinct forwarders and,
      when the budget covers every candidate, fails only if every
      candidate refuses; under round-robin an alive forwarder is
      returned within one cycle.
    - StrategyInv: every interleaving of selections and health results
      keeps the configured forwarders, the per-forwarder invariant and
      an active forwarder in range (spec 5, 8.8: every state a reader
      can see is a whole, well-formed value), and every selection
      returns an index of the list.
    - Rule: learning the addresses of a domain leaves domain routing
      unchanged and routes each learned address like the domain, unless
      a rule that does not own the domain already matches the address.
    - RuleSpec: the concrete routing computes the abstract one for every
      rule dialer related to an abstract state, and every concrete
      operation preserves the relation (refinement).
    - Main: a connection is dispatched to the dialer of the first rule
      matching its host, else to the default dialer (spec 8.1); the
      startup order (DNS server, checkers, servers in listen order);
      the first forwarder whose dialer cannot be built is fatal before
      anything starts (spec 7), and so are the first listener that
      cannot be built and a DNS address that does not parse; the DNS server's handlers are the
      rule dialer's hook then the ipset hook; end to end, an address a
      DNS answer resolves a domain to is dispatched like the domain
      (spec 8.2) and added to the rule's kernel ip set when the rule
      names one; without a DNS server main starts as soon as its
      forwarders and listeners can be built and nothing is ever
      learned ([main_no_dns]); the random default dialer picks
      forwarder [rnd mod n] for every draw [rnd]; and the
      round-robin, random, high-availability and health properties hold
      for the dialers main builds (spec 8.3-8.5).  Whatever sequence of
      DNS answers the process has handled, dispatch is the abstract
      first-match router over the configuration and the answers
      ([main_routing_refines]); the dispatched dialer keeps its
      invariant under every interleaving ([main_dialer_wf]), recovers a
      forwarder whose probe succeeds within one round-robin cycle
      ([main_rr_recovers]), under high availability fails over to the
      best alive forwarder once the active one has failed the threshold
      of probes ([main_ha_failover]), and dials exhaustively within its retry
      budget ([main_dial_exhaustive]).  Finding: a domain listed by
      two rules is routed by the first but resolved through the DNS
      servers of the last.
    - Lifetime: main returns at the first SIGINT or SIGTERM, both
      registered, whatever other signal came before, and handles
      nothing after it ([serve_stops_at_signal]); for the whole life of
      the process, whatever interleaving of answers, connections and
      probes it handles, every strategy dialer keeps its invariant
      ([main_serve_dialer_inv]) and the process routes as the abstract
      router over the answers handled ([main_serve_routes]);
      connections to different hosts routed to one strategy dialer see
      its successive selections ([serve_connections_share_dialer]).

    ** Bounds and fuel

    No definition of the Go code needs fuel: every loop is a recursion
    on the list of pending segments or on the characters of a line, or
    a well-founded recursion: the bufio line and blank-skipping loops
    on the bytes and segments left in the connection ([src_size]; a
    full buffer is flushed before the next [fill], which takes at least
    one byte or one empty segment), the MIME header loop on the
    reader's size.  The one fuelled definition is [read_until_err], a caller's
    loop of [Read]s: fuel one above the pending bytes is enough, since
    each successful [Read] consumes a byte.
    Integers that Go keeps at a width (the 16- and 64-bit length fields,
    bytes) are [Z] with their range written out as hypotheses or
    invariants.

    ** Not modelled

    What [log.F] prints is modelled ([logF]) but not what every caller
    logs, and signals only as what ends main ([wait_signal], [serve]):
    both are output without state the routing depends on, like the
    goroutine scheduling of [main]; [confInit]
    (conf.go, not staged) is the [Config] record main receives.  The
    concurrency of spec 5 (single-writer snapshots) is modelled as
    atomic steps: each health result and each [AddDomainIP] replaces a
    whole value, so a reader sees the state before or after a step and
    no torn state exists in the model.  The DNS server's query handling
    and the kernel side of ipset are not modelled (spec 1 places them
    out of scope); IPv6 literals are routed as domain names.  The
    protocol modules main.go imports (http, mixed, socks5, ss, ssr,
    tcptun, tls, udptun, uottun, vmess, ws's server side) are not
    staged: the registry records only which schemes can serve and which
    can dial, a forwarder is its URL, and a server's connection is the
    destination it dials with the forwarders that accept it.  Writes to a
    [net.Conn] never fail in the model (client.go ignores their errors
    anyway).  A [Read] that returns no bytes is an empty segment, which
    the model skips; bufio's [io.ErrNoProgress] after 100 such reads in
    a row is not modelled. *)

From stdpp Require Export base list strings.
From Stdlib Require Export ZArith Ascii String.

(** [String] exports its own [length]; [length] is the list one, and
    the length of a string is written [String.length]. *)
Abbreviation length := Datatypes.length.

Declare Scope glider_scope.
Delimit Scope glider_scope with glider.
Open Scope glider_scope.

(** ** Results: Go's [(value, error)] returns *)

Inductive result (E A : Type) : Type :=
| Ok (a : A)
| Err (e : E).
Arguments Ok {E A} a.
Arguments Err {E A} e.

Definition res_bind {E A B} (m : result E A) (k : A -> result E B) : result E B :=
  match m with
  | Ok a => k a
  | Err e => Err e
  end.

Notation "'let*' x := m 'in' k" := (res_bind m (fun x => k))
  (at level 10, x name, m at level 100, k at level 200) : glider_scope.

Definition is_ok {E A} (r : result E A) : bool :=
  match r with Ok _ => true | Err _ => false end.

Lemma res_bind_ok {E A B} (m : result E A) (k : A -> result E B) b :
  res_bind m k = Ok b <-> exists a, m = Ok a /\ k a = Ok b.
Proof.
  destruct m as [a|e]; simpl; split.
  - intros H. eauto.
  - intros (a' & Ha & Hk). injection Ha as <-. exact Hk.
  - discriminate.
  - intros (a' & Ha & _). discriminate.
Qed.

Lemma res_bind_err {E A B} (m : result E A) (k : A -> result E B) e :
  m = Err e -> res_bind m k = Err e.
Proof. intros ->. reflexivity. Qed.

(** ** Bytes

    Go's [byte] is an 8-bit unsigned integer; we keep it as a [Z] with
    its range as an invariant, and a Go string (or [[]byte]) as a
    [string] of 8-bit [ascii] characters. *)

Definition byte_ok (b : Z) : Prop := (0 <= b < 256)%Z.
Definition bytes_ok (l : list Z) : Prop := Forall byte_ok l.

Definition byte_of_char (c : ascii) : Z := Z.of_N (N_of_ascii c).
Definition char_of_byte (b : Z) : ascii := ascii_of_N (Z.to_N b).

Fixpoint bytes_of_string (s : string) : list Z :=
  match s with
  | EmptyString => []
  | String c s' => byte_of_char c :: bytes_of_string s'
  end.

Fixpoint string_of_bytes (l : list Z) : string :=
  match l with
  | [] => EmptyString
  | b :: l' => String (char_of_byte b) (string_of_bytes l')
  end.

Lemma byte_of_char_ok c : byte_ok (byte_of_char c).
Proof.
  unfold byte_ok, byte_of_char.
  pose proof (N_ascii_bounded c) as H. lia.
Qed.

Lemma bytes_of_string_ok s : bytes_ok (bytes_of_string s).
Proof. induction s; constructor; auto using byte_of_char_ok. Qed.

Lemma char_of_byte_of_char c : char_of_byte (byte_of_char c) = c.
Proof.
  unfold char_of_byte, byte_of_char. rewrite N2Z.id. apply ascii_N_embedding.
Qed.

Lemma byte_of_char_of_byte b : byte_ok b -> byte_of_char (char_of_byte b) = b.
Proof.
  unfold byte_ok, byte_of_char, char_of_byte. intros Hb.
  rewrite N_ascii_embedding by lia. lia.
Qed.

Lemma string_of_bytes_of_string s : string_of_bytes (bytes_of_string s) = s.
Proof. induction s; simpl; f_equal; auto using char_of_byte_of_char. Qed.

Lemma bytes_of_string_of_bytes l : bytes_ok l -> bytes_of_string (string_of_bytes l) = l.
Proof.
  induction 1; simpl; f_equal; auto using byte_of_char_of_byte.
Qed.


Lemma bytes_ok_app l1 l2 : bytes_ok l1 -> bytes_ok l2 -> bytes_ok (l1 ++ l2).
Proof. apply Forall_app_2. Qed.

(** ** Strings

    stdpp declares [String.append] [simpl never]; [string_app_cons] and
    [string_app_nil_l] are its two defining equations. *)

Lemma string_app_nil_l (s : string) : "" +:+ s = s.
Proof. reflexivity. Qed.

Lemma string_app_cons c (s1 s2 : string) : String c s1 +:+ s2 = String c (s1 +:+ s2).
Proof. reflexivity. Qed.

Lemma string_app_nil_r (s : string) : s +:+ "" = s.
Proof. induction s as [|c s IH]; [reflexivity | rewrite string_app_cons, IH; reflexivity]. Qed.

Lemma string_app_assoc (s1 s2 s3 : string) :
  s1 +:+ (s2 +:+ s3) = (s1 +:+ s2) +:+ s3.
Proof. induction s1 as [|c s1 IH]; [reflexivity | rewrite !string_app_cons, IH; reflexivity]. Qed.

Lemma string_app_neq_nil_r (s t : string) : t <> "" -> s +:+ t <> "".
Proof. destruct s, t; done. Qed.

Lemma string_length_app (s1 s2 : string) :
  String.length (s1 +:+ s2) = String.length s1 + String.length s2.
Proof. induction s1 as [|c s1 IH]; [reflexivity | rewrite string_app_cons; simpl; lia]. Qed.

Lemma bytes_of_string_app s1 s2 :
  bytes_of_string (s1 +:+ s2) = bytes_of_string s1 ++ bytes_of_string s2.
Proof.
  induction s1 as [|c s1 IH]; [reflexivity|].
  rewrite string_app_cons; simpl. rewrite IH. reflexivity.
Qed.

Lemma length_bytes_of_string s : length (bytes_of_string s) = String.length s.
Proof. induction s as [|c s IH]; [reflexivity | simpl; by rewrite IH]. Qed.

Lemma string_of_bytes_app l1 l2 :
  string_of_bytes (l1 ++ l2) = string_of_bytes l1 +:+ string_of_bytes l2.
Proof.
  induction l1 as [|b l1 IH]; [reflexivity|].
  simpl. rewrite IH, string_app_cons. reflexivity.
Qed.

(** ** Lists *)

(** The first match in two lists related pointwise, by predicates that
    agree on related elements, is at the same index. *)
Lemma list_find_Forall2 {A B} (R : A -> B -> Prop) (P : A -> Prop) (Q : B -> Prop)
  `{!forall x, Decision (P x)} `{!forall y, Decision (Q y)} l1 l2 :
  Forall2 R l1 l2 -> (forall x y, R x y -> P x <-> Q y) ->
  fst <$> list_find P l1 = fst <$> list_find Q l2.
Proof.
  intros HF HPQ. induction HF as [|x y l1 l2 Hxy _ IH]; [done|]. cbn.
  pose proof (HPQ _ _ Hxy). do 2 case_decide; try tauto; try done.
  destruct (list_find P l1) as [[]|], (list_find Q l2) as [[]|]; by simplify_eq/=.
Qed.

(** A property every step of a left fold preserves holds of its result. *)
Lemma fold_left_ind {A B} (Q : A -> Prop) (f : A -> B -> A) (l : list B) (a : A) :
  (forall a b, Q a -> Q (f a b)) -> Q a -> Q (fold_left f l a).
Proof. intros Hf. induction l as [|b l IH] in a |- *; cbn; auto. Qed.

(** ** Automation *)

Create HintDb glider.
Create Rewrite HintDb glider_rw.
#[export] Hint Resolve byte_of_char_ok bytes_of_string_ok bytes_ok_app : glider.
#[export] Hint Rewrite string_app_nil_l string_app_cons string_of_bytes_of_string bytes_of_string_app
  string_of_bytes_app string_app_nil_r string_length_app : glider_rw.

(** [res_inv] turns an equation between results into equations between
    their contents and closes contradictory ones. *)
Ltac res_inv :=
  repeat match goal with
  | H : Ok _ = Ok _ |- _ => injection H as H
  | H : Err _ = Err _ |- _ => injection H as H
  | H : Ok _ = Err _ |- _ => discriminate H
  | H : Err _ = Ok _ |- _ => discriminate H
  | H : Some _ = Some _ |- _ => injection H as H
  | H : Some _ = None |- _ => discriminate H
  | H : None = Some _ |- _ => discriminate H
  | H : (_, _) = (_, _) |- _ => injection H as H
  end; subst.
