(* ===== verification/GoText.v ===== *)
(** * Go text I/O semantics used by the WebSocket handshake

    The parts of Go's standard library that [src/proxy/ws/client.go]
    calls, modelled from the Go documentation (not repository code):
    - [strings.Index] ([Index], -1 when the substring is absent) and the
      slice expression [s[lo:hi]] ([slice], [None] when Go panics);
    - a TCP connection's receive side as the list of segments the peer
      has sent ([BufReader.rsrc]): a [Read] returns the next segment, or
      as much of it as the buffer it reads into can take;
    - [bufio.Reader] over it ([BufReader]: the buffered bytes and the
      segments not yet pulled) with its 4096-byte buffer ([bufSize],
      [fill]), [Peek]/[ReadByte] ([peekByte], [skipSpace]);
    - [net/textproto.Reader]: [ReadLine], [readContinuedLine] and
      [ReadMIMEHeader].

    The abstract view of a reader is [contents]: the bytes it will still
    deliver.  The theorems show that line reading consumes exactly one
    line of [contents], whatever the segmentation and the buffer's
    bound, that it reads the connection only when the buffer holds no
    newline, and that every operation leaves the connection a tail of
    what it was ([src_tail]). *)

From S2P Require Import Prelude.
From Equations Require Import Equations.

Module GoStrings.

(** [strings.Index(s, substr)]: the index of the first occurrence. *)
Fixpoint index_nat (s sub : string) : option nat :=
  if String.prefix sub s then Some 0
  else match s with
       | EmptyString => None
       | String _ s' => S <$> index_nat s' sub
       end.

Definition Index (s substr : string) : Z :=
  match index_nat s substr with
  | Some n => Z.of_nat n
  | None => (-1)%Z
  end.

(** [s[lo:hi]]: in range when [0 <= lo <= hi <= len(s)], else a
    run-time panic ([None]). *)
Definition slice (s : string) (lo hi : Z) : option string :=
  if decide (0 <= lo <= hi /\ hi <= Z.of_nat (String.length s))%Z
  then Some (substring (Z.to_nat lo) (Z.to_nat (hi - lo)) s)
  else None.

Definition slice_from (s : string) (lo : Z) : option string :=
  slice s lo (Z.of_nat (String.length s)).

Definition slice_to (s : string) (hi : Z) : option string := slice s 0 hi.

(** Does [c] occur in [s]? *)
Fixpoint has_char (c : ascii) (s : string) : bool :=
  match s with
  | EmptyString => false
  | String d s' => if decide (d = c) then true else has_char c s'
  end.

End GoStrings.

(** ** Lemmas on strings *)

Module GoStringsFacts.
Import GoStrings.

Lemma has_char_app c (a b : string) :
  has_char c (a +:+ b) = has_char c a || has_char c b.
Proof.
  induction a as [|d a IH]; [reflexivity|].
  rewrite string_app_cons; simpl. destruct (decide (d = c)); auto.
Qed.

Lemma prefix_char_cons c d (s : string) :
  String.prefix (String c EmptyString) (String d s) = bool_decide (c = d).
Proof.
  simpl. destruct (Ascii.ascii_dec c d), s; case_bool_decide; simpl; congruence.
Qed.

(** [strings.Index] with a one-character separator, on a string where
    the separator first occurs after the prefix [a]. *)
Lemma index_char_app c (a b : string) :
  has_char c a = false -> index_nat (a +:+ String c b) (String c EmptyString) = Some (String.length a).
Proof.
  induction a as [|d a IH]; intros Ha.
  - rewrite string_app_nil_l. cbn [index_nat]. by rewrite prefix_char_cons, bool_decide_true.
  - rewrite string_app_cons. cbn [index_nat has_char] in Ha |- *.
    destruct (decide (d = c)) as [|Hne]; [discriminate|].
    rewrite prefix_char_cons, bool_decide_false by congruence.
    rewrite IH by exact Ha. reflexivity.
Qed.

Lemma index_char_none c (s : string) :
  has_char c s = false -> index_nat s (String c EmptyString) = None.
Proof.
  induction s as [|d s IH]; intros Hs; [reflexivity|].
  cbn [index_nat has_char] in Hs |- *. destruct (decide (d = c)) as [|Hne]; [discriminate|].
  rewrite prefix_char_cons, bool_decide_false by congruence.
  rewrite IH by exact Hs. reflexivity.
Qed.

Lemma index_char_some c (s : string) n :
  index_nat s (String c EmptyString) = Some n ->
  exists a b, s = a +:+ String c b /\ String.length a = n /\ has_char c a = false.
Proof.
  revert n. induction s as [|d s IH]; intros n H; [discriminate|].
  cbn [index_nat] in H. rewrite prefix_char_cons in H.
  case_bool_decide as Hcd.
  - subst d. injection H as <-. exists EmptyString, s. auto.
  - destruct (index_nat s _) as [m|] eqn:E; [|discriminate].
    injection H as <-. destruct (IH m eq_refl) as (a & b & -> & <- & Ha).
    exists (String d a), b. rewrite string_app_cons. split; [done|].
    split; [done|]. cbn [has_char]. destruct (decide (d = c)); [congruence|done].
Qed.

Lemma substring_app_l (a b : string) :
  substring 0 (String.length a) (a +:+ b) = a.
Proof.
  induction a as [|c a IH]; [by destruct b|].
  rewrite string_app_cons. simpl. by rewrite IH.
Qed.

Lemma substring_app_r (a b : string) k m :
  substring (String.length a + k) m (a +:+ b) = substring k m b.
Proof.
  induction a as [|c a IH]; [reflexivity|].
  rewrite string_app_cons. simpl. exact IH.
Qed.

Lemma substring_all (s : string) : substring 0 (String.length s) s = s.
Proof. rewrite <- (string_app_nil_r s) at 2. rewrite substring_app_l. reflexivity. Qed.

Lemma substring_split (s : string) k :
  k <= String.length s -> substring 0 k s +:+ substring k (String.length s - k) s = s.
Proof.
  revert k. induction s as [|c s IH]; intros [|k] Hk; cbn in *; try lia; [done | by rewrite string_app_nil_l, substring_all |].
  rewrite string_app_cons, IH by lia. done.
Qed.

Lemma substring_app_prefix (a b : string) k :
  String.length a <= k -> substring 0 k (a +:+ b) = a +:+ substring 0 (k - String.length a) b.
Proof.
  revert k. induction a as [|c a IH]; intros [|k] Hk; cbn in *; try lia; [done | done |].
  rewrite !string_app_cons. cbn. rewrite IH by lia. done.
Qed.

Lemma slice_in_range s lo hi :
  (0 <= lo <= hi /\ hi <= Z.of_nat (String.length s))%Z ->
  slice s lo hi = Some (substring (Z.to_nat lo) (Z.to_nat (hi - lo)) s).
Proof. intros H. unfold slice. by rewrite decide_True. Qed.

Lemma slice_panics s lo hi :
  slice s lo hi = None <-> ~ (0 <= lo <= hi /\ hi <= Z.of_nat (String.length s))%Z.
Proof. unfold slice. case_decide; split; congruence || tauto. Qed.

Lemma length_substring n m s :
  n + m <= String.length s -> String.length (substring n m s) = m.
Proof.
  revert n m. induction s as [|c s IH]; intros n m H.
  - simpl in H. assert (n = 0) as -> by lia. assert (m = 0) as -> by lia. done.
  - destruct n as [|n], m as [|m]; simpl in *; [done|rewrite IH; lia|apply IH; lia|apply IH; lia].
Qed.

(** [strings.Index] with a one-character separator is [-1] or a valid
    index of the string. *)
Lemma Index_char_range s c :
  Index s (String c EmptyString) = (-1)%Z
  \/ (0 <= Index s (String c EmptyString) /\ Index s (String c EmptyString) + 1 <= Z.of_nat (String.length s))%Z.
Proof.
  unfold Index. destruct (index_nat s _) as [n|] eqn:E; [right|by left].
  apply index_char_some in E as (a & b & -> & <- & _).
  rewrite string_length_app. simpl. lia.
Qed.

Lemma Index_char_app c a b :
  has_char c a = false -> Index (a +:+ String c b) (String c EmptyString) = Z.of_nat (String.length a).
Proof. intros H. unfold Index. by rewrite index_char_app. Qed.

Lemma Index_char_none c s :
  has_char c s = false -> Index s (String c EmptyString) = (-1)%Z.
Proof. intros H. unfold Index. by rewrite index_char_none. Qed.

Lemma slice_to_app a b : slice_to (a +:+ b) (Z.of_nat (String.length a)) = Some a.
Proof.
  unfold slice_to. rewrite slice_in_range by (rewrite string_length_app; lia).
  rewrite Z.sub_0_r, Nat2Z.id. simpl. by rewrite substring_app_l.
Qed.

Lemma slice_from_app a b : slice_from (a +:+ b) (Z.of_nat (String.length a)) = Some b.
Proof.
  unfold slice_from. rewrite slice_in_range by (rewrite string_length_app; lia).
  rewrite string_length_app, <- Nat2Z.inj_sub, !Nat2Z.id, Nat.add_sub_swap, Nat.sub_diag by lia.
  rewrite <- (Nat.add_0_r (String.length a)) at 1. rewrite substring_app_r. simpl.
  by rewrite substring_all.
Qed.

Lemma slice_mid a b c :
  slice (a +:+ (b +:+ c)) (Z.of_nat (String.length a)) (Z.of_nat (String.length a + String.length b)) = Some b.
Proof.
  rewrite slice_in_range by (rewrite !string_length_app; lia).
  rewrite <- Nat2Z.inj_sub, !Nat2Z.id by lia. replace (String.length a + String.length b - String.length a)
    with (String.length b) by lia.
  rewrite <- (Nat.add_0_r (String.length a)) at 1. rewrite substring_app_r.
  by rewrite substring_app_l.
Qed.

End GoStringsFacts.

Module BufIO.
Import GoStrings GoStringsFacts.

Definition nl : ascii := "010"%char.
Definition cr : ascii := "013"%char.
Definition sp : ascii := " "%char.
Definition tab : ascii := "009"%char.

Inductive ReadErr : Type :=
| EOF
| ProtocolError (msg : string).

(** A [bufio.Reader] wrapping a connection: [rbuf] is what it has
    buffered, [rsrc] the segments still in the connection. *)
Record BufReader : Type := mkBufReader {
  rbuf : string;
  rsrc : list string;
}.

Fixpoint concat_segs (segs : list string) : string :=
  match segs with
  | [] => EmptyString
  | s :: segs' => s +:+ concat_segs segs'
  end.

Definition contents (r : BufReader) : string := rbuf r +:+ concat_segs (rsrc r).

Definition reader_size (r : BufReader) : nat := String.length (contents r).

(** [bufio.NewReader(conn)]: an empty buffer over the connection. *)
Definition NewReader (segs : list string) : BufReader := mkBufReader "" segs.

(** Split at the first newline: the bytes before it and after it. *)
Fixpoint split_nl (s : string) : option (string * string) :=
  match s with
  | EmptyString => None
  | String c s' =>
      if decide (c = nl) then Some (EmptyString, s')
      else (fun '(l, r) => (String c l, r)) <$> split_nl s'
  end.

(** The size of the buffer of [bufio.NewReader]. *)
Definition bufSize : nat := 4096.
#[global] Arguments bufSize : simpl never.

(** [b.fill()]: one [Read] of the connection into the free space of the
    buffer, [bufSize] minus what it holds: the next segment, or as much
    of it as fits, the rest staying in the connection for the next
    [Read].  A segment of no bytes is a [Read] that returns nothing. *)
Definition fill (buf : string) (segs : list string) : string * list string :=
  match segs with
  | [] => (buf, [])
  | seg :: segs' =>
      let k := bufSize - String.length buf in
      if String.length seg <=? k then (buf +:+ seg, segs')
      else (buf +:+ substring 0 k seg, substring k (String.length seg - k) seg :: segs')
  end.

(** What the connection still holds, as a measure: its bytes and its
    segments. *)
Definition src_size (segs : list string) : nat := sum_list ((fun s => S (String.length s)) <$> segs).

(** [bufio.Reader.ReadLine] on a full buffer without a newline: the
    buffer is returned as a line prefix, except a last ['\r'], which
    stays in the buffer in case a ['\n'] follows. *)
Fixpoint cut_cr (s : string) : string * string :=
  match s with
  | EmptyString => (EmptyString, EmptyString)
  | String c EmptyString =>
      if decide (c = cr) then (EmptyString, String c EmptyString) else (String c EmptyString, EmptyString)
  | String c s' => let '(a, b) := cut_cr s' in (String c a, b)
  end.

(** Drop one trailing carriage return. *)
Fixpoint drop_cr (s : string) : string :=
  match s with
  | EmptyString => EmptyString
  | String c EmptyString => if decide (c = cr) then EmptyString else String c EmptyString
  | String c s' => String c (drop_cr s')
  end.

(** The measures of the reading loops below. *)
Lemma bufSize_ge2 : 2 <= bufSize.
Proof. apply Nat.leb_le. reflexivity. Qed.

Lemma cut_cr_short s : String.length (cut_cr s).2 <= 1.
Proof.
  induction s as [|c s IH]; [cbn; lia|]. destruct s as [|d s]; [cbn; case_decide; cbn; lia|].
  change (cut_cr (String c (String d s))) with (let '(a, b) := cut_cr (String d s) in (String c a, b)).
  destruct (cut_cr (String d s)); exact IH.
Qed.

(** A [Read] into a buffer that is not full takes something from the
    connection: a byte, or an empty segment. *)
Lemma fill_src_size buf segs :
  String.length buf < bufSize -> segs <> [] -> src_size (fill buf segs).2 < src_size segs.
Proof.
  intros Hb Hs. destruct segs as [|seg segs]; [done|]. unfold fill, src_size.
  destruct (Nat.leb_spec (String.length seg) (bufSize - String.length buf)); cbn;
    [|rewrite length_substring by lia]; lia.
Qed.

Opaque bufSize fill src_size.

(** [textproto.Reader.readLineSlice] over [bufio.Reader.ReadLine]:
    [acc] is the line read so far, [buf] the buffered bytes, [segs] the
    connection.  A newline in the buffer ends the line, without its
    ["\n"] or ["\r\n"]; a full buffer is a line prefix (ErrBufferFull),
    appended to [acc]; otherwise the buffer is filled.  At the end of the
    stream what is buffered is the last line; an empty buffer there is
    [EOF], and a line whose prefixes were already returned is dropped,
    as [readLineSlice] returns the error. *)
Equations? read_line (acc buf : string) (segs : list string) : result ReadErr string * BufReader
  by wf (2 * src_size segs + (if bufSize <=? String.length buf then 1 else 0)) lt :=
  read_line acc buf segs with Equations.Prop.Logic.inspect (split_nl buf) := {
  | exist _ (Some (l, rest)) _ := (Ok (acc +:+ drop_cr l), mkBufReader rest segs);
  | exist _ None _ with Equations.Prop.Logic.inspect (bufSize <=? String.length buf) := {
    | exist _ true Hfull := read_line (acc +:+ (cut_cr buf).1) (cut_cr buf).2 segs;
    | exist _ false Hf with Equations.Prop.Logic.inspect segs := {
      | exist _ [] _ :=
          (match buf with EmptyString => Err EOF | _ => Ok (acc +:+ buf) end, mkBufReader EmptyString []);
      | exist _ (_ :: _) Hs := read_line acc (fill buf segs).1 (fill buf segs).2 } } }.
Proof.
  - pose proof (cut_cr_short buf). pose proof bufSize_ge2.
    rewrite Hfull. destruct (Nat.leb_spec bufSize (String.length (cut_cr buf).2)); lia.
  - apply Nat.leb_gt in Hf. pose proof (fill_src_size buf (s :: l) Hf ltac:(done)).
    repeat case_match; lia.
Qed.

(** [textproto.Reader.ReadLine]: a line, and the reader's new state
    beside it, errors included, since Go mutates the [bufio.Reader]. *)
Definition ReadLine (r : BufReader) : result ReadErr string * BufReader :=
  read_line EmptyString (rbuf r) (rsrc r).

(** [Peek(1)]: the next byte, filling the buffer while it is empty;
    [None] at end of stream. *)
Fixpoint peek_segs (buf : string) (segs : list string) : option (ascii * BufReader) :=
  match buf with
  | String c _ => Some (c, mkBufReader buf segs)
  | EmptyString =>
      match segs with
      | [] => None
      | _ :: segs' =>
          match fill EmptyString segs with
          | (String c t, segs'') => Some (c, mkBufReader (String c t) segs'')
          | (EmptyString, _) => peek_segs EmptyString segs'
          end
      end
  end.

Definition peekByte (r : BufReader) : option (ascii * BufReader) :=
  peek_segs (rbuf r) (rsrc r).

Definition is_space (c : ascii) : bool := bool_decide (c = sp \/ c = tab).

(** Leading spaces and tabs of a string, and the rest. *)
Fixpoint skip_ws (s : string) : nat * string :=
  match s with
  | String c s' => if is_space c then let '(n, t) := skip_ws s' in (S n, t) else (0, s)
  | EmptyString => (0, EmptyString)
  end.

(** [textproto.Reader.skipSpace]: [ReadByte] while the byte is a space
    or a tab, [UnreadByte] the first other one; the count skipped.  An
    emptied buffer is filled again from the connection. *)
Equations? skip_segs (buf : string) (segs : list string) : nat * BufReader by wf (src_size segs) lt :=
  skip_segs buf segs with skip_ws buf := {
  | (n, String c t) := (n, mkBufReader (String c t) segs);
  | (n, EmptyString) with Equations.Prop.Logic.inspect segs := {
    | exist _ [] _ := (n, mkBufReader EmptyString []);
    | exist _ (_ :: _) Hs :=
        let '(m, r) := skip_segs (fill EmptyString segs).1 (fill EmptyString segs).2 in (n + m, r) } }.
Proof. apply fill_src_size; [cbn; pose proof bufSize_ge2; lia | done]. Qed.

Transparent bufSize fill src_size.

Definition skipSpace (r : BufReader) : nat * BufReader := skip_segs (rbuf r) (rsrc r).

End BufIO.



(** ** Lemmas on the buffered reader *)

Module BufIOFacts.
Import GoStrings GoStringsFacts BufIO.

Lemma contents_mk b segs : contents (mkBufReader b segs) = b +:+ concat_segs segs.
Proof. reflexivity. Qed.

Lemma split_nl_some s l r :
  split_nl s = Some (l, r) -> s = l +:+ String nl r /\ has_char nl l = false.
Proof.
  revert l r. induction s as [|c s IH]; intros l r H; [discriminate|].
  cbn [split_nl] in H. destruct (decide (c = nl)) as [->|Hne].
  - injection H as <- <-. split; reflexivity.
  - destruct (split_nl s) as [[l' r']|] eqn:E; [|discriminate].
    simpl in H. injection H as <- <-. destruct (IH _ _ eq_refl) as [-> Hl].
    rewrite string_app_cons. split; [done|]. cbn [has_char]. by rewrite decide_False.
Qed.

Lemma split_nl_none s : split_nl s = None -> has_char nl s = false.
Proof.
  induction s as [|c s IH]; intros H; [done|].
  cbn [split_nl] in H. destruct (decide (c = nl)); [discriminate|].
  destruct (split_nl s); [discriminate|]. cbn [has_char]. rewrite decide_False; auto.
Qed.

Lemma has_char_cons_same c s : has_char c (String c s) = true.
Proof. cbn [has_char]. by destruct (decide (c = c)). Qed.

(** The first newline of a string is unique. *)
Lemma first_nl_unique a b x y :
  has_char nl a = false -> has_char nl b = false ->
  a +:+ String nl x = b +:+ String nl y -> a = b /\ x = y.
Proof.
  revert b. induction a as [|c a IH]; intros [|d b] Ha Hb H;
    rewrite ?string_app_nil_l, ?string_app_cons in H.
  - injection H as ->. done.
  - injection H as <- _. by rewrite has_char_cons_same in Hb.
  - injection H as -> _. by rewrite has_char_cons_same in Ha.
  - injection H as -> H. cbn [has_char] in Ha, Hb. destruct (decide (d = nl)); [discriminate|].
    destruct (IH b Ha Hb H) as [-> ->]. done.
Qed.

Lemma drop_cr_cons c s : s <> EmptyString -> drop_cr (String c s) = String c (drop_cr s).
Proof. destruct s; [done|reflexivity]. Qed.

Lemma drop_cr_app_cr l : drop_cr (l +:+ String cr EmptyString) = l.
Proof.
  induction l as [|c l IH]; [simpl; by destruct (decide (cr = cr))|].
  rewrite string_app_cons, drop_cr_cons, IH; [done|]. by destruct l.
Qed.

Lemma has_char_ne c d s : c <> d -> has_char c (String d s) = has_char c s.
Proof. intros Hne. cbn [has_char]. by rewrite decide_False. Qed.

Lemma nl_ne_cr : nl <> cr.
Proof. discriminate. Qed.

(** ** One fill *)

Lemma fill_contents buf segs :
  (fill buf segs).1 +:+ concat_segs (fill buf segs).2 = buf +:+ concat_segs segs.
Proof.
  destruct segs as [|seg segs]; [done|]. unfold fill. cbn [concat_segs].
  destruct (Nat.leb_spec (String.length seg) (bufSize - String.length buf));
    cbn [fst snd concat_segs]; rewrite <- string_app_assoc; [done|].
  rewrite (string_app_assoc (substring 0 _ seg)), substring_split; [done | lia].
Qed.

(** The buffer never holds more than [bufSize] bytes. *)
Lemma fill_bound buf segs :
  String.length buf <= bufSize -> String.length (fill buf segs).1 <= bufSize.
Proof.
  intros Hb. destruct segs as [|seg segs]; [done|]. unfold fill.
  destruct (Nat.leb_spec (String.length seg) (bufSize - String.length buf)); cbn [fst];
    rewrite string_length_app; [lia|]. rewrite length_substring by lia. lia.
Qed.

Lemma drop_cr_app_ne a b : b <> EmptyString -> drop_cr (a +:+ b) = a +:+ drop_cr b.
Proof.
  intros Hb. induction a as [|c a IH]; [done|].
  rewrite !string_app_cons, drop_cr_cons, IH; [done|]. by apply string_app_neq_nil_r.
Qed.

(** A full buffer splits into the line prefix returned and at most a
    carriage return kept. *)
Lemma cut_cr_spec s :
  s = (cut_cr s).1 +:+ (cut_cr s).2 /\
  ((cut_cr s).2 = String cr EmptyString \/ ((cut_cr s).2 = EmptyString /\ drop_cr (cut_cr s).1 = (cut_cr s).1)).
Proof.
  induction s as [|c s IH]; [cbn; auto|]. destruct s as [|d s].
  - cbn. case_decide; cbn; [subst; auto|]. split; [done|]. right. split; [done|]. by rewrite decide_False.
  - change (cut_cr (String c (String d s))) with (let '(a, b) := cut_cr (String d s) in (String c a, b)).
    destruct (cut_cr (String d s)) as [a b]; cbn [fst snd] in *. destruct IH as [IH1 IH2].
    rewrite string_app_cons, <- IH1. split; [done|]. destruct IH2 as [->|[-> Ha]]; [by left|].
    right. split; [done|]. destruct a as [|e a]; [discriminate|].
    rewrite drop_cr_cons, Ha; [done|]. discriminate.
Qed.

(** ** Reading a line *)

(** What [read_line acc] returns, of the bytes [c] the reader holds: the
    first line of [c] after [acc], or the whole of [c] after [acc] when
    [c] has no newline, or [EOF]. *)
Definition line_result (acc c : string) (res : result ReadErr string * BufReader) : Prop :=
  match res with
  | (Ok line, r') =>
      (exists raw, c = raw +:+ String nl (contents r') /\ has_char nl raw = false /\ line = acc +:+ drop_cr raw)
      \/ (line = acc +:+ c /\ c <> EmptyString /\ has_char nl c = false /\ r' = mkBufReader EmptyString [])
  | (Err e, r') => e = EOF /\ has_char nl c = false /\ r' = mkBufReader EmptyString []
  end.

Lemma read_line_spec acc buf segs :
  line_result acc (buf +:+ concat_segs segs) (read_line acc buf segs).
Proof.
  funelim (read_line acc buf segs); cbn [line_result];
    repeat match goal with H : {| pr1 := _; pr2 := _ |} = _ |- _ => clear H end; clear Heqcall.
  - apply split_nl_some in e as [-> Hl]. left. exists l. split; [| split; [exact Hl | done]].
    rewrite contents_mk, <- string_app_assoc, string_app_cons. done.
  - apply split_nl_none in e. destruct (cut_cr_spec buf) as [Hb Hk].
    revert H. set (chunk := (cut_cr buf).1). set (keep := (cut_cr buf).2). fold chunk keep in Hb, Hk.
    destruct (read_line (acc +:+ chunk) keep segs) as [[line|err] r'] eqn:E; intros H; cbn [line_result] in H |- *;
      rewrite Hb in e |- *; rewrite has_char_app in e; apply orb_false_iff in e as [Hc Hkp];
      rewrite <- string_app_assoc.
    + destruct H as [(raw & E1 & E2 & E3)|(E1 & E2 & E3 & E4)].
      * left. exists (chunk +:+ raw). rewrite E1, string_app_assoc. split; [done|].
        rewrite has_char_app, Hc, E2. split; [done|]. rewrite E3, <- string_app_assoc. f_equal.
        destruct (decide (raw = EmptyString)) as [->|Hne]; [|by rewrite drop_cr_app_ne].
        destruct Hk as [Hk|[_ Hd]]; [rewrite Hk in E1; by destruct (contents r')|].
        cbn. by rewrite !string_app_nil_r, Hd.
      * right. split; [by rewrite E1, !string_app_assoc|].
        split; [by apply string_app_neq_nil_r|]. split; [by rewrite has_char_app, Hc, E3 | done].
    + destruct H as (-> & E2 & ->). rewrite has_char_app, Hc, E2. done.
  - destruct buf as [|c b]; cbn [concat_segs]; rewrite !string_app_nil_r; [done|].
    apply split_nl_none in e. right. repeat split; auto; discriminate.
  - revert H. rewrite fill_contents. done.
Qed.

(** What [ReadLine] returns is a line of [contents]: either up to the
    first newline, or the whole rest when there is no newline. *)
Lemma ReadLine_ok r line r' :
  ReadLine r = (Ok line, r') ->
  (exists raw, contents r = raw +:+ String nl (contents r') /\ has_char nl raw = false /\ line = drop_cr raw)
  \/ (contents r = line /\ line <> EmptyString /\ has_char nl line = false /\ contents r' = EmptyString).
Proof.
  intros H. pose proof (read_line_spec EmptyString (rbuf r) (rsrc r)) as S. fold (ReadLine r) in S.
  rewrite H in S. cbn in S. fold (contents r) in S.
  destruct S as [(raw & ? & ? & ?)|(-> & ? & ? & ->)]; [left; eauto | right; done].
Qed.

(** [ReadLine] fails only with [EOF], when no newline is left: at the
    end of the stream, or on a last line without newline whose prefixes
    filled the buffer. *)
Lemma ReadLine_err r e r' :
  ReadLine r = (Err e, r') -> e = EOF /\ has_char nl (contents r) = false /\ contents r' = EmptyString.
Proof.
  intros H. pose proof (read_line_spec EmptyString (rbuf r) (rsrc r)) as S. fold (ReadLine r) in S.
  rewrite H in S. cbn in S. destruct S as (-> & ? & ->). done.
Qed.

(** ** Reading without filling *)

(** [r'] is [r] after the bytes [x] at the front of its buffer, with no
    [Read] of the connection, whatever follows [x] in the buffer. *)
Definition from_buffer (r : BufReader) (x : string) (r' : BufReader) : Prop :=
  forall tb, rbuf r = x +:+ tb -> r' = mkBufReader tb (rsrc r).

(** A newline in the buffer ends the line with no [Read]. *)
Lemma read_line_found acc buf segs l t :
  split_nl buf = Some (l, t) -> read_line acc buf segs = (Ok (acc +:+ drop_cr l), mkBufReader t segs).
Proof.
  intros H. simp read_line. destruct (Equations.Prop.Logic.inspect (split_nl buf)) as [[[l' t']|] E];
    [|congruence]. simp read_line. rewrite H in E. by injection E as -> ->.
Qed.

(** Otherwise a buffer that is not full is filled. *)
Lemma read_line_fill acc buf segs :
  split_nl buf = None -> String.length buf < bufSize -> segs <> [] ->
  read_line acc buf segs = read_line acc (fill buf segs).1 (fill buf segs).2.
Proof.
  intros Hn Hb Hs. simp read_line.
  destruct (Equations.Prop.Logic.inspect (split_nl buf)) as [[[l' t']|] E]; [congruence|]. simp read_line.
  destruct (Equations.Prop.Logic.inspect (bufSize <=? String.length buf)) as [[] E2].
  - pose proof (proj1 (Nat.leb_le _ _) E2). lia.
  - simp read_line. destruct (Equations.Prop.Logic.inspect segs) as [[|s l] E3]; [done|]. by simp read_line.
Qed.

Lemma split_nl_app l t : has_char nl l = false -> split_nl (l +:+ String nl t) = Some (l, t).
Proof.
  induction l as [|c l IH]; intros Hl; cbn [split_nl]; [by rewrite string_app_nil_l; cbn; rewrite decide_True|].
  rewrite string_app_cons. cbn [split_nl has_char] in Hl |- *.
  destruct (decide (c = nl)); [discriminate|]. by rewrite IH.
Qed.

(** A segment longer than the buffer is taken up to [bufSize] bytes. *)
Lemma fill_long seg segs :
  bufSize < String.length seg ->
  fill EmptyString (seg :: segs) =
  (substring 0 bufSize seg, substring bufSize (String.length seg - bufSize) seg :: segs).
Proof.
  intros H. unfold fill. cbn [String.length]. rewrite Nat.sub_0_r.
  destruct (Nat.leb_spec (String.length seg) bufSize); [lia|]. by rewrite string_app_nil_l.
Qed.

(** The first [ReadLine] of a fresh reader starts with one [Read]. *)
Lemma ReadLine_fresh segs :
  segs <> [] -> ReadLine (mkBufReader EmptyString segs) = ReadLine (mkBufReader (fill EmptyString segs).1 (fill EmptyString segs).2).
Proof.
  intros Hs. unfold ReadLine; cbn [rbuf rsrc]. apply read_line_fill; [done | | done].
  pose proof bufSize_ge2. cbn. lia.
Qed.

(** Every successful [ReadLine] consumes at least one byte. *)
Lemma ReadLine_size r line r' :
  ReadLine r = (Ok line, r') -> reader_size r' < reader_size r.
Proof.
  unfold reader_size. intros H. apply ReadLine_ok in H as [(raw & E & _)|(E & Hne & _ & E')].
  - rewrite E, string_length_app. simpl. lia.
  - rewrite E, E'. destruct line; [done|]. simpl. lia.
Qed.

Lemma ReadLine_size_le r res r' : ReadLine r = (res, r') -> reader_size r' <= reader_size r.
Proof.
  destruct res as [line|e]; intros H.
  - apply ReadLine_size in H. lia.
  - apply ReadLine_err in H as (_ & _ & E). unfold reader_size. rewrite E. simpl. lia.
Qed.

(** [ReadLine] on a reader whose contents start with a line ended by a
    newline returns that line without its carriage return. *)
Lemma ReadLine_line r l t :
  has_char nl l = false -> contents r = l +:+ String nl t ->
  exists r', ReadLine r = (Ok (drop_cr l), r') /\ contents r' = t /\
    from_buffer r (l +:+ String nl EmptyString) r'.
Proof.
  intros Hl Hc. destruct (ReadLine r) as [[line|e] r'] eqn:E.
  - pose proof E as E0. apply ReadLine_ok in E as [(raw & E1 & E2 & ->)|(E1 & _ & E3 & _)].
    + rewrite Hc in E1. destruct (first_nl_unique _ _ _ _ Hl E2 E1) as [<- Ht].
      exists r'. split; [done|]. split; [done|]. intros tb Hb. unfold ReadLine in E0.
      rewrite Hb, <- string_app_assoc, (read_line_found _ _ _ l tb) in E0 by (by apply split_nl_app).
      by inversion E0.
    + rewrite <- E1, Hc, has_char_app, Hl, has_char_cons_same in E3. discriminate.
  - apply ReadLine_err in E as (_ & E & _). rewrite Hc, has_char_app, Hl, has_char_cons_same in E.
    discriminate.
Qed.

Lemma ReadLine_crlf r l t :
  has_char nl l = false -> contents r = l +:+ String cr (String nl t) ->
  exists r', ReadLine r = (Ok l, r') /\ contents r' = t /\
    from_buffer r (l +:+ String cr (String nl EmptyString)) r'.
Proof.
  intros Hl Hc. rewrite <- (drop_cr_app_cr l).
  destruct (ReadLine_line r (l +:+ String cr EmptyString) t) as (r' & E & C & B).
  - rewrite has_char_app, Hl, has_char_ne by exact nl_ne_cr. done.
  - rewrite Hc, <- string_app_assoc. done.
  - exists r'. split; [done|]. split; [done|]. intros tb Hb. apply B.
    rewrite drop_cr_app_cr in Hb. rewrite Hb, <- !string_app_assoc. reflexivity.
Qed.

Lemma ReadLine_eof r : contents r = EmptyString -> ReadLine r = (Err EOF, mkBufReader EmptyString []).
Proof.
  intros Hc. pose proof (read_line_spec EmptyString (rbuf r) (rsrc r)) as S. fold (ReadLine r) in S.
  fold (contents r) in S. rewrite Hc in S.
  destruct (ReadLine r) as [[line|e] r'] eqn:E; cbn in S.
  - destruct S as [(raw & E1 & _)|(_ & [] & _)]; [|done]. by destruct raw.
  - by destruct S as (-> & _ & ->).
Qed.

(** Strings of spaces and tabs, and strings that do not start with one. *)
Fixpoint all_ws (s : string) : bool :=
  match s with
  | EmptyString => true
  | String c s' => is_space c && all_ws s'
  end.

Definition starts_nonws (s : string) : Prop :=
  match s with
  | EmptyString => True
  | String c _ => is_space c = false
  end.

Lemma all_ws_app a b : all_ws (a +:+ b) = all_ws a && all_ws b.
Proof.
  induction a as [|c a IH]; [reflexivity|].
  rewrite string_app_cons. simpl. rewrite IH. apply andb_assoc.
Qed.

Lemma skip_ws_spec s n t :
  skip_ws s = (n, t) ->
  exists w, s = w +:+ t /\ String.length w = n /\ all_ws w = true /\ starts_nonws t.
Proof.
  revert n t. induction s as [|c s IH]; intros n t H; cbn [skip_ws] in H.
  - injection H as <- <-. by exists EmptyString.
  - destruct (is_space c) eqn:Hc.
    + destruct (skip_ws s) as [m u] eqn:E. injection H as <- <-.
      destruct (IH _ _ eq_refl) as (w & -> & <- & Hw & Hu).
      exists (String c w). rewrite string_app_cons. simpl. by rewrite Hc, Hw.
    + injection H as <- <-. exists EmptyString. simpl. done.
Qed.

(** A string splits in one way only into leading blanks and the rest. *)
Lemma ws_split_unique w1 t1 w2 t2 :
  all_ws w1 = true -> all_ws w2 = true -> starts_nonws t1 -> starts_nonws t2 ->
  w1 +:+ t1 = w2 +:+ t2 -> w1 = w2 /\ t1 = t2.
Proof.
  revert w2. induction w1 as [|c w1 IH]; intros [|d w2] H1 H2 T1 T2 E;
    rewrite ?string_app_nil_l, ?string_app_cons in E; simpl in *.
  - done.
  - subst t1. simpl in T1. apply andb_prop in H2 as [H2 _]. congruence.
  - subst t2. simpl in T2. apply andb_prop in H1 as [H1 _]. congruence.
  - injection E as -> E. apply andb_prop in H1 as [_ H1]. apply andb_prop in H2 as [_ H2].
    destruct (IH w2 H1 H2 T1 T2 E) as [-> ->]. done.
Qed.

Lemma skip_segs_spec buf segs n r :
  skip_segs buf segs = (n, r) ->
  exists w, buf +:+ concat_segs segs = w +:+ contents r /\ String.length w = n
            /\ all_ws w = true /\ starts_nonws (contents r).
Proof.
  funelim (skip_segs buf segs); intros Hr.
  - injection Hr as <- <-. apply skip_ws_spec in Heq as (w & -> & <- & Hw & Ht).
    exists w. rewrite contents_mk, string_app_assoc. done.
  - injection Hr as <- <-. apply skip_ws_spec in Heq as (w & -> & <- & Hw & Ht).
    exists w. cbn. rewrite !string_app_nil_r. done.
  - apply skip_ws_spec in Heq as (w & -> & <- & Hw & _). rewrite string_app_nil_r.
    destruct (skip_segs (fill EmptyString (s :: l)).1 (fill EmptyString (s :: l)).2) as [m r'] eqn:E.
    injection Hr as <- <-. destruct (H _ _ eq_refl) as (w' & E1 & <- & Hw' & Hr).
    exists (w +:+ w'). rewrite fill_contents, string_app_nil_l in E1.
    rewrite E1, string_app_assoc, string_length_app, all_ws_app, Hw, Hw'. done.
Qed.

Lemma skipSpace_spec r n r' :
  skipSpace r = (n, r') ->
  exists w, contents r = w +:+ contents r' /\ String.length w = n
            /\ all_ws w = true /\ starts_nonws (contents r').
Proof. apply skip_segs_spec. Qed.

Lemma skipSpace_size r n r' : skipSpace r = (n, r') -> n + reader_size r' = reader_size r.
Proof.
  intros H. apply skipSpace_spec in H as (w & E & <- & _).
  unfold reader_size. rewrite E, string_length_app. done.
Qed.

(** [skipSpace] on contents [w ++ t], [w] blanks and [t] not starting
    with one, skips exactly [w]. *)
Lemma skipSpace_split r w t :
  all_ws w = true -> starts_nonws t -> contents r = w +:+ t ->
  exists r', skipSpace r = (String.length w, r') /\ contents r' = t.
Proof.
  intros Hw Ht Hc. destruct (skipSpace r) as [n r'] eqn:E. exists r'.
  apply skipSpace_spec in E as (w' & E & <- & Hw' & Hr').
  rewrite Hc in E. destruct (ws_split_unique _ _ _ _ Hw Hw' Ht Hr' E) as [-> ->]. done.
Qed.

(** [skipSpace] stops in the buffer at a byte that is not a blank. *)
Lemma skipSpace_buf r c t :
  is_space c = false -> rbuf r = String c t -> skipSpace r = (0, r).
Proof.
  intros Hc Hb. unfold skipSpace. rewrite Hb. simp skip_segs. cbn [skip_ws]. rewrite Hc.
  simp skip_segs. by destruct r; cbn in *; subst.
Qed.

Lemma peek_segs_spec buf segs :
  match peek_segs buf segs with
  | Some (c, r) => contents r = buf +:+ concat_segs segs /\ exists t, contents r = String c t
  | None => buf +:+ concat_segs segs = EmptyString
  end.
Proof.
  induction segs as [|seg segs IH] in buf |- *; (destruct buf as [|c t]; [|by cbn; rewrite contents_mk; eauto]).
  - done.
  - pose proof (fill_contents EmptyString (seg :: segs)) as Hf. cbn [peek_segs].
    destruct (fill EmptyString (seg :: segs)) as [[|c t] segs''] eqn:E; cbn [fst snd] in Hf.
    + assert (seg = EmptyString) as ->.
      { unfold fill in E. pose proof bufSize_ge2. cbn in E.
        destruct (Nat.leb_spec (String.length seg) (bufSize - 0)); injection E as E1 _; [done|].
        destruct seg; [done|]. destruct bufSize as [|k]; [lia|]. discriminate. }
      exact (IH EmptyString).
    + rewrite contents_mk, Hf. eauto.
Qed.

Lemma peekByte_buf r c t : rbuf r = String c t -> peekByte r = Some (c, r).
Proof. intros Hb. unfold peekByte. rewrite Hb. destruct r as [b segs]; cbn in *; subst; by destruct segs. Qed.

Lemma peekByte_spec r :
  match peekByte r with
  | Some (c, r') => contents r' = contents r /\ exists t, contents r = String c t
  | None => contents r = EmptyString
  end.
Proof.
  unfold peekByte. pose proof (peek_segs_spec (rbuf r) (rsrc r)) as H.
  destruct (peek_segs _ _) as [[c r']|]; [|exact H].
  destruct H as [H1 [t H2]]. fold (contents r) in H1. split; [done|]. rewrite <- H1. eauto.
Qed.

(** ** The buffer never gives bytes back

    Every reader operation leaves the connection a tail of what it was:
    whole segments dropped from its front, or the front of a segment
    taken; bytes, once pulled into the buffer, are only ever in the
    buffer. *)

Inductive src_tail : list string -> list string -> Prop :=
| src_tail_refl segs : src_tail segs segs
| src_tail_drop segs' seg segs : src_tail segs' segs -> src_tail segs' (seg :: segs)
| src_tail_cut segs' seg segs k :
    src_tail segs' (substring k (String.length seg - k) seg :: segs) -> src_tail segs' (seg :: segs).

#[export] Instance src_tail_refl_inst : Reflexive src_tail.
Proof. intros segs. constructor. Qed.

#[export] Instance src_tail_trans : Transitive src_tail.
Proof.
  intros a b c Hab Hbc. induction Hbc; [done | by constructor; auto | by eapply src_tail_cut; auto].
Qed.

Lemma src_tail_nil_inv segs : src_tail segs [] -> segs = [].
Proof. by inversion 1. Qed.

Lemma fill_tail buf segs : src_tail (fill buf segs).2 segs.
Proof.
  destruct segs as [|seg segs]; [done|]. unfold fill. case_match; cbn [snd].
  - by do 2 constructor.
  - eapply src_tail_cut. reflexivity.
Qed.

Lemma read_line_tail acc buf segs : src_tail (rsrc (read_line acc buf segs).2) segs.
Proof.
  funelim (read_line acc buf segs); cbn [rsrc snd]; try reflexivity; [exact H|].
  etrans; [exact H | apply fill_tail].
Qed.

Lemma ReadLine_tail r : src_tail (rsrc (ReadLine r).2) (rsrc r).
Proof. apply read_line_tail. Qed.

(** A [ReadLine] on an empty buffer pulls the first segment whole when
    it fits in the buffer. *)
Lemma ReadLine_pull seg segs :
  String.length seg <= bufSize -> src_tail (rsrc (ReadLine (mkBufReader EmptyString (seg :: segs))).2) segs.
Proof.
  intros Hs. unfold ReadLine; cbn [rbuf rsrc].
  assert (Hf : fill EmptyString (seg :: segs) = (seg, segs)).
  { unfold fill. cbn. rewrite Nat.sub_0_r. by apply Nat.leb_le in Hs as ->. }
  assert (E : read_line EmptyString EmptyString (seg :: segs) = read_line EmptyString seg segs).
  { simp read_line. cbn. pose proof bufSize_ge2. destruct (Nat.leb_spec bufSize 0); [lia|].
    simp read_line. by rewrite Hf. }
  rewrite E. apply read_line_tail.
Qed.

Lemma skip_segs_tail buf segs : src_tail (rsrc (skip_segs buf segs).2) segs.
Proof.
  funelim (skip_segs buf segs); cbn [rsrc snd]; try reflexivity.
  revert H. destruct (skip_segs _ _) as [m r] eqn:E; cbn [rsrc snd]. intros H. etrans; [exact H | apply fill_tail].
Qed.

Lemma skipSpace_tail r : src_tail (rsrc (skipSpace r).2) (rsrc r).
Proof. apply skip_segs_tail. Qed.

Lemma peekByte_tail r c r' : peekByte r = Some (c, r') -> src_tail (rsrc r') (rsrc r).
Proof.
  unfold peekByte. generalize (rbuf r). induction (rsrc r) as [|seg segs IH]; intros [|d t]; cbn [peek_segs];
    try discriminate; try (intros [= _ <-]; reflexivity).
  pose proof (fill_tail EmptyString (seg :: segs)) as Ht.
  destruct (fill EmptyString (seg :: segs)) as [[|d t] segs''] eqn:E; cbn [snd] in Ht.
  - intros H. constructor. exact (IH EmptyString H).
  - by intros [= _ <-].
Qed.

End BufIOFacts.
