(* ===== verification/TextProto.v ===== *)
(** * net/textproto: continued lines

    [trim] and [readContinuedLine] of Go's
    [net/textproto.Reader] (Go 1.10, the version glider 0.6.9 was built
    with), over the [BufReader] of [GoText].  Both loops of the Go code
    are defined by well-founded recursion on [reader_size]: every
    iteration consumes at least one byte ([ReadLine_size],
    [skipSpace_size]), which is also their termination proof.

    Header keys are put in canonical form as Go 1.10 does (first letter
    and letters after '-' upper case, the rest lower case; a key that
    contains a space is left as is); the other validity checks on key
    bytes of later Go versions are not modelled. *)

From S2P Require Import Prelude GoText.
From Equations Require Import Equations.
Import GoStrings GoStringsFacts BufIO BufIOFacts.

Module TextProto.

(** Trailing spaces and tabs removed. *)
Fixpoint rtrim (s : string) : string :=
  match s with
  | EmptyString => EmptyString
  | String c s' =>
      let t := rtrim s' in
      if is_space c && bool_decide (t = EmptyString) then EmptyString else String c t
  end.

(** textproto's [trim]: leading and trailing spaces and tabs removed. *)
Definition trim (s : string) : string := rtrim (snd (skip_ws s)).

(** The continuation loop of [readContinuedLineSlice]: while
    [skipSpace] skips something, read the rest of that line and append
    it, trimmed, after a single space; stop at end of stream. *)
Equations? continue_lines (acc : string) (r : BufReader) : string * BufReader
  by wf (reader_size r) lt :=
  continue_lines acc r with Equations.Prop.Logic.inspect (skipSpace r) := {
  | exist _ (n, r1) E1 with decide (n = 0) := {
    | left _ := (acc, r1);
    | right Hn with Equations.Prop.Logic.inspect (ReadLine r1) := {
      | exist _ (Err _, r2) E3 := (acc, r2);
      | exist _ (Ok line, r2) E2 := continue_lines (acc +:+ String sp (trim line)) r2 } } }.
Proof.
  apply skipSpace_size in E1. apply ReadLine_size in E2. lia.
Qed.

(** [readContinuedLineSlice]: a line, trimmed, with its continuation
    lines; a blank line is returned as the empty string. *)
Definition readContinuedLine (r : BufReader) : result ReadErr string * BufReader :=
  match ReadLine r with
  | (Err e, r1) => (Err e, r1)
  | (Ok line, r1) =>
      if decide (line = EmptyString) then (Ok EmptyString, r1)
      else let '(s, r2) := continue_lines (trim line) r1 in (Ok s, r2)
  end.

Lemma continue_lines_size acc r : reader_size (snd (continue_lines acc r)) <= reader_size r.
Proof.
  funelim (continue_lines acc r); simpl; pose proof (skipSpace_size _ _ _ E1).
  - lia.
  - pose proof (ReadLine_size _ _ _ E2). lia.
  - pose proof (ReadLine_size_le _ _ _ E3). lia.
Qed.

Lemma continue_lines_tail acc r : src_tail (rsrc (snd (continue_lines acc r))) (rsrc r).
Proof.
  funelim (continue_lines acc r); simpl; pose proof (skipSpace_tail r) as Hs; rewrite E1 in Hs; cbn in Hs.
  - exact Hs.
  - pose proof (ReadLine_tail r1) as Hr; rewrite E2 in Hr; cbn in Hr.
    etrans; [eassumption|]. by etrans.
  - pose proof (ReadLine_tail r1) as Hr; rewrite E3 in Hr; cbn in Hr. by etrans.
Qed.

Lemma is_space_sp : is_space sp = true.
Proof. reflexivity. Qed.

(** [rtrim] keeps everything up to the last non-blank character. *)
Lemma rtrim_app_nonws s c t :
  is_space c = false -> rtrim (s +:+ String c t) = s +:+ String c (rtrim t).
Proof.
  intros Hc. induction s as [|d s IH].
  - simpl. by rewrite Hc.
  - rewrite !string_app_cons. cbn [rtrim]. rewrite IH.
    rewrite (bool_decide_false (_ = EmptyString)); [by rewrite andb_false_r|].
    by destruct s.
Qed.

Lemma trim_id s c :
  starts_nonws s -> is_space c = false -> trim (s +:+ String c EmptyString) = s +:+ String c EmptyString.
Proof.
  intros Hs Hc. unfold trim.
  destruct s as [|d s]; simpl in Hs.
  - simpl. rewrite Hc. simpl. by rewrite Hc.
  - rewrite string_app_cons. cbn [skip_ws]. rewrite Hs. simpl snd.
    rewrite <- string_app_cons, rtrim_app_nonws by exact Hc. reflexivity.
Qed.

(** When the next line does not start with a blank there is no
    continuation: the loop returns at once, consuming nothing. *)
Lemma continue_lines_stop acc r :
  starts_nonws (contents r) ->
  exists r', continue_lines acc r = (acc, r') /\ contents r' = contents r /\
    (rbuf r <> EmptyString -> r' = r).
Proof.
  intros Hs. destruct (skipSpace_split r EmptyString (contents r) eq_refl Hs eq_refl) as (r0 & E0 & C0).
  assert (Hr0 : rbuf r <> EmptyString -> r0 = r).
  { intros Hb. destruct (rbuf r) as [|c t] eqn:Eb; [done|].
    assert (Hc : is_space c = false) by (unfold contents in Hs; by rewrite Eb in Hs).
    rewrite (skipSpace_buf r c t Hc Eb) in E0. by injection E0 as <-. }
  clear Hs. funelim (continue_lines acc r); pose proof (eq_trans (eq_sym E1) E0) as Hsk;
    injection Hsk as -> ->; [eauto|done|done].
Qed.

Lemma readContinuedLine_size r kv r' :
  readContinuedLine r = (Ok kv, r') -> reader_size r' < reader_size r.
Proof.
  unfold readContinuedLine. destruct (ReadLine r) as [[line|e] r1] eqn:E; [|discriminate].
  apply ReadLine_size in E. case_decide; intros Hr.
  - injection Hr as _ <-. lia.
  - pose proof (continue_lines_size (trim line) r1) as Hs.
    destruct (continue_lines (trim line) r1) as [s r2]. injection Hr as _ <-. simpl in Hs. lia.
Qed.

(** A blank line (["\r\n"]) reads as the empty string. *)
Lemma readContinuedLine_blank r t :
  contents r = String cr (String nl t) ->
  exists r', readContinuedLine r = (Ok EmptyString, r') /\ contents r' = t /\
    from_buffer r (String cr (String nl EmptyString)) r'.
Proof.
  intros Hc. destruct (ReadLine_crlf r EmptyString t eq_refl Hc) as (r1 & E & C & B).
  unfold readContinuedLine. rewrite E, decide_True by done. eauto.
Qed.

(** A non-blank line whose successor does not start with a blank reads
    as itself, trimmed. *)
Lemma readContinuedLine_line r l t :
  l <> EmptyString -> has_char nl l = false -> starts_nonws t ->
  contents r = l +:+ String cr (String nl t) ->
  exists r', readContinuedLine r = (Ok (trim l), r') /\ contents r' = t /\
    (forall tb, tb <> EmptyString -> rbuf r = l +:+ String cr (String nl tb) -> r' = mkBufReader tb (rsrc r)).
Proof.
  intros Hl Hnl Ht Hc. destruct (ReadLine_crlf r l t Hnl Hc) as (r1 & E & C & B).
  unfold readContinuedLine. rewrite E, decide_False by done.
  rewrite <- C in Ht. destruct (continue_lines_stop (trim l) r1 Ht) as (r2 & -> & C2 & S2).
  exists r2. split; [done|]. split; [congruence|]. intros tb Hne Hb.
  assert (E1 : r1 = mkBufReader tb (rsrc r)) by (apply B; rewrite Hb, <- string_app_assoc; done).
  rewrite S2; [done|]. by rewrite E1.
Qed.

Lemma readContinuedLine_eof r :
  contents r = EmptyString -> readContinuedLine r = (Err EOF, mkBufReader EmptyString []).
Proof. intros Hc. unfold readContinuedLine. by rewrite ReadLine_eof. Qed.

Lemma readContinuedLine_tail r : src_tail (rsrc (snd (readContinuedLine r))) (rsrc r).
Proof.
  unfold readContinuedLine. pose proof (ReadLine_tail r) as H.
  destruct (ReadLine r) as [[line|e] r1]; cbn in *; [|done].
  case_decide; [done|]. pose proof (continue_lines_tail (trim line) r1) as H2.
  destruct (continue_lines _ _); cbn in *. by etrans.
Qed.

End TextProto.
