(* ===== verification/MimeHeader.v ===== *)
(** * net/textproto: MIME header blocks

    [ReadMIMEHeader] of Go 1.10's [net/textproto.Reader] over the
    [BufReader] of [GoText]: a header block is a sequence of
    (continued) lines [Key: value] ended by a blank line.  The loop is
    defined by well-founded recursion on [reader_size]
    ([readContinuedLine_size] is its termination proof).

    Keys are put in canonical form as Go 1.10 does (first letter and
    letters after '-' upper case, the rest lower case; a key containing
    a space is left as is).  The header is returned as an association
    list in arrival order, which is what the multi-valued Go map
    [MIMEHeader] records per key.  The theorems: a well-formed block is
    read whole and the reader stops right after its blank line
    ([ReadMIMEHeader_block]); a block cut short by the end of the stream
    gives [EOF]. *)

From S2P Require Import Prelude GoText TextProto.
From Equations Require Import Equations.
Import GoStrings GoStringsFacts BufIO BufIOFacts TextProto.

Module MimeHeader.

Definition to_upper (c : ascii) : ascii :=
  let n := nat_of_ascii c in
  if (97 <=? n) && (n <=? 122) then ascii_of_nat (n - 32) else c.

Definition to_lower (c : ascii) : ascii :=
  let n := nat_of_ascii c in
  if (65 <=? n) && (n <=? 90) then ascii_of_nat (n + 32) else c.

Fixpoint canon_from (upper : bool) (s : string) : string :=
  match s with
  | EmptyString => EmptyString
  | String c s' =>
      let c' := if upper then to_upper c else to_lower c in
      String c' (canon_from (bool_decide (c' = "-"%char)) s')
  end.

(** [canonicalMIMEHeaderKey]. *)
Definition canonicalMIMEHeaderKey (k : string) : string :=
  if has_char sp k then k else canon_from true k.

(** Trailing spaces (not tabs) of a key dropped: [for endKey > 0 &&
    kv[endKey-1] == ' ' { endKey-- }]. *)
Fixpoint rtrim_sp (s : string) : string :=
  match s with
  | EmptyString => EmptyString
  | String c s' =>
      let t := rtrim_sp s' in
      if bool_decide (c = sp) && bool_decide (t = EmptyString) then EmptyString else String c t
  end.

Definition colon_char : ascii := ":"%char.
Definition colon : string := String colon_char EmptyString.

(** The key of header line [kv] whose first colon is at [i]. *)
Definition header_key (kv : string) (i : nat) : string :=
  canonicalMIMEHeaderKey (rtrim_sp (substring 0 i kv)).

(** Its value: after the colon, leading spaces and tabs skipped. *)
Definition header_value (kv : string) (i : nat) : string :=
  snd (skip_ws (substring (S i) (String.length kv - S i) kv)).

Definition MIMEHeader := list (string * string).

(** The loop of [ReadMIMEHeader]: read a continued line; a blank line
    ends the block; a line without a colon is a protocol error; an empty
    key is skipped; otherwise the value is appended under its key. *)
Equations? readHeaderLines (m : MIMEHeader) (r : BufReader) : result ReadErr MIMEHeader * BufReader
  by wf (reader_size r) lt :=
  readHeaderLines m r with Equations.Prop.Logic.inspect (readContinuedLine r) := {
  | exist _ (Err e, r1) _ := (Err e, r1);
  | exist _ (Ok kv, r1) E with decide (kv = EmptyString) := {
    | left _ := (Ok m, r1);
    | right _ with index_nat kv colon := {
      | None := (Err (ProtocolError ("malformed MIME header line: " +:+ kv)), r1);
      | Some i with header_key kv i := {
        | EmptyString := readHeaderLines m r1;
        | String c k := readHeaderLines (m ++ [(String c k, header_value kv i)]) r1 } } } }.
Proof. all: exact (readContinuedLine_size _ _ _ E). Qed.

(** [ReadMIMEHeader]: a first line starting with a blank is an error;
    otherwise run the loop from an empty header. *)
Definition ReadMIMEHeader (r : BufReader) : result ReadErr MIMEHeader * BufReader :=
  match peekByte r with
  | Some (c, r1) =>
      if is_space c then
        match ReadLine r1 with
        | (Err e, r2) => (Err e, r2)
        | (Ok line, r2) => (Err (ProtocolError ("malformed MIME header initial line: " +:+ line)), r2)
        end
      else readHeaderLines [] r1
  | None => readHeaderLines [] r
  end.

(** [MIMEHeader.Get]: the first value under the canonical key, or the
    empty string. *)
Definition Get (h : MIMEHeader) (key : string) : string :=
  match list_find (fun kv => kv.1 = canonicalMIMEHeaderKey key) h with
  | Some (_, (_, v)) => v
  | None => EmptyString
  end.

(** Header blocks as a server sends them: [Key: value] lines, each
    ended by CRLF. *)
Definition header_line (k v : string) : string := k +:+ String colon_char (String sp v).

Definition crlf (t : string) : string := String cr (String nl t).

Fixpoint header_block (hs : list (string * string)) (t : string) : string :=
  match hs with
  | [] => t
  | (k, v) :: hs' => header_line k v +:+ crlf (header_block hs' t)
  end.

Fixpoint last_char (s : string) : option ascii :=
  match s with
  | EmptyString => None
  | String c EmptyString => Some c
  | String _ s' => last_char s'
  end.

Definition first_char (s : string) : option ascii :=
  match s with
  | EmptyString => None
  | String c _ => Some c
  end.

(** A header line Go reads back as it was written: the key is not
    empty, starts with no blank, ends with no space and has no colon;
    the value is not empty and starts and ends with no blank; neither
    holds a newline. *)
Definition header_ok (k v : string) : bool :=
  match first_char k, last_char k, first_char v, last_char v with
  | Some fk, Some lk, Some fv, Some lv =>
      negb (is_space fk) && negb (bool_decide (lk = sp)) && negb (has_char colon_char k)
      && negb (has_char nl k) && negb (is_space fv) && negb (is_space lv)
      && negb (has_char nl v)
  | _, _, _, _ => false
  end.

(** The header Go builds from a well-formed block. *)
Definition canon_fields (hs : list (string * string)) : MIMEHeader :=
  map (fun '(k, v) => (canonicalMIMEHeaderKey k, v)) hs.

Definition headers_ok (hs : list (string * string)) : bool :=
  forallb (fun '(k, v) => header_ok k v) hs.

(** ** Lemmas *)

(** The defining equation of the loop, with its [with] clauses as
    plain matches. *)
Lemma readHeaderLines_eq m r :
  readHeaderLines m r =
  match readContinuedLine r with
  | (Err e, r1) => (Err e, r1)
  | (Ok kv, r1) =>
      if decide (kv = EmptyString) then (Ok m, r1) else
      match index_nat kv colon with
      | None => (Err (ProtocolError ("malformed MIME header line: " +:+ kv)), r1)
      | Some i =>
          match header_key kv i with
          | EmptyString => readHeaderLines m r1
          | String c k => readHeaderLines (m ++ [(String c k, header_value kv i)]) r1
          end
      end
  end.
Proof.
  funelim (readHeaderLines m r);
    match goal with H : readContinuedLine _ = _ |- _ => rewrite H end; [done|..];
    case_decide; try congruence;
    match goal with H : index_nat _ _ = _ |- _ => rewrite H end; try reflexivity;
    match goal with H : header_key _ _ = _ |- _ => rewrite H end; reflexivity.
Qed.

(** The header loop only ever consumes the connection's segments. *)
Lemma readHeaderLines_tail m r : src_tail (rsrc (readHeaderLines m r).2) (rsrc r).
Proof.
  remember (reader_size r) as k eqn:Hk. revert m r Hk.
  induction k as [k IH] using lt_wf_ind; intros m r ->.
  rewrite readHeaderLines_eq. pose proof (readContinuedLine_tail r) as Hs.
  destruct (readContinuedLine r) as [[kv|e] r1] eqn:E; cbn in Hs |- *; [|done].
  pose proof (readContinuedLine_size _ _ _ E) as Hlt.
  case_decide; [done|]. destruct (index_nat kv colon) as [i|]; [|done].
  destruct (header_key kv i); (etrans; [eapply IH; [exact Hlt | reflexivity] | exact Hs]).
Qed.

Lemma ReadMIMEHeader_tail r : src_tail (rsrc (ReadMIMEHeader r).2) (rsrc r).
Proof.
  unfold ReadMIMEHeader. destruct (peekByte r) as [[c r1]|] eqn:E; [|apply readHeaderLines_tail].
  apply peekByte_tail in E. destruct (is_space c).
  - pose proof (ReadLine_tail r1) as H. destruct (ReadLine r1) as [[] r2]; cbn in *; by etrans.
  - etrans; [apply readHeaderLines_tail | exact E].
Qed.

Lemma last_char_snoc s c : last_char (s +:+ String c EmptyString) = Some c.
Proof.
  induction s as [|d s IH]; [reflexivity|].
  rewrite string_app_cons. cbn [last_char]. rewrite IH. by destruct s.
Qed.

Lemma string_snoc s c : last_char s = Some c -> exists s0, s = s0 +:+ String c EmptyString.
Proof.
  induction s as [|d s IH]; intros H; [discriminate|].
  destruct s as [|d' s].
  - injection H as ->. by exists EmptyString.
  - destruct (IH H) as [s0 E]. exists (String d s0). rewrite string_app_cons, <- E. done.
Qed.

Lemma rtrim_sp_snoc s c : c <> sp -> rtrim_sp (s +:+ String c EmptyString) = s +:+ String c EmptyString.
Proof.
  intros Hc. induction s as [|d s IH].
  - simpl. by rewrite bool_decide_false.
  - rewrite string_app_cons. cbn [rtrim_sp]. rewrite IH.
    rewrite (bool_decide_false (_ = EmptyString)); [by rewrite andb_false_r|]. by destruct s.
Qed.

Lemma canon_from_nonempty b s : s <> EmptyString -> canon_from b s <> EmptyString.
Proof. destruct s; done. Qed.

Lemma canonical_nonempty k : k <> EmptyString -> canonicalMIMEHeaderKey k <> EmptyString.
Proof. intros Hk. unfold canonicalMIMEHeaderKey. destruct (has_char sp k); auto using canon_from_nonempty. Qed.

Lemma header_ok_inv k v :
  header_ok k v = true ->
  exists fk k0 lk v0 lv, k = k0 +:+ String lk EmptyString /\ first_char k = Some fk
    /\ is_space fk = false /\ lk <> sp /\ has_char colon_char k = false /\ has_char nl k = false
    /\ v = v0 +:+ String lv EmptyString /\ starts_nonws v /\ is_space lv = false /\ has_char nl v = false.
Proof.
  unfold header_ok.
  destruct (first_char k) as [fk|] eqn:Fk, (last_char k) as [lk|] eqn:Lk,
    (first_char v) as [fv|] eqn:Fv, (last_char v) as [lv|] eqn:Lv; try discriminate.
  intros H. repeat (apply andb_prop in H as [H ?]). apply negb_true_iff in H.
  repeat match goal with Hb : negb _ = true |- _ => apply negb_true_iff in Hb end.
  destruct (string_snoc _ _ Lk) as [k0 ->]. destruct (string_snoc _ _ Lv) as [v0 ->].
  exists fk, k0, lk, v0, lv. repeat split; try done.
  - by case_bool_decide.
  - destruct v0; simpl in *; congruence.
Qed.

Lemma header_ok_starts k v t : header_ok k v = true -> starts_nonws (header_line k v +:+ t).
Proof.
  intros H. destruct (header_ok_inv k v H) as (fk & k0 & lk & v0 & lv & -> & Fk & Hfk & _).
  destruct k0; rewrite ?string_app_cons; simpl in *; congruence.
Qed.

(** Reading one well-formed header line: the line itself, its key in
    canonical form at the colon, and its value. *)
Lemma header_line_read r k v t :
  header_ok k v = true -> starts_nonws t -> contents r = header_line k v +:+ crlf t ->
  exists r', readContinuedLine r = (Ok (header_line k v), r') /\ contents r' = t
    /\ (forall tb, tb <> EmptyString -> rbuf r = header_line k v +:+ crlf tb -> r' = mkBufReader tb (rsrc r))
    /\ index_nat (header_line k v) colon = Some (String.length k)
    /\ header_key (header_line k v) (String.length k) = canonicalMIMEHeaderKey k
    /\ header_value (header_line k v) (String.length k) = v.
Proof.
  intros Hok Ht Hc. pose proof (header_ok_starts k v EmptyString Hok) as Hs.
  rewrite string_app_nil_r in Hs.
  destruct (header_ok_inv k v Hok) as (fk & k0 & lk & v0 & lv & Ek & Fk & Hfk & Hlk & Hcol & Hnk & Ev & Hv & Hlv & Hnv).
  assert (Hl : header_line k v = (k +:+ String colon_char (String sp v0)) +:+ String lv EmptyString).
  { unfold header_line. rewrite Ev, <- string_app_assoc. done. }
  destruct (readContinuedLine_line r (header_line k v) t) as (r' & E & C & B); try done.
  - by destruct k0; rewrite Ek.
  - unfold header_line. rewrite has_char_app, Hnk, !has_char_ne by done. done.
  - exists r'. rewrite Hl, trim_id, <- Hl in E; [|by rewrite Hl in Hs;
      destruct k0; rewrite ?Ek in Hs |- *; rewrite ?string_app_cons in Hs |- *|done].
    split; [done|]. split; [done|]. split; [exact B|]. split; [by apply index_char_app|]. split.
    + unfold header_key, header_line. rewrite substring_app_l, Ek, rtrim_sp_snoc by done.
      by rewrite <- Ek.
    + unfold header_value, header_line. rewrite <- (Nat.add_1_r (String.length k)), substring_app_r.
      rewrite string_length_app. cbn [String.length substring].
      replace (String.length k + S (S (String.length v)) - (String.length k + 1))
        with (S (String.length v)) by lia.
      rewrite substring_all. cbn [skip_ws]. rewrite is_space_sp.
      destruct v as [|c v']; [done|]. simpl in Hv. cbn [skip_ws]. by rewrite Hv.
Qed.

Lemma crlf_app t u : crlf t +:+ u = crlf (t +:+ u).
Proof. unfold crlf. by rewrite !string_app_cons. Qed.

Lemma header_block_app hs t u : header_block hs t +:+ u = header_block hs (t +:+ u).
Proof.
  induction hs as [|[k v] hs IH]; [done|]. cbn [header_block].
  by rewrite <- string_app_assoc, <- IH.
Qed.

Lemma header_block_starts hs t :
  headers_ok hs = true -> starts_nonws t -> starts_nonws (header_block hs t).
Proof.
  destruct hs as [|[k v] hs]; simpl; [done|].
  intros H _. apply andb_prop in H as [H _]. by apply header_ok_starts.
Qed.

(** A run of well-formed header lines is read line by line, each
    appended to the header in order. *)
Lemma readHeaderLines_block hs m r t :
  headers_ok hs = true -> starts_nonws t -> contents r = header_block hs t ->
  exists r', contents r' = t /\ readHeaderLines m r = readHeaderLines (m ++ canon_fields hs) r' /\
    (forall tb, tb <> EmptyString -> rbuf r = header_block hs tb -> r' = mkBufReader tb (rsrc r)).
Proof.
  revert m r. induction hs as [|[k v] hs IH]; intros m r Hok Ht Hc.
  - exists r. rewrite app_nil_r. split; [done|]. split; [done|]. intros tb _ Hb.
    destruct r; cbn in *; by subst.
  - simpl in Hok. apply andb_prop in Hok as [Hkv Hok].
    destruct (header_line_read r k v (header_block hs t) Hkv (header_block_starts hs t Hok Ht) Hc)
      as (r1 & E & C & B & Hi & Hk & Hv).
    destruct (IH (m ++ [(canonicalMIMEHeaderKey k, v)]) r1 Hok Ht C) as (r2 & C2 & E2 & B2).
    exists r2. split; [done|]. split; cycle 1.
    { intros tb Hne Hb. assert (E1 : r1 = mkBufReader (header_block hs tb) (rsrc r)).
      { apply B; [|exact Hb]. destruct hs as [|[]]; [done|]. apply string_app_neq_nil_r. discriminate. }
      rewrite (B2 tb Hne); [by rewrite E1 | by rewrite E1]. }
    rewrite readHeaderLines_eq, E, decide_False by (unfold header_line; by destruct k).
    rewrite Hi, Hk. destruct (canonicalMIMEHeaderKey k) as [|c k'] eqn:Ek.
    + exfalso. apply header_ok_inv in Hkv as (? & k0 & ? & ? & ? & Ek0 & _).
      apply (canonical_nonempty k); [|exact Ek].
      rewrite Ek0. apply string_app_neq_nil_r. discriminate.
    + rewrite Hv, E2. cbn [canon_fields map]. rewrite Ek. by rewrite <- app_assoc.
Qed.

Lemma readHeaderLines_blank m r rest :
  contents r = crlf rest -> exists r', readHeaderLines m r = (Ok m, r') /\ contents r' = rest /\
    from_buffer r (crlf EmptyString) r'.
Proof.
  intros Hc. destruct (readContinuedLine_blank r rest Hc) as (r' & E & C & B).
  exists r'. rewrite readHeaderLines_eq, E. done.
Qed.

Lemma readHeaderLines_eof m r :
  contents r = EmptyString -> readHeaderLines m r = (Err EOF, mkBufReader EmptyString []).
Proof. intros Hc. by rewrite readHeaderLines_eq, readContinuedLine_eof. Qed.

Lemma ReadMIMEHeader_nonws r :
  starts_nonws (contents r) -> exists r1, contents r1 = contents r /\ ReadMIMEHeader r = readHeaderLines [] r1 /\
    (rbuf r <> EmptyString -> r1 = r).
Proof.
  intros Hs. unfold ReadMIMEHeader. destruct (rbuf r) as [|c0 t0] eqn:Eb.
  - pose proof (peekByte_spec r) as P. destruct (peekByte r) as [[c r1]|].
    + destruct P as [C [t Et]]. rewrite Et in Hs. simpl in Hs. rewrite Hs.
      exists r1. split; [done|]. split; [done|]. by intros [].
    + exists r. split; [done|]. split; [done|]. by intros [].
  - rewrite (peekByte_buf r c0 t0 Eb). unfold contents in Hs. rewrite Eb in Hs. cbn in Hs. rewrite Hs.
    exists r. split; [done|]. split; [done|]. done.
Qed.

(** A well-formed header block ended by a blank line is read whole:
    the header holds its fields in order, keys in canonical form, and
    the reader stops right after the blank line. *)
Theorem ReadMIMEHeader_block hs r rest :
  headers_ok hs = true -> contents r = header_block hs (crlf rest) ->
  exists r', ReadMIMEHeader r = (Ok (canon_fields hs), r') /\ contents r' = rest /\
    (forall tb, rbuf r = header_block hs (crlf tb) -> r' = mkBufReader tb (rsrc r)).
Proof.
  intros Hok Hc.
  assert (Ht : starts_nonws (crlf rest)) by reflexivity.
  destruct (ReadMIMEHeader_nonws r) as (r1 & C1 & -> & S1).
  { rewrite Hc. by apply header_block_starts. }
  rewrite Hc in C1. destruct (readHeaderLines_block hs [] r1 _ Hok Ht C1) as (r2 & C2 & -> & B2).
  destruct (readHeaderLines_blank (canon_fields hs) r2 rest C2) as (r' & E & C & B).
  exists r'. split; [exact E|]. split; [exact C|]. intros tb Hb.
  assert (Hne : forall u, header_block hs (crlf u) <> EmptyString).
  { intros u. destruct hs as [|[]]; [discriminate|]. apply string_app_neq_nil_r. discriminate. }
  assert (E1 : r1 = r) by (apply S1; rewrite Hb; apply Hne).
  assert (E2 : r2 = mkBufReader (crlf tb) (rsrc r)) by (subst r1; apply B2; [discriminate | exact Hb]).
  rewrite (B tb); by rewrite E2.
Qed.

(** A header block cut off by the end of the stream is an [EOF] error. *)
Theorem ReadMIMEHeader_unterminated hs r :
  headers_ok hs = true -> contents r = header_block hs EmptyString ->
  ReadMIMEHeader r = (Err EOF, mkBufReader EmptyString []).
Proof.
  intros Hok Hc.
  destruct (ReadMIMEHeader_nonws r) as (r1 & C1 & -> & _).
  { rewrite Hc. by apply header_block_starts. }
  rewrite Hc in C1. destruct (readHeaderLines_block hs [] r1 EmptyString Hok I C1) as (r2 & C2 & -> & _).
  by apply readHeaderLines_eof.
Qed.

(** ** Witnesses *)

Definition upgrade_fields : list (string * string) :=
  [("upgrade", "websocket"); ("connection", "Upgrade")]%string.

Lemma ReadMIMEHeader_block_witness :
  exists r', ReadMIMEHeader (NewReader [header_block upgrade_fields (crlf "rest")]%string)
             = (Ok (canon_fields upgrade_fields), r') /\ contents r' = "rest"%string.
Proof.
  destruct (ReadMIMEHeader_block upgrade_fields (NewReader [header_block upgrade_fields (crlf "rest")]%string)
              "rest"%string) as (r' & E & C & _); [reflexivity | reflexivity |].
  eauto.
Defined.

Lemma ReadMIMEHeader_unterminated_witness :
  ReadMIMEHeader (NewReader [header_block upgrade_fields EmptyString])
  = (Err EOF, mkBufReader EmptyString []).
Proof. apply (ReadMIMEHeader_unterminated upgrade_fields); reflexivity. Defined.

End MimeHeader.
