(* ===== verification/WsFrame.v ===== *)
(** * The WebSocket frame codec

    [proxy/ws/frame.go] is not among the staged sources; its behaviour
    is modelled from spec 4.2 and 6 ("Frame wire format"):
    - a written frame is a single final binary frame: byte 0 is
      [finalBit | opBinary], byte 1 is [maskBit | len7], then the
      extended length (none if the payload is shorter than 126 bytes,
      16 bits big-endian after the marker 126 up to 65535, 64 bits
      after the marker 127 beyond), the 4-byte mask key and the payload
      XORed with the key ([encodeFrame]);
    - a read frame header is decoded byte by byte ([decodeHeader]): a
      truncated header, an opcode other than binary or a declared
      length above the reader's maximum is a [FrameError];
    - [FrameReader] streams the payload into the caller's buffer over as
      many [Read] calls as needed, keeping the bytes left in the current
      frame and the mask position as its cursor.

    Bytes are [Z] in [0, 256); frame bytes travel on the connection as
    Go strings ([string_of_bytes]).  The mask key of each written frame
    is the value Go draws from [math/rand]; the model takes it as an
    argument. *)

From S2P Require Import Prelude.

Module WsFrame.

Definition finalBit : Z := 128.
Definition maskBit : Z := 128.
Definition opBinary : Z := 2.

(** [binary.BigEndian.PutUint16/PutUint64]: the [n] low bytes of [x],
    most significant first. *)
Fixpoint be_bytes (n : nat) (x : Z) : list Z :=
  match n with
  | O => []
  | S n' => be_bytes n' (Z.shiftr x 8) ++ [Z.land x 255]
  end.

(** [binary.BigEndian.Uint16/Uint64]. *)
Definition be_value (l : list Z) : Z := fold_left (fun acc b => acc * 256 + b)%Z l 0%Z.

(** The 7-bit length and the extended length field of a payload of [n]
    bytes. *)
Definition length_fields (n : Z) : Z * list Z :=
  if (n <? 126)%Z then (n, [])
  else if (n <? 65536)%Z then (126%Z, be_bytes 2 n)
  else (127%Z, be_bytes 8 n).

(** The payload XORed with the key, byte [i] with key byte [i mod 4];
    [pos] is the payload offset of the first byte. *)
Fixpoint mask_from (key : list Z) (pos : nat) (p : list Z) : list Z :=
  match p with
  | [] => []
  | b :: p' => Z.lxor b (nth (pos mod 4) key 0%Z) :: mask_from key (S pos) p'
  end.

Definition mask (key p : list Z) : list Z := mask_from key 0 p.

(** [frameWriter.Write]: one masked, final, binary frame. *)
Definition encodeFrame (key payload : list Z) : list Z :=
  let '(len7, ext) := length_fields (Z.of_nat (length payload)) in
  [Z.lor finalBit opBinary; Z.lor maskBit len7] ++ ext ++ key ++ mask key payload.

Inductive FrameError : Type :=
| ErrTruncated
| ErrOpcode (op : Z)
| ErrTooLarge (len : Z)
| ErrConnEOF.

Record FrameHeader : Type := mkFrameHeader {
  hdr_fin : bool;
  hdr_len : Z;
  hdr_key : option (list Z);
}.

(** [io.ReadFull] of [n] bytes from a byte stream; when the stream is
    shorter it fails, having consumed it. *)
Definition take_exact (n : nat) (l : list Z) : option (list Z) * list Z :=
  if decide (n <= length l) then (Some (take n l), drop n l) else (None, []).

Section Decode.
(** The header decoder reads through [take], Go's [io.ReadFull] on
    whatever it reads from: a byte list here, the connection's segments
    in [FrameReader].  Like Go it leaves the source where the failing
    read stopped. *)
Context {Src : Type} (take : nat -> Src -> option (list Z) * Src).

Definition decodeHeaderWith (max : Z) (s : Src) : result FrameError FrameHeader * Src :=
  match take 2 s with
  | (Some [b0; b1], s1) =>
      let op := Z.land b0 15 in
      if decide (op <> opBinary) then (Err (ErrOpcode op), s1) else
      let len7 := Z.land b1 127 in
      let ext_n := if decide (len7 = 126%Z) then 2 else if decide (len7 = 127%Z) then 8 else 0 in
      match take ext_n s1 with
      | (None, s2) => (Err ErrTruncated, s2)
      | (Some ext, s2) =>
          let len := if decide (ext_n = 0) then len7 else be_value ext in
          if decide (max < len)%Z then (Err (ErrTooLarge len), s2) else
          if Z.testbit b1 7 then
            match take 4 s2 with
            | (None, s3) => (Err ErrTruncated, s3)
            | (Some key, s3) => (Ok (mkFrameHeader (Z.testbit b0 7) len (Some key)), s3)
            end
          else (Ok (mkFrameHeader (Z.testbit b0 7) len None), s2)
      end
  | (_, s1) => (Err ErrTruncated, s1)
  end.
End Decode.

(** Decode one frame header from the front of a byte list. *)
Definition decodeHeader (max : Z) (l : list Z) : result FrameError FrameHeader * list Z :=
  decodeHeaderWith take_exact max l.

(** A whole frame: its header, then exactly [len] payload bytes,
    unmasked. *)
Definition decodeFrame (max : Z) (l : list Z) : result FrameError (list Z) * list Z :=
  match decodeHeader max l with
  | (Err e, l1) => (Err e, l1)
  | (Ok h, l1) =>
      match take_exact (Z.to_nat (hdr_len h)) l1 with
      | (None, l2) => (Err ErrTruncated, l2)
      | (Some p, l2) => (Ok (match hdr_key h with Some key => mask key p | None => p end), l2)
      end
  end.

(** ** Streaming over the connection *)

(** The bytes still in the connection's segments. *)
Definition seg_bytes (segs : list string) : list Z := List.concat (map bytes_of_string segs).

(** What is left of a partly read segment stays at the front. *)
Definition push_front (b : list Z) (segs : list string) : list string :=
  match b with
  | [] => segs
  | _ => string_of_bytes b :: segs
  end.

(** [io.ReadFull(conn, buf[:n])]: exactly [n] bytes, across segments;
    when the connection ends first it fails, having consumed it. *)
Fixpoint read_full (n : nat) (segs : list string) {struct segs} : option (list Z) * list string :=
  match n with
  | O => (Some [], segs)
  | S _ =>
      match segs with
      | [] => (None, [])
      | seg :: segs' =>
          let b := bytes_of_string seg in
          if decide (n <= length b) then (Some (take n b), push_front (drop n b) segs')
          else match read_full (n - length b) segs' with
               | (Some bs, rest) => (Some (b ++ bs), rest)
               | (None, rest) => (None, rest)
               end
      end
  end.

(** One [conn.Read(buf[:n])]: at most [n] bytes of the next non-empty
    segment; [None] at end of stream. *)
Fixpoint read_some (n : nat) (segs : list string) : option (list Z) * list string :=
  match n with
  | O => (Some [], segs)
  | S _ =>
      match segs with
      | [] => (None, [])
      | seg :: segs' =>
          match bytes_of_string seg with
          | [] => read_some n segs'
          | b => (Some (take n b), push_front (drop n b) segs')
          end
      end
  end.

(** The state of a [frameReader]: its maximum frame length, the bytes
    left in the current frame, its mask key and the offset reached in
    its payload. *)
Record FrameReader : Type := mkFrameReader {
  fr_max : Z;
  fr_left : Z;
  fr_key : option (list Z);
  fr_pos : nat;
}.

(** [FrameReader(conn)]: no frame started yet. *)
Definition NewFrameReader (max : Z) : FrameReader := mkFrameReader max 0 None 0.

(** [frameReader.Read(b)] with [len(b) = n]: when the current frame is
    exhausted, decode the next header; then one read of at most the
    bytes left in the frame, unmasked at the current offset. *)
Definition frameRead (fr : FrameReader) (segs : list string) (n : nat)
  : result FrameError (list Z) * FrameReader * list string :=
  let next :=
    if decide (fr_left fr = 0%Z) then
      match decodeHeaderWith read_full (fr_max fr) segs with
      | (Err e, segs1) => (Err e, segs1)
      | (Ok h, segs1) => (Ok (mkFrameReader (fr_max fr) (hdr_len h) (hdr_key h) 0), segs1)
      end
    else (Ok fr, segs) in
  match next with
  | (Err e, segs1) => (Err e, fr, segs1)
  | (Ok fr1, segs1) =>
      match read_some (Nat.min n (Z.to_nat (fr_left fr1))) segs1 with
      | (None, segs2) => (Err ErrConnEOF, fr1, segs2)
      | (Some bs, segs2) =>
          let out := match fr_key fr1 with Some key => mask_from key (fr_pos fr1) bs | None => bs end in
          (Ok out, mkFrameReader (fr_max fr1) (fr_left fr1 - Z.of_nat (length bs)) (fr_key fr1)
                     (fr_pos fr1 + length bs), segs2)
      end
  end.

(** The state of a [frameWriter]: it holds no more than the connection
    it writes to. *)
Inductive FrameWriter : Type := frameWriter.

(** [frameWriter.Write(b)]: the encoded frame goes out as one write. *)
Definition frameWrite (key payload : list Z) (out : list string) : list string :=
  out ++ [string_of_bytes (encodeFrame key payload)].

End WsFrame.

(** ** Lemmas *)

Module WsFrameFacts.
Import WsFrame.

Lemma log2_byte a : byte_ok a -> (Z.log2 a < 8)%Z.
Proof.
  unfold byte_ok. intros H. destruct (Z.eq_dec a 0) as [->|]; [simpl; lia|].
  apply Z.log2_lt_pow2; lia.
Qed.

Lemma lxor_byte a b : byte_ok a -> byte_ok b -> byte_ok (Z.lxor a b).
Proof.
  intros Ha Hb. pose proof (log2_byte a Ha). pose proof (log2_byte b Hb).
  unfold byte_ok in *. split; [apply Z.lxor_nonneg; lia|].
  destruct (Z.eq_dec (Z.lxor a b) 0) as [->|Hne]; [lia|].
  pose proof (Z.log2_lxor a b ltac:(lia) ltac:(lia)).
  change 256%Z with (2 ^ 8)%Z. apply Z.log2_lt_pow2; [apply Z.le_neq; split; [apply Z.lxor_nonneg|]; lia|lia].
Qed.

Lemma lor_byte a b : byte_ok a -> byte_ok b -> byte_ok (Z.lor a b).
Proof.
  intros Ha Hb. pose proof (log2_byte a Ha). pose proof (log2_byte b Hb).
  unfold byte_ok in *. split; [apply Z.lor_nonneg; lia|].
  destruct (Z.eq_dec (Z.lor a b) 0) as [->|Hne]; [lia|].
  change 256%Z with (2 ^ 8)%Z. apply Z.log2_lt_pow2; [apply Z.le_neq; split; [apply Z.lor_nonneg|]; lia|].
  rewrite Z.log2_lor by lia. lia.
Qed.

Lemma be_value_snoc l b : be_value (l ++ [b]) = (be_value l * 256 + b)%Z.
Proof. unfold be_value. by rewrite fold_left_app. Qed.

Lemma length_be_bytes n x : length (be_bytes n x) = n.
Proof. revert x. induction n as [|n IH]; intros x; [done|]. simpl. rewrite length_app, IH. simpl. lia. Qed.

Lemma be_bytes_ok n x : bytes_ok (be_bytes n x).
Proof.
  revert x. induction n as [|n IH]; intros x; simpl; [constructor|].
  apply bytes_ok_app; [apply IH|]. constructor; [|constructor].
  unfold byte_ok. change 255%Z with (Z.ones 8). rewrite Z.land_ones by lia. apply Z.mod_pos_bound. lia.
Qed.

(** Big-endian decoding inverts encoding on the [8 n] low bits. *)
Lemma be_value_bytes n x : be_value (be_bytes n x) = (x mod 2 ^ (8 * Z.of_nat n))%Z.
Proof.
  revert x. induction n as [|n IH]; intros x; [simpl; by rewrite Z.mod_1_r|].
  cbn [be_bytes]. rewrite be_value_snoc, IH.
  change 255%Z with (Z.ones 8). rewrite Z.land_ones, Z.shiftr_div_pow2 by lia.
  replace (8 * Z.of_nat (S n))%Z with (8 + 8 * Z.of_nat n)%Z by lia.
  rewrite Z.pow_add_r, Z.rem_mul_r by lia. change (2 ^ 8)%Z with 256%Z. lia.
Qed.

Lemma be_value_bytes_small n x : (0 <= x < 2 ^ (8 * Z.of_nat n))%Z -> be_value (be_bytes n x) = x.
Proof. intros H. rewrite be_value_bytes. by apply Z.mod_small. Qed.

Lemma length_mask_from key pos p : length (mask_from key pos p) = length p.
Proof. revert pos. induction p; intros; simpl; auto. Qed.

(** Masking twice with the same key at the same position is the
    identity. *)
Lemma mask_from_involutive key pos p : mask_from key pos (mask_from key pos p) = p.
Proof.
  revert pos. induction p as [|b p IH]; intros pos; [done|]. simpl.
  by rewrite IH, Z.lxor_assoc, Z.lxor_nilpotent, Z.lxor_0_r.
Qed.

Lemma mask_from_ok key pos p : bytes_ok key -> bytes_ok p -> bytes_ok (mask_from key pos p).
Proof.
  intros Hk Hp. revert pos. induction Hp as [|b p Hb Hp IH]; intros pos; constructor; [|apply IH].
  apply lxor_byte; [done|]. destruct (nth_in_or_default (pos mod 4) key 0%Z) as [Hin | ->].
  - apply Forall_forall with (x := nth (pos mod 4) key 0%Z) in Hk; [done|]. by apply list_elem_of_In.
  - unfold byte_ok. lia.
Qed.

Lemma mask_from_app key pos p1 p2 :
  mask_from key pos (p1 ++ p2) = mask_from key pos p1 ++ mask_from key (pos + length p1) p2.
Proof.
  revert pos. induction p1 as [|b p1 IH]; intros pos; simpl; [by rewrite Nat.add_0_r|].
  rewrite IH. do 3 f_equal. lia.
Qed.

(** The length fields are consistent with the payload length (spec
    4.2): 7 bits below 126, the marker 126 and 16 bits up to 65535, the
    marker 127 and 64 bits beyond; the 7-bit field always fits. *)
Theorem length_fields_spec n :
  (0 <= n < 2 ^ 64)%Z ->
  let '(len7, ext) := length_fields n in
  (0 <= len7 < 128)%Z /\ bytes_ok ext /\
  ((n < 126 /\ len7 = n /\ ext = [])
   \/ (126 <= n < 65536 /\ len7 = 126 /\ length ext = 2%nat /\ be_value ext = n)
   \/ (65536 <= n /\ len7 = 127 /\ length ext = 8%nat /\ be_value ext = n))%Z.
Proof.
  intros Hn. unfold length_fields.
  destruct (Z.ltb_spec n 126); [split; [lia|split; [constructor|left; done]]|].
  destruct (Z.ltb_spec n 65536); (split; [lia|split; [apply be_bytes_ok|right]]).
  - left. rewrite length_be_bytes, be_value_bytes_small; [done|simpl; lia].
  - right. rewrite length_be_bytes, be_value_bytes_small; [done|simpl; lia].
Qed.

Lemma take_exact_app a b : take_exact (length a) (a ++ b) = (Some a, b).
Proof.
  unfold take_exact. rewrite decide_True by (rewrite length_app; lia).
  by rewrite take_app_length, drop_app_length.
Qed.

Lemma take_exact_app' n a b : n = length a -> take_exact n (a ++ b) = (Some a, b).
Proof. intros ->. apply take_exact_app. Qed.

Lemma mask_len7 len7 : (0 <= len7 < 128)%Z -> Z.land (Z.lor maskBit len7) 127 = len7.
Proof.
  intros H. unfold maskBit. rewrite Z.land_lor_distr_l. change (Z.land 128 127) with 0%Z.
  rewrite Z.lor_0_l. change 127%Z with (Z.ones 7). rewrite Z.land_ones by lia.
  apply Z.mod_small. change (2 ^ 7)%Z with 128%Z. lia.
Qed.

Lemma mask_bit_set len7 : Z.testbit (Z.lor maskBit len7) 7 = true.
Proof. by rewrite Z.lor_spec. Qed.

(** Decoding the header of an encoded frame gives back a final frame
    of the payload's length with its mask key, and leaves exactly the
    masked payload and what follows. *)
Theorem decodeHeader_encodeFrame max key p rest :
  length key = 4 -> (Z.of_nat (length p) < 2 ^ 64)%Z -> (Z.of_nat (length p) <= max)%Z ->
  decodeHeader max (encodeFrame key p ++ rest)
  = (Ok (mkFrameHeader true (Z.of_nat (length p)) (Some key)), mask key p ++ rest).
Proof.
  intros Hk Hlen Hmax. unfold encodeFrame.
  pose proof (length_fields_spec (Z.of_nat (length p)) ltac:(lia)) as Hf.
  destruct (length_fields _) as [len7 ext]. destruct Hf as (H7 & _ & Hcase).
  unfold decodeHeader, decodeHeaderWith. rewrite <- !app_assoc.
  rewrite (take_exact_app' 2 [Z.lor finalBit opBinary; Z.lor maskBit len7]) by done. cbv zeta.
  rewrite decide_False by (vm_compute; congruence).
  rewrite mask_len7, mask_bit_set by exact H7.
  destruct Hcase as [(Hn & -> & ->)|[(Hn & -> & Hl & Hv)|(Hn & -> & Hl & Hv)]];
    repeat (case_decide; [try lia|]); try lia.
  - rewrite (take_exact_app' 0 []) by done.
    repeat case_decide; try lia. rewrite take_exact_app' by done. reflexivity.
  - rewrite take_exact_app' by done.
    repeat case_decide; try lia. rewrite take_exact_app' by done. by rewrite Hv.
  - rewrite take_exact_app' by done.
    repeat case_decide; try lia. rewrite take_exact_app' by done. by rewrite Hv.
Qed.

(** Round trip (spec 8.7): decoding an encoded frame gives back the
    payload and leaves the bytes after the frame untouched, for every
    payload shorter than 2^64 bytes that the reader's maximum admits. *)
Theorem decodeFrame_encodeFrame max key p rest :
  length key = 4 -> (Z.of_nat (length p) < 2 ^ 64)%Z -> (Z.of_nat (length p) <= max)%Z ->
  decodeFrame max (encodeFrame key p ++ rest) = (Ok p, rest).
Proof.
  intros Hk Hlen Hmax. unfold decodeFrame.
  rewrite decodeHeader_encodeFrame by done. simpl. rewrite Nat2Z.id.
  rewrite <- (length_mask_from key 0 p), take_exact_app.
  unfold mask. by rewrite mask_from_involutive.
Qed.

(** The size of an encoded frame: two header bytes, the extended
    length (none below 126 bytes, 16 bits up to 65535, 64 bits beyond),
    the key and the payload. *)
Lemma length_encodeFrame key p :
  (Z.of_nat (length p) < 2 ^ 64)%Z ->
  Z.of_nat (length (encodeFrame key p)) =
  (2 + (if Z.of_nat (length p) <? 126 then 0 else if Z.of_nat (length p) <? 65536 then 2 else 8)
   + Z.of_nat (length key) + Z.of_nat (length p))%Z.
Proof.
  intros Hlen. unfold encodeFrame, mask.
  pose proof (length_fields_spec (Z.of_nat (length p)) ltac:(lia)) as Hf.
  destruct (length_fields _) as [len7 ext]. destruct Hf as (_ & _ & Hcase).
  rewrite !length_app, length_mask_from. cbn [length].
  destruct (Z.ltb_spec (Z.of_nat (length p)) 126), (Z.ltb_spec (Z.of_nat (length p)) 65536);
    destruct Hcase as [(? & _ & ->)|[(? & _ & -> & _)|(? & _ & -> & _)]]; cbn [length]; lia.
Qed.

(** Every byte of an encoded frame is a byte. *)
Lemma encodeFrame_ok key p :
  bytes_ok key -> bytes_ok p -> (Z.of_nat (length p) < 2 ^ 64)%Z -> bytes_ok (encodeFrame key p).
Proof.
  intros Hk Hp Hlen. unfold encodeFrame.
  pose proof (length_fields_spec (Z.of_nat (length p)) ltac:(lia)) as Hf.
  destruct (length_fields _) as [len7 ext]. destruct Hf as (H7 & Hext & _).
  repeat apply bytes_ok_app; try done.
  - constructor; [unfold byte_ok; vm_compute; split; congruence|].
    constructor; [apply lor_byte; unfold byte_ok, maskBit in *; lia|constructor].
  - by apply mask_from_ok.
Qed.

(** ** Witnesses *)

Definition witness_key : list Z := [1; 2; 3; 4]%Z.

(** Spec 8.7 at the payload lengths 0, 1, 125, 126, 65535 and 65536. *)
Lemma decodeFrame_encodeFrame_witness :
  decodeFrame (2 ^ 63 - 1) (encodeFrame witness_key [] ++ [9%Z]) = (Ok [], [9%Z])
  /\ decodeFrame (2 ^ 63 - 1) (encodeFrame witness_key (repeat 7%Z 1) ++ [9%Z]) = (Ok (repeat 7%Z 1), [9%Z])
  /\ decodeFrame (2 ^ 63 - 1) (encodeFrame witness_key (repeat 7%Z 125) ++ [9%Z]) = (Ok (repeat 7%Z 125), [9%Z])
  /\ decodeFrame (2 ^ 63 - 1) (encodeFrame witness_key (repeat 7%Z 126) ++ [9%Z]) = (Ok (repeat 7%Z 126), [9%Z])
  /\ decodeFrame (2 ^ 63 - 1) (encodeFrame witness_key (repeat 7%Z 65535) ++ [9%Z])
     = (Ok (repeat 7%Z 65535), [9%Z])
  /\ decodeFrame (2 ^ 63 - 1) (encodeFrame witness_key (repeat 7%Z 65536) ++ [9%Z])
     = (Ok (repeat 7%Z 65536), [9%Z]).
Proof.
  split; [|split; [|split; [|split; [|split]]]];
    (apply decodeFrame_encodeFrame;
     [reflexivity | apply Z.ltb_lt; vm_compute; reflexivity | apply Z.leb_le; vm_compute; reflexivity]).
Defined.

Lemma length_fields_spec_witness :
  let '(len7, ext) := length_fields 65535 in
  (0 <= len7 < 128)%Z /\ bytes_ok ext /\
  ((65535 < 126 /\ len7 = 65535 /\ ext = [])
   \/ (126 <= 65535 < 65536 /\ len7 = 126 /\ length ext = 2%nat /\ be_value ext = 65535)
   \/ (65536 <= 65535 /\ len7 = 127 /\ length ext = 8%nat /\ be_value ext = 65535))%Z.
Proof. apply (length_fields_spec 65535). lia. Defined.

End WsFrameFacts.

(** ** The frame reader over the connection

    [frameRead] reads through [read_full] and [read_some] on the
    connection's segments.  When a frame arrives as one segment, as
    [frameWrite] sends it, the header reads behave as [take_exact] on
    the frame's bytes, and the payload is streamed through the cursor
    [fr_pos] across as many reads as the caller makes. *)
Module FrameStream.
Import WsFrame WsFrameFacts.

Section Sim.
(** Two header decoders agree when their readers agree step by step. *)
Context {S1 S2 : Type} (t1 : nat -> S1 -> option (list Z) * S1) (t2 : nat -> S2 -> option (list Z) * S2).
Context (R : S1 -> S2 -> Prop).
Hypothesis Ht : forall n s1 s2, R s1 s2 -> (t1 n s1).1 = (t2 n s2).1 /\ R (t1 n s1).2 (t2 n s2).2.

Lemma decodeHeaderWith_sim max s1 s2 :
  R s1 s2 ->
  (decodeHeaderWith t1 max s1).1 = (decodeHeaderWith t2 max s2).1 /\
  R (decodeHeaderWith t1 max s1).2 (decodeHeaderWith t2 max s2).2.
Proof.
  intros H. unfold decodeHeaderWith.
  destruct (Ht 2 _ _ H) as [E1 R1]. destruct (t1 2 s1) as [o a1], (t2 2 s2) as [o' a2]; cbn [fst snd] in *; subst o'.
  destruct o as [[|b0 [|b1 [|]]]|]; cbn [fst snd]; auto. case_decide; cbn [fst snd]; auto.
  match goal with |- context [t1 ?k a1] => destruct (Ht k _ _ R1) as [E2 R2]; destruct (t1 k a1) as [o2 c1], (t2 k a2) as [o2' c2] end.
  cbn [fst snd] in *; subst o2'. destruct o2 as [ext|]; cbn [fst snd]; auto. case_decide; cbn [fst snd]; auto.
  destruct (Z.testbit b1 7); cbn [fst snd]; auto.
  destruct (Ht 4 _ _ R2) as [E3 R3]. destruct (t1 4 c1) as [o3 d1], (t2 4 c2) as [o3' d2]; cbn [fst snd] in *; subst o3'.
  destruct o3; cbn [fst snd]; auto.
Qed.
End Sim.

(** A connection holding the bytes [b] as one segment. *)
Definition one_segment (b : list Z) : list string := push_front b [].

Lemma seg_bytes_one_segment b : bytes_ok b -> seg_bytes (one_segment b) = b.
Proof.
  unfold one_segment, push_front, seg_bytes. destruct b as [|x b]; [done|]. intros Hb.
  cbn [map List.concat]. rewrite app_nil_r. by apply bytes_of_string_of_bytes.
Qed.

Lemma read_full_one n b :
  bytes_ok b ->
  read_full n (one_segment b) = ((take_exact n b).1, one_segment (take_exact n b).2).
Proof.
  unfold one_segment, take_exact. intros Hb. destruct b as [|x b'].
  - destruct n; cbn; [done|]. by case_decide; [lia|].
  - change (push_front (x :: b') []) with [string_of_bytes (x :: b')].
    destruct n as [|n]; cbn [read_full]; [by case_decide; [|lia]|].
    rewrite bytes_of_string_of_bytes by done.
    case_decide; cbn [fst snd]; [done|]. destruct (S n - length (x :: b')) eqn:E; [lia|]. done.
Qed.

Lemma read_some_one n b :
  bytes_ok b -> b <> [] -> read_some n (one_segment b) = (Some (take n b), one_segment (drop n b)).
Proof.
  unfold one_segment. intros Hb Hne. destruct b as [|x b']; [done|].
  destruct n as [|n]; [done|]. cbn [read_some push_front]. by rewrite bytes_of_string_of_bytes.
Qed.

(** Header decoding on a connection holding [b] as one segment is
    decoding [b]; what is left stays one segment. *)
Lemma decodeHeaderWith_one max b :
  bytes_ok b ->
  decodeHeaderWith read_full max (one_segment b) =
  ((decodeHeader max b).1, one_segment (decodeHeader max b).2).
Proof.
  intros Hb.
  destruct (decodeHeaderWith_sim take_exact read_full (fun b segs => bytes_ok b /\ segs = one_segment b)
              ltac:(intros n b' segs [Hb' ->]; rewrite read_full_one by done; split; [done|];
                    split; [|done]; unfold take_exact; case_decide; [by apply Forall_drop | constructor])
              max b (one_segment b) (conj Hb eq_refl)) as [E [_ Hs]].
  unfold decodeHeader. destruct (decodeHeaderWith read_full max _) as [r s]; cbn in *. by subst.
Qed.

(** The header of a frame that arrived as one segment is decoded as
    from its bytes, and the masked payload is left as one segment. *)
Lemma decodeHeader_one_segment max key p :
  length key = 4 -> bytes_ok key -> bytes_ok p ->
  (Z.of_nat (length p) < 2 ^ 64)%Z -> (Z.of_nat (length p) <= max)%Z ->
  decodeHeaderWith read_full max (one_segment (encodeFrame key p))
  = (Ok (mkFrameHeader true (Z.of_nat (length p)) (Some key)), one_segment (mask key p)).
Proof.
  intros Hk Hkok Hp Hlen Hmax. rewrite decodeHeaderWith_one by (by apply encodeFrame_ok).
  pose proof (decodeHeader_encodeFrame max key p [] Hk Hlen Hmax) as Hd.
  rewrite !app_nil_r in Hd. by rewrite Hd.
Qed.

(** ** Header errors (spec 4.2, 7) *)

Lemma decodeHeader_opcode max b0 b1 rest :
  Z.land b0 15 <> opBinary -> (decodeHeader max (b0 :: b1 :: rest)).1 = Err (ErrOpcode (Z.land b0 15)).
Proof.
  intros Hop. unfold decodeHeader, decodeHeaderWith, take_exact.
  rewrite decide_True by (cbn; lia). cbn. by rewrite decide_True.
Qed.

Lemma decodeHeader_too_large max b0 b1 rest :
  Z.land b0 15 = opBinary -> Z.land b1 127 = 127%Z -> 8 <= length rest ->
  (max < be_value (take 8 rest))%Z ->
  (decodeHeader max (b0 :: b1 :: rest)).1 = Err (ErrTooLarge (be_value (take 8 rest))).
Proof.
  intros Hop H7 Hlen Hmax. unfold decodeHeader, decodeHeaderWith, take_exact.
  rewrite decide_True by (cbn; lia). cbn [take drop]. rewrite decide_False by (rewrite Hop; tauto).
  rewrite H7, take_0, drop_0.
  destruct (decide (127%Z = 126%Z)); [discriminate|]. destruct (decide (127%Z = 127%Z)); [|done].
  rewrite decide_True by lia. cbv beta iota zeta.
  destruct (decide (8 = 0)); [discriminate|]. by rewrite decide_True by lia.
Qed.

Lemma decodeHeader_truncated_ext max b0 b1 rest :
  Z.land b0 15 = opBinary -> Z.land b1 127 = 127%Z -> length rest < 8 ->
  (decodeHeader max (b0 :: b1 :: rest)).1 = Err ErrTruncated.
Proof.
  intros Hop H7 Hlen. unfold decodeHeader, decodeHeaderWith, take_exact.
  rewrite decide_True by (cbn; lia). cbn [take drop]. rewrite decide_False by (rewrite Hop; tauto).
  rewrite H7, take_0, drop_0.
  destruct (decide (127%Z = 126%Z)); [discriminate|]. destruct (decide (127%Z = 127%Z)); [|done].
  by rewrite decide_False by lia.
Qed.


Lemma mask_from_take key pos m l : mask_from key pos (take m l) = take m (mask_from key pos l).
Proof.
  revert pos m; induction l as [|b l IH]; intros pos [|m]; cbn; rewrite ?take_nil; try done.
  by rewrite IH.
Qed.

Lemma drop_mask_from key pos m l : drop m (mask_from key pos l) = mask_from key (pos + m) (drop m l).
Proof.
  revert pos m; induction l as [|b l IH]; intros pos [|m]; cbn; rewrite ?drop_nil, ?Nat.add_0_r; try done.
  rewrite IH. f_equal. lia.
Qed.
(** The reader [pos] bytes into the payload [p] of a frame masked with
    [key], and what is left of the frame in the connection. *)
Definition reader_at (max : Z) (key p : list Z) (pos : nat) : FrameReader :=
  mkFrameReader max (Z.of_nat (length p) - Z.of_nat pos) (Some key) pos.

Definition stream_at (key p : list Z) (pos : nat) : list string := one_segment (drop pos (mask key p)).

Lemma take_min_drop n k (l : list Z) : k = length l -> take (Nat.min n k) l = take n l.
Proof.
  intros ->. destruct (Nat.le_ge_cases n (length l)).
  - by rewrite Nat.min_l.
  - rewrite Nat.min_r, take_ge, (take_ge l n) by lia; done.
Qed.

(** A read in the middle of a frame returns the next bytes of the
    payload, unmasked, and advances the cursor by as many. *)
Lemma frameRead_at max key p pos n :
  bytes_ok key -> bytes_ok p -> pos < length p ->
  let m := Nat.min n (length p - pos) in
  frameRead (reader_at max key p pos) (stream_at key p pos) n =
  (Ok (take n (drop pos p)), reader_at max key p (pos + m), stream_at key p (pos + m)).
Proof.
  intros Hk Hp Hpos m. unfold frameRead, reader_at, stream_at; cbn [fr_left fr_max fr_key fr_pos].
  rewrite decide_False by lia. cbn [fr_left fr_max fr_key fr_pos].
  replace (Z.to_nat (Z.of_nat (length p) - Z.of_nat pos)) with (length p - pos) by lia. fold m.
  assert (Hmp : bytes_ok (drop pos (mask key p))) by (apply Forall_drop, mask_from_ok; done).
  rewrite read_some_one; [|done|].
  2: { intros Hn%(f_equal length). unfold mask in Hn. rewrite length_drop, length_mask_from in Hn; cbn in Hn; lia. }
  unfold mask. rewrite mask_from_take, !drop_mask_from, !Nat.add_0_l, mask_from_involutive, drop_drop.
  unfold m at 1. rewrite take_min_drop by (rewrite length_drop; lia).
  rewrite length_take, length_mask_from, length_drop.
  replace (Nat.min m (length p - pos)) with m by (unfold m; lia).
  by rewrite Nat2Z.inj_add, Z.sub_add_distr.
Qed.

(** A new reader on a frame that arrived as one segment decodes its
    header and then reads like a reader at the start of the payload. *)
Lemma frameRead_new max key p n :
  length key = 4 -> bytes_ok key -> bytes_ok p ->
  (Z.of_nat (length p) < 2 ^ 64)%Z -> (Z.of_nat (length p) <= max)%Z -> p <> [] ->
  frameRead (NewFrameReader max) (one_segment (encodeFrame key p)) n =
  frameRead (reader_at max key p 0) (stream_at key p 0) n.
Proof.
  intros Hk Hkok Hp Hlen Hmax Hne. unfold frameRead at 1; cbn [fr_left NewFrameReader].
  rewrite decide_True by done. rewrite decodeHeader_one_segment by done. cbn [hdr_len hdr_key fr_max NewFrameReader].
  unfold frameRead, reader_at, stream_at; cbn [fr_left fr_max fr_key fr_pos].
  rewrite decide_False by (destruct p; [done|]; cbn [length]; lia).
  rewrite Z.sub_0_r. done.
Qed.

End FrameStream.
