(* ===== verification/FrameProgress.v ===== *)
(** * Progress of the frame reader

    Every read of the frame reader takes a prefix of the bytes pending
    on the connection: [read_full] and [read_some] consume what they
    return (and everything when the connection ends), a header that
    decodes has taken at least its two fixed bytes, and its length is
    not negative.  So, as long as the bytes left in the current frame
    are not negative (an invariant of [frameRead]), a [frameRead] with a
    buffer of at least one byte that succeeds strictly shortens what is
    pending.  This is the measure that makes every read loop over a
    finite stream end. *)

From S2P Require Import Prelude.
From S2P Require Import WsFrame.

Module FrameProgress.
Import WsFrame WsFrameFacts.

(** The bytes pending on a connection. *)
Definition pending (segs : list string) : nat := length (seg_bytes segs).

Lemma seg_bytes_cons seg segs : seg_bytes (seg :: segs) = bytes_of_string seg ++ seg_bytes segs.
Proof. done. Qed.

Lemma seg_bytes_ok segs : bytes_ok (seg_bytes segs).
Proof.
  induction segs as [|seg segs IH]; [constructor|].
  rewrite seg_bytes_cons. by apply bytes_ok_app; [apply bytes_of_string_ok|].
Qed.

Lemma seg_bytes_push_front b segs : bytes_ok b -> seg_bytes (push_front b segs) = b ++ seg_bytes segs.
Proof.
  destruct b as [|x b]; [done|]. intros Hb. unfold push_front.
  rewrite seg_bytes_cons. by rewrite bytes_of_string_of_bytes.
Qed.

(** A read of the connection returns [o] and leaves [rest]: the bytes
    it consumed are a prefix [pre] of the pending ones, and when it
    returns bytes they are that prefix. *)
Definition consumes (segs : list string) (o : option (list Z)) (rest : list string) : Prop :=
  exists pre, seg_bytes segs = pre ++ seg_bytes rest /\ forall bs, o = Some bs -> pre = bs.

Lemma consumes_all segs : consumes segs None [].
Proof. exists (seg_bytes segs). by rewrite app_nil_r. Qed.

Lemma read_full_consumes n segs :
  consumes segs (read_full n segs).1 (read_full n segs).2 /\
  forall bs, (read_full n segs).1 = Some bs -> length bs = n.
Proof.
  revert n; induction segs as [|seg segs IH]; intros [|n]; cbn [read_full fst snd].
  1,3: split; [exists []; split; [done | by intros ? [= <-]] | by intros ? [= <-]].
  - split; [apply consumes_all | done].
  - set (b := bytes_of_string seg). case_decide as Hle.
    + split; [|intros bs [= <-]; rewrite length_take; lia].
      exists (take (S n) b). cbn [fst snd]. rewrite seg_bytes_push_front by (apply Forall_drop, bytes_of_string_ok).
      rewrite seg_bytes_cons, app_assoc, take_drop. split; [done | by intros ? [= <-]].
    + destruct (IH (S n - length b)) as [(pre & Hs & Hpre) Hlen].
      destruct (read_full (S n - length b) segs) as [[bs|] rest]; cbn [fst snd] in *.
      * split; [|intros ? [= <-]; rewrite length_app, (Hlen bs eq_refl); lia].
        exists (b ++ bs). rewrite seg_bytes_cons, Hs, (Hpre bs eq_refl), app_assoc.
        split; [done | by intros ? [= <-]].
      * split; [|done]. exists (b ++ pre). rewrite seg_bytes_cons, Hs, app_assoc. by split.
Qed.

Lemma read_some_consumes n segs :
  consumes segs (read_some n segs).1 (read_some n segs).2 /\
  forall bs, (read_some n segs).1 = Some bs -> length bs <= n /\ (1 <= n -> bs <> []).
Proof.
  revert n; induction segs as [|seg segs IH]; intros [|n]; cbn [read_some fst snd].
  1,3: split; [exists []; split; [done | by intros ? [= <-]] | intros ? [= <-]; cbn; lia].
  - split; [apply consumes_all | done].
  - destruct (bytes_of_string seg) as [|x b] eqn:E.
    + destruct (IH (S n)) as [(pre & Hs & Hpre) Hl]. split; [|done].
      exists pre. rewrite seg_bytes_cons, E. by split.
    + split.
      * exists (take (S n) (x :: b)). cbn [fst snd]. rewrite seg_bytes_cons, E, seg_bytes_push_front
          by (apply Forall_drop; rewrite <- E; apply bytes_of_string_ok).
        rewrite app_assoc, take_drop. split; [done | by intros ? [= <-]].
      * intros bs [= <-]. cbn [length]. rewrite length_take. split; [lia | done].
Qed.

Lemma consumes_none segs o rest : consumes segs o rest -> consumes segs None rest.
Proof. intros (pre & Hs & _). by exists pre. Qed.

Lemma consumes_pending segs o rest : consumes segs o rest -> pending rest <= pending segs.
Proof. intros (pre & Hs & _). unfold pending. rewrite Hs, length_app. lia. Qed.

Lemma consumes_trans s1 o1 s2 o2 s3 :
  consumes s1 o1 s2 -> consumes s2 o2 s3 -> consumes s1 None s3.
Proof.
  intros (p1 & H1 & _) (p2 & H2 & _). exists (p1 ++ p2).
  rewrite H1, H2, app_assoc. by split.
Qed.

Lemma be_value_nonneg l : Forall (fun b => (0 <= b)%Z) l -> (0 <= be_value l)%Z.
Proof.
  unfold be_value. assert (H : forall acc, (0 <= acc)%Z -> Forall (fun b => (0 <= b)%Z) l ->
    (0 <= fold_left (fun acc b => acc * 256 + b)%Z l acc)%Z).
  { induction l as [|b l IH]; intros acc Hacc Hl; cbn; [done|].
    inversion Hl; subst. apply IH; [lia | done]. }
  intros Hl. by apply H.
Qed.

(** A header that decodes has taken at least its two fixed bytes, and
    its length is not negative; whatever the outcome, the decoder
    consumed a prefix of the pending bytes. *)
Lemma decodeHeader_consumes max segs :
  consumes segs None (decodeHeaderWith read_full max segs).2 /\
  forall h, (decodeHeaderWith read_full max segs).1 = Ok h ->
    pending (decodeHeaderWith read_full max segs).2 + 2 <= pending segs /\ (0 <= hdr_len h)%Z.
Proof.
  unfold decodeHeaderWith.
  destruct (read_full_consumes 2 segs) as [C1 L1].
  destruct (read_full 2 segs) as [o1 s1]; cbn [fst snd] in *.
  destruct o1 as [[|b0 [|b1 [|]]]|]; cbn [fst snd];
    try (split; [by eapply consumes_none | done]).
  pose proof (consumes_none _ _ _ C1) as C1'.
  destruct C1 as (pre & Hs & Hpre). specialize (Hpre _ eq_refl); subst pre.
  assert (Hb : Forall (fun b => (0 <= b)%Z) (seg_bytes s1)).
  { pose proof (seg_bytes_ok segs) as Hok. rewrite Hs in Hok. apply Forall_app in Hok as [_ Hok].
    eapply Forall_impl; [exact Hok|]. intros x Hx; unfold byte_ok in Hx; lia. }
  assert (Cs : forall s2 o2, consumes s1 o2 s2 -> consumes segs None s2 /\ pending s2 + 2 <= pending segs).
  { intros s2 o2 (p2 & H2 & _). split; [exists ([b0; b1] ++ p2); rewrite Hs, H2, app_assoc; by split|].
    unfold pending. rewrite Hs, H2, !length_app. cbn. lia. }
  case_decide; cbn [fst snd]; [split; [done | done]|].
  set (k := if decide (Z.land b1 127 = 126%Z) then 2 else if decide (Z.land b1 127 = 127%Z) then 8 else 0).
  destruct (read_full_consumes k s1) as [C2 _].
  destruct (read_full k s1) as [[ext|] s2] eqn:E2; cbn [fst snd] in *;
    [|split; [apply (Cs _ _ C2) | done]].
  set (len := if decide (k = 0%nat) then Z.land b1 127 else be_value ext).
  assert (Hext : (0 <= len)%Z).
  { unfold len. case_decide; [apply Z.land_nonneg; lia|]. apply be_value_nonneg.
    destruct C2 as (p2 & H2 & Hp2). rewrite <- (Hp2 ext eq_refl). rewrite H2 in Hb.
    by apply Forall_app in Hb as [? _]. }
  case_decide; cbn [fst snd]; [split; [apply (Cs _ _ C2) | done]|].
  destruct (Z.testbit b1 7).
  - destruct (read_full_consumes 4 s2) as [C3 _].
    destruct (read_full 4 s2) as [[key|] s3]; cbn [fst snd] in *.
    + destruct (Cs s3 None (consumes_trans _ _ _ _ _ C2 C3)) as [Cc Hp].
      split; [done|]. intros h [= <-]. cbn. split; [done | lia].
    + split; [apply (Cs s3 None (consumes_trans _ _ _ _ _ C2 C3)) | done].
  - destruct (Cs s2 _ C2) as [Cc Hp]. split; [done|]. intros h [= <-]. cbn. split; [done | lia].
Qed.

(** The invariant of a frame reader: the bytes left in its frame are
    not negative. *)
Definition left_ok (fr : FrameReader) : Prop := (0 <= fr_left fr)%Z.

(** The payload read of [frameRead]: at most the bytes left, at least
    one when the buffer and the frame both have room. *)
Lemma payload_read_progress n left segs bs segs' :
  (0 <= left)%Z -> read_some (Nat.min n (Z.to_nat left)) segs = (Some bs, segs') ->
  (0 <= left - Z.of_nat (length bs))%Z /\ pending segs' <= pending segs /\
  (1 <= n -> left <> 0%Z -> pending segs' < pending segs).
Proof.
  intros Hl E. destruct (read_some_consumes (Nat.min n (Z.to_nat left)) segs) as [C L].
  rewrite E in C, L; cbn [fst snd] in *. destruct (L bs eq_refl) as [Hlen Hne].
  destruct C as (pre & Hs & Hpre). rewrite (Hpre bs eq_refl) in Hs.
  unfold pending. rewrite Hs, length_app. split; [lia|]. split; [lia|].
  intros Hn Hz. destruct bs; [|cbn; lia]. exfalso. apply Hne; [lia | done].
Qed.

(** Every [frameRead] keeps the invariant and consumes a prefix of
    the pending bytes; with a buffer of at least one byte, one that
    succeeds consumes at least one byte. *)
Lemma frameRead_progress fr segs n r fr' segs' :
  left_ok fr -> frameRead fr segs n = (r, fr', segs') ->
  left_ok fr' /\ pending segs' <= pending segs /\ (1 <= n -> is_ok r = true -> pending segs' < pending segs).
Proof.
  unfold left_ok, frameRead. intros Hl. case_decide as Hz.
  - destruct (decodeHeader_consumes (fr_max fr) segs) as [Cd Hd].
    destruct (decodeHeaderWith read_full (fr_max fr) segs) as [[h|e] segs1]; cbn [fst snd] in *.
    + destruct (Hd h eq_refl) as [Hp Hh]. apply consumes_pending in Cd. cbn [fr_left fr_key fr_pos fr_max].
      destruct (read_some (Nat.min n (Z.to_nat (hdr_len h))) segs1) as [[bs|] segs2] eqn:E.
      * destruct (payload_read_progress _ _ _ _ _ Hh E) as (H1 & H2 & _).
        intros [= <- <- <-]. cbn. split; [lia|]. split; [lia | intros _ _; lia].
      * destruct (read_some_consumes (Nat.min n (Z.to_nat (hdr_len h))) segs1) as [C _].
        rewrite E in C; cbn [fst snd] in C. apply consumes_pending in C. intros [= <- <- <-]. cbn. split; [done | split; [lia | done]].
    + apply consumes_pending in Cd. intros [= <- <- <-]. split; [done | split; [lia | done]].
  - destruct (read_some (Nat.min n (Z.to_nat (fr_left fr))) segs) as [[bs|] segs2] eqn:E.
    + destruct (payload_read_progress _ _ _ _ _ Hl E) as (H1 & H2 & H3).
      intros [= <- <- <-]. cbn. split; [lia|]. split; [lia|]. intros Hn _. by apply H3.
    + destruct (read_some_consumes (Nat.min n (Z.to_nat (fr_left fr))) segs) as [C _].
      rewrite E in C; cbn [fst snd] in C. apply consumes_pending in C. intros [= <- <- <-]. split; [done | split; [lia | done]].
Qed.

End FrameProgress.
