(* ===== verification/WsClient.v ===== *)
(** * The WebSocket client: [src/proxy/ws/client.go]

    Every function of client.go, in the state-passing form of the Go
    code: a [Conn] carries its [net.Conn] (the segments not yet read and
    the writes made) and its lazily created frame reader and writer.
    - [NewClient] (l. 27-30), [NewConn] (l. 33-37): the handshake runs
      and its error is dropped;
    - [Handshake] (l. 55-82): the nine request writes
      ([handshakeRequest]), a [bufio.Reader] over the connection,
      [parseFirstLine] of the status line, the "101" check,
      [ReadMIMEHeader], and the unchecked [Sec-WebSocket-Accept];
    - [Write] (l. 83-89) and [Read] (l. 90-96): create the frame writer
      or reader on first use, then delegate to it;
    - [parseFirstLine] (l. 100-115): [ReadLine], then [parse_fields]
      (l. 108-114): [strings.Index] and three slices; [None] stands
      for a run-time panic.

    The [bufio.Reader] of [Handshake] is local to it: the connection
    keeps only the segments the reader did not pull ([rsrc]); whatever
    the reader had buffered beyond the header block is lost. *)

From S2P Require Import Prelude GoText TextProto MimeHeader WsFrame FrameProgress.
Import GoStrings BufIO MimeHeader WsFrame.

Module WsClient.

(** [type Client struct { path string }]. *)
Record Client : Type := mkClient { path : string }.

(** A [net.Conn]: the segments the peer has sent that are not read yet,
    and the writes made on it, in order. *)
Record NetConn : Type := mkNetConn {
  inbox : list string;
  outbox : list string;
}.

(** [type Conn struct { net.Conn; reader io.Reader; writer io.Writer }];
    a nil reader or writer is [None]. *)
Record Conn : Type := mkConn {
  netConn : NetConn;
  reader : option FrameReader;
  writer : option FrameWriter;
}.

Inductive WsError : Type :=
| ErrHandshake
| ErrMIME (e : ReadErr)
| ErrFrame (e : FrameError).

(** The read limit of [FrameReader(conn)]: RFC 6455 keeps the most
    significant bit of the 64-bit length clear. *)
Definition maxFrameLen : Z := (2 ^ 63 - 1)%Z.

(** [NewClient]: [&Client{}], no error. *)
Definition NewClient : result WsError Client := Ok (mkClient EmptyString).

(** [c.Conn.Write(b)]; the returned error is ignored by every caller in
    client.go, and writes do not fail in the model. *)
Definition connWrite (c : NetConn) (b : string) : NetConn :=
  mkNetConn (inbox c) (outbox c ++ [b]).

Definition CRLF : string := String cr (String nl EmptyString).

(** The nine writes of [Handshake], lines 56-64. *)
Definition handshakeRequest : list string :=
  [ "GET / HTTP/1.1" +:+ CRLF;
    "Host: echo.websocket.org" +:+ CRLF;
    "Upgrade: websocket" +:+ CRLF;
    "Connection: Upgrade" +:+ CRLF;
    "Origin: http://127.0.0.1" +:+ CRLF;
    "Sec-WebSocket-Key: dGhlIHNhbXBsZSBub25jZQ==" +:+ CRLF;
    "Sec-WebSocket-Protocol: binary" +:+ CRLF;
    "Sec-WebSocket-Version: 13" +:+ CRLF;
    CRLF ]%string.

Definition writeRequest (c : NetConn) : NetConn := fold_left connWrite handshakeRequest c.

Definition space : string := " "%string.

(** A status line [v SP code SP reason], as the theorems state it. *)
Definition status_line (v code reason : string) : string :=
  v +:+ String " " (code +:+ String " " reason).

(** Lines 108-114 of [parseFirstLine]: the three space-separated parts
    of the line.  [line[s1+1:]] is evaluated before the [s1 < 0] test,
    as in the Go code; a slice out of range would panic ([None]). *)
Definition parse_fields (line : string) : option (string * string * string * bool) :=
  let s1 := Index line space in
  match slice_from line (s1 + 1) with
  | None => None
  | Some rest =>
      let s2 := Index rest space in
      if decide (s1 < 0 \/ s2 < 0)%Z then Some (EmptyString, EmptyString, EmptyString, false)
      else
        let s2 := (s2 + (s1 + 1))%Z in
        match slice_to line s1, slice line (s1 + 1) s2, slice_from line (s2 + 1) with
        | Some r1, Some r2, Some r3 => Some (r1, r2, r3, true)
        | _, _, _ => None
        end
  end.

(** [parseFirstLine(tp)]: read the first line (l. 101-106; a read
    error returns the zero values), then split it. *)
Definition parseFirstLine (tp : BufReader) : option ((string * string * string * bool) * BufReader) :=
  match ReadLine tp with
  | (Err _, tp1) => Some ((EmptyString, EmptyString, EmptyString, false), tp1)
  | (Ok line, tp1) =>
      match parse_fields line with
      | None => None
      | Some r => Some (r, tp1)
      end
  end.

(** [Conn.Handshake]: the connection afterwards and the error
    returned ([None] for nil); the outer [None] is a panic. *)
Definition Handshake (c : Conn) : option (Conn * option WsError) :=
  let nc := writeRequest (netConn c) in
  let tpr := NewReader (inbox nc) in
  let after (r : BufReader) := mkConn (mkNetConn (rsrc r) (outbox nc)) (reader c) (writer c) in
  match parseFirstLine tpr with
  | None => None
  | Some ((_, code, _, ok), tpr1) =>
      if negb ok || negb (String.eqb code "101") then Some (after tpr1, Some ErrHandshake)
      else
        match ReadMIMEHeader tpr1 with
        | (Err e, tpr2) => Some (after tpr2, Some (ErrMIME e))
        | (Ok respHeader, tpr2) =>
            let _accept := Get respHeader "Sec-WebSocket-Accept" in
            Some (after tpr2, None)
        end
  end.

(** [Client.NewConn(rc, target)]: [conn.Handshake()] with its error
    dropped, then [conn, nil]. *)
Definition NewConn (cl : Client) (rc : NetConn) (target : string) : option (result WsError Conn) :=
  match Handshake (mkConn rc None None) with
  | None => None
  | Some (conn, _) => Some (Ok conn)
  end.

(** [Conn.Write(b)]: [FrameWriter(c.Conn)] on first use, then one
    frame masked with [key]. *)
Definition Write (key : list Z) (c : Conn) (b : list Z) : Conn * result WsError nat :=
  let w := match writer c with Some w => w | None => frameWriter end in
  let nc := mkNetConn (inbox (netConn c)) (frameWrite key b (outbox (netConn c))) in
  (mkConn nc (reader c) (Some w), Ok (length b)).

(** [Conn.Read(b)] with [len(b) = n]: [FrameReader(c.Conn)] on first
    use, then one read of it. *)
Definition Read (c : Conn) (n : nat) : Conn * result WsError (list Z) :=
  let fr := match reader c with Some fr => fr | None => NewFrameReader maxFrameLen end in
  match frameRead fr (inbox (netConn c)) n with
  | (Err e, fr1, segs) => (mkConn (mkNetConn segs (outbox (netConn c))) (Some fr1) (writer c), Err (ErrFrame e))
  | (Ok bs, fr1, segs) => (mkConn (mkNetConn segs (outbox (netConn c))) (Some fr1) (writer c), Ok bs)
  end.

End WsClient.

(** ** Properties of client.go *)

Module WsClientProps.
Import GoStringsFacts BufIOFacts WsClient MimeHeader.

Lemma fold_connWrite l nc :
  fold_left connWrite l nc = mkNetConn (inbox nc) (outbox nc ++ l).
Proof.
  revert nc. induction l as [|b l IH]; intros nc; simpl.
  - rewrite app_nil_r. by destruct nc.
  - rewrite IH. simpl. by rewrite <- app_assoc.
Qed.

Lemma writeRequest_eq nc : writeRequest nc = mkNetConn (inbox nc) (outbox nc ++ handshakeRequest).
Proof. apply fold_connWrite. Qed.

(** ** A reference for [parseFirstLine] *)

(** The part of [s] before its first space, and the part after it. *)
Fixpoint split_space (s : string) : option (string * string) :=
  match s with
  | EmptyString => None
  | String c s' =>
      if decide (c = " "%char) then Some (EmptyString, s')
      else (fun '(a, b) => (String c a, b)) <$> split_space s'
  end.

(** The three parts of a line: up to the first space, up to the next
    one, and the rest; a line with fewer than two spaces is rejected. *)
Definition first_line_fields (line : string) : string * string * string * bool :=
  match split_space line with
  | Some (r1, rest) =>
      match split_space rest with
      | Some (r2, r3) => (r1, r2, r3, true)
      | None => (EmptyString, EmptyString, EmptyString, false)
      end
  | None => (EmptyString, EmptyString, EmptyString, false)
  end.

Lemma split_space_app a b : has_char " "%char a = false -> split_space (a +:+ String " " b) = Some (a, b).
Proof.
  induction a as [|c a IH]; intros H; rewrite ?string_app_nil_l, ?string_app_cons; cbn [split_space].
  - by rewrite decide_True.
  - cbn [has_char] in H. destruct (decide (c = " "%char)); [done|]. by rewrite IH.
Qed.

Lemma split_space_some s a b :
  split_space s = Some (a, b) -> s = a +:+ String " " b /\ has_char " "%char a = false.
Proof.
  revert a b; induction s as [|c s IH]; intros a b; cbn [split_space]; [done|].
  destruct (decide (c = " "%char)) as [->|Hc]; [by intros [= <- <-]|].
  destruct (split_space s) as [[a' b']|] eqn:E; [|done]. intros [= <- <-].
  destruct (IH a' b' eq_refl) as [-> Ha]. rewrite string_app_cons. split; [done|].
  cbn [has_char]. by rewrite decide_False.
Qed.

Lemma split_space_none s : split_space s = None -> has_char " "%char s = false.
Proof.
  induction s as [|c s IH]; cbn [split_space has_char]; [done|].
  case_decide; [done|]. destruct (split_space s) as [[]|]; [done|]. auto.
Qed.

Lemma split_space_nospace s : has_char " "%char s = false -> split_space s = None.
Proof.
  induction s as [|c s IH]; cbn [split_space has_char]; [done|].
  case_decide; [done|]. intros Hs. by rewrite IH.
Qed.

Lemma slice_from_0 s : slice_from s 0 = Some s.
Proof. apply (slice_from_app EmptyString s). Qed.

(** A line with two spaces: the three slices are the parts. *)
Lemma parse_fields_two a b c :
  has_char " "%char a = false -> has_char " "%char b = false ->
  parse_fields (a +:+ String " " (b +:+ String " " c)) = Some (a, b, c, true).
Proof.
  intros Ha Hb. unfold parse_fields, space.
  set (line := a +:+ String " " (b +:+ String " " c)).
  assert (Hla : String.length (a +:+ " ") = S (String.length a)) by (rewrite string_length_app; simpl; lia).
  assert (Hlb : String.length (b +:+ " ") = S (String.length b)) by (rewrite string_length_app; simpl; lia).
  assert (Er : slice_from line (Z.of_nat (String.length a) + 1) = Some (b +:+ String " " c)).
  { replace line with ((a +:+ " ") +:+ (b +:+ String " " c)) by (by rewrite <- string_app_assoc).
    replace (Z.of_nat (String.length a) + 1)%Z with (Z.of_nat (String.length (a +:+ " "))) by lia.
    apply slice_from_app. }
  assert (E2 : slice line (Z.of_nat (String.length a) + 1)
                 (Z.of_nat (String.length b) + (Z.of_nat (String.length a) + 1)) = Some b).
  { replace line with ((a +:+ " ") +:+ (b +:+ String " " c)) by (by rewrite <- string_app_assoc).
    replace (Z.of_nat (String.length a) + 1)%Z with (Z.of_nat (String.length (a +:+ " "))) by lia.
    replace (Z.of_nat (String.length b) + Z.of_nat (String.length (a +:+ " ")))%Z
      with (Z.of_nat (String.length (a +:+ " ") + String.length b)) by lia.
    apply slice_mid. }
  assert (E3 : slice_from line (Z.of_nat (String.length b) + (Z.of_nat (String.length a) + 1) + 1) = Some c).
  { replace line with (((a +:+ " ") +:+ (b +:+ " ")) +:+ c)
      by (unfold line; rewrite <- !string_app_assoc; reflexivity).
    replace (Z.of_nat (String.length b) + (Z.of_nat (String.length a) + 1) + 1)%Z
      with (Z.of_nat (String.length ((a +:+ " ") +:+ (b +:+ " ")))) by (rewrite string_length_app; lia).
    apply slice_from_app. }
  assert (I1 : Index line (String " " EmptyString) = Z.of_nat (String.length a))
    by (apply Index_char_app; done).
  rewrite I1, Er, Index_char_app by done.
  assert (E1 : slice_to line (Z.of_nat (String.length a)) = Some a) by apply slice_to_app.
  rewrite decide_False by lia. by rewrite E1, E2, E3.
Qed.

(** [strings.Index] and the slices of lines 108-114 compute the
    reference split, and never panic. *)
Lemma parse_fields_ref line : parse_fields line = Some (first_line_fields line).
Proof.
  unfold first_line_fields. destruct (split_space line) as [[a rest]|] eqn:E1.
  - apply split_space_some in E1 as [-> Ha].
    destruct (split_space rest) as [[b c]|] eqn:E2.
    + apply split_space_some in E2 as [-> Hb]. by apply parse_fields_two.
    + apply split_space_none in E2. unfold parse_fields, space.
      rewrite (Index_char_app _ a) by done.
      replace (a +:+ String " " rest) with ((a +:+ " ") +:+ rest) by (by rewrite <- string_app_assoc).
      replace (Z.of_nat (String.length a) + 1)%Z with (Z.of_nat (String.length (a +:+ " ")))
        by (rewrite string_length_app; simpl; lia).
      rewrite slice_from_app, Index_char_none by done. by rewrite decide_True by lia.
  - apply split_space_none in E1. unfold parse_fields, space.
    rewrite Index_char_none by done. cbn [Z.add]. rewrite slice_from_0.
    by rewrite decide_True by lia.
Qed.

(** C27: [parseFirstLine] is the reference split of the first line: up to
    the first space, up to the next one, and the rest, [ok] exactly
    when the line has two spaces; a read error gives the zero values.
    [strings.Index] and the slice arithmetic of lines 108-114 compute
    it on every line, and consume exactly the line. *)
Theorem parseFirstLine_ref tp :
  parseFirstLine tp =
  Some (match (ReadLine tp).1 with
        | Ok line => first_line_fields line
        | Err _ => (EmptyString, EmptyString, EmptyString, false)
        end, (ReadLine tp).2).
Proof.
  unfold parseFirstLine. destruct (ReadLine tp) as [[line|e] tp1]; [|done].
  by rewrite parse_fields_ref.
Qed.

Lemma first_line_split tp a b c t :
  has_char " "%char a = false -> has_char " "%char b = false ->
  has_char nl (a +:+ String " " (b +:+ String " " c)) = false ->
  contents tp = (a +:+ String " " (b +:+ String " " c)) +:+ crlf t ->
  exists tp1, parseFirstLine tp = Some ((a, b, c, true), tp1) /\ contents tp1 = t /\
    from_buffer tp ((a +:+ String " " (b +:+ String " " c)) +:+ crlf EmptyString) tp1.
Proof.
  intros Ha Hb Hnl Hc.
  destruct (ReadLine_crlf tp _ t Hnl Hc) as (tp1 & E & C & B).
  exists tp1. split; [|done]. unfold parseFirstLine. rewrite E. by rewrite parse_fields_two.
Qed.

(** C28: A status line [a SP b SP c], with no space in [a] or [b], is split
    into its three parts. *)
Theorem parseFirstLine_split tp a b c t :
  has_char " "%char a = false -> has_char " "%char b = false ->
  has_char nl (a +:+ String " " (b +:+ String " " c)) = false ->
  contents tp = (a +:+ String " " (b +:+ String " " c)) +:+ crlf t ->
  exists tp1, parseFirstLine tp = Some ((a, b, c, true), tp1) /\ contents tp1 = t.
Proof.
  intros Ha Hb Hnl Hc. destruct (first_line_split tp a b c t Ha Hb Hnl Hc) as (tp1 & E & C & _). eauto.
Qed.

(** A line with a single space: [parseFirstLine] reports failure with
    the zero values, after consuming the line. *)
Lemma first_line_one_space tp a b t :
  has_char " "%char a = false -> has_char " "%char b = false ->
  has_char nl (a +:+ String " " b) = false ->
  contents tp = (a +:+ String " " b) +:+ crlf t ->
  exists tp1, parseFirstLine tp = Some ((EmptyString, EmptyString, EmptyString, false), tp1) /\ contents tp1 = t.
Proof.
  intros Ha Hb Hnl Hc.
  destruct (ReadLine_crlf tp _ t Hnl Hc) as (tp1 & E & C & _).
  exists tp1. split; [|done]. unfold parseFirstLine. rewrite E, parse_fields_ref.
  unfold first_line_fields. by rewrite split_space_app, split_space_nospace.
Qed.

Lemma contents_NewReader segs : contents (NewReader segs) = concat_segs segs.
Proof. reflexivity. Qed.

(** The connection after [Handshake] when the status line has been
    parsed: the request written, reader and writer untouched, the
    segments the bufio reader did not pull. *)
Definition after_handshake (c : Conn) (r : BufReader) : Conn :=
  mkConn (mkNetConn (rsrc r) (outbox (netConn c) ++ handshakeRequest)) (reader c) (writer c).

Lemma handshake_non101 c v code reason t :
  has_char " "%char v = false -> has_char " "%char code = false ->
  has_char nl (status_line v code reason) = false -> String.eqb code "101" = false ->
  concat_segs (inbox (netConn c)) = status_line v code reason +:+ crlf t ->
  exists r, Handshake c = Some (after_handshake c r, Some ErrHandshake) /\ contents r = t.
Proof.
  intros Hv Hcode Hnl Hne Hc. unfold Handshake. rewrite writeRequest_eq. cbn [inbox outbox].
  destruct (first_line_split (NewReader (inbox (netConn c))) v code reason t Hv Hcode Hnl Hc)
    as (tp1 & -> & C & _).
  exists tp1. split; [|done]. simpl. by rewrite Hne.
Qed.

(** C2: Spec 8.6: a status code other than "101" fails the handshake with
    its error, after the request has been written, and the connection
    is left without frame reader or writer. *)
Theorem Handshake_rejects_non101 c v code reason t :
  has_char " "%char v = false -> has_char " "%char code = false ->
  has_char nl (status_line v code reason) = false -> String.eqb code "101" = false ->
  concat_segs (inbox (netConn c)) = status_line v code reason +:+ crlf t ->
  exists r, Handshake c = Some (after_handshake c r, Some ErrHandshake) /\ contents r = t.
Proof. apply handshake_non101. Qed.

(** C29: A status line with one space, such as "HTTP/1.1 101" with no
    reason phrase, fails the handshake with its error even when the code
    is "101": [parseFirstLine] finds no second space and reports
    [!ok], after the request has been written; the connection is left
    without frame reader or writer. *)
Theorem Handshake_rejects_no_reason c v code t :
  has_char " "%char v = false -> has_char " "%char code = false ->
  has_char nl (v +:+ String " " code) = false ->
  concat_segs (inbox (netConn c)) = (v +:+ String " " code) +:+ crlf t ->
  exists r, Handshake c = Some (after_handshake c r, Some ErrHandshake) /\ contents r = t.
Proof.
  intros Hv Hcode Hnl Hc. unfold Handshake. rewrite writeRequest_eq. cbn [inbox outbox].
  destruct (first_line_one_space (NewReader (inbox (netConn c))) v code t Hv Hcode Hnl Hc)
    as (tp1 & -> & C).
  by exists tp1.
Qed.

(** C22: A "101" status line followed by a well-formed header block
    completes the handshake, whatever the header holds (in particular
    with no [Sec-WebSocket-Accept], or a wrong one).  The bytes after
    the block are what the bufio reader buffered ([lost]), then the
    segments left in the connection. *)
Theorem Handshake_accepts_101 c v reason hs rest :
  has_char " "%char v = false -> has_char nl (status_line v "101" reason) = false ->
  headers_ok hs = true ->
  concat_segs (inbox (netConn c)) = status_line v "101" reason +:+ crlf (header_block hs (crlf rest)) ->
  exists r, Handshake c = Some (after_handshake c r, None)
    /\ rest = rbuf r +:+ concat_segs (rsrc r).
Proof.
  intros Hv Hnl Hok Hc. unfold Handshake. rewrite writeRequest_eq. cbn [inbox outbox].
  destruct (first_line_split (NewReader (inbox (netConn c))) v "101" reason _ Hv eq_refl Hnl Hc)
    as (tp1 & -> & C & _).
  destruct (ReadMIMEHeader_block hs tp1 rest Hok C) as (tp2 & E & C2 & _).
  simpl. rewrite E. exists tp2. split; [reflexivity|]. by rewrite <- C2.
Qed.

(** C30: A "101" status line whose header block is cut off by the end of the
    stream fails the handshake with the [EOF] of [ReadMIMEHeader]. *)
Theorem Handshake_header_eof c v reason hs :
  has_char " "%char v = false -> has_char nl (status_line v "101" reason) = false ->
  headers_ok hs = true ->
  concat_segs (inbox (netConn c)) = status_line v "101" reason +:+ crlf (header_block hs EmptyString) ->
  Handshake c = Some (after_handshake c (mkBufReader EmptyString []), Some (ErrMIME EOF)).
Proof.
  intros Hv Hnl Hok Hc. unfold Handshake. rewrite writeRequest_eq. cbn [inbox outbox].
  destruct (first_line_split (NewReader (inbox (netConn c))) v "101" reason _ Hv eq_refl Hnl Hc)
    as (tp1 & -> & C & _).
  simpl. rewrite (ReadMIMEHeader_unterminated hs tp1 Hok C). reflexivity.
Qed.

(** [NewConn] returns the connection whatever the handshake did. *)
Lemma NewConn_eq cl rc target :
  NewConn cl rc target = (fun p => Ok p.1) <$> Handshake (mkConn rc None None).
Proof. unfold NewConn. by destruct (Handshake _) as [[]|]. Qed.

(** [parseFirstLine] consumes exactly what its [ReadLine] consumed. *)
Lemma parseFirstLine_reader tp x tp1 : parseFirstLine tp = Some (x, tp1) -> tp1 = (ReadLine tp).2.
Proof.
  unfold parseFirstLine. destruct (ReadLine tp) as [[line|e] r1]; cbn; [|by intros [= _ <-]].
  rewrite parse_fields_ref. by intros [= _ <-].
Qed.

(** C21: Finding (spec 4.2): when the 101 response and the first frame
    arrive in one TCP segment, the handshake succeeds but the frame is
    gone: the bufio reader pulled the whole segment into its buffer,
    which [Handshake] discards, so the connection is left empty and the
    first [Read] fails with a truncated header. *)
Theorem NewConn_loses_first_frame cl rc target v reason hs key p n :
  has_char " "%char v = false -> has_char nl (status_line v "101" reason) = false ->
  headers_ok hs = true ->
  inbox rc = [status_line v "101" reason +:+ crlf (header_block hs (crlf (string_of_bytes (encodeFrame key p))))] ->
  String.length (status_line v "101" reason +:+ crlf (header_block hs (crlf (string_of_bytes (encodeFrame key p)))))
    <= bufSize ->
  exists c, NewConn cl rc target = Some (Ok c) /\ inbox (netConn c) = [] /\
    (Read c n).2 = Err (ErrFrame ErrTruncated).
Proof.
  intros Hv Hnl Hok Hin Hlen.
  assert (Hc : concat_segs (inbox rc) = status_line v "101" reason +:+
                 crlf (header_block hs (crlf (string_of_bytes (encodeFrame key p))))).
  { rewrite Hin. cbn [concat_segs]. apply string_app_nil_r. }
  rewrite NewConn_eq. unfold Handshake. rewrite writeRequest_eq. cbn [inbox outbox netConn].
  destruct (first_line_split (NewReader (inbox rc)) v "101" reason _ Hv eq_refl Hnl Hc) as (tp1 & Hp & C & _).
  assert (Hs1 : rsrc tp1 = []).
  { apply parseFirstLine_reader in Hp. rewrite Hp, Hin. by apply src_tail_nil_inv, ReadLine_pull. }
  rewrite Hp. destruct (ReadMIMEHeader_block hs tp1 _ Hok C) as (tp2 & E & _ & _).
  assert (Hs2 : rsrc tp2 = []).
  { pose proof (ReadMIMEHeader_tail tp1) as Hsuf. rewrite E, Hs1 in Hsuf. by apply src_tail_nil_inv. }
  simpl. rewrite E. cbn. eexists; split; [reflexivity|]. cbn. rewrite Hs2. split; [done|].
  unfold Read; cbn. done.
Qed.

(** C37: Finding (spec 4.2), with the buffer's bound: when the 101
    response arrives in a segment longer than bufio's 4096-byte buffer,
    the handshake's one [Read] takes exactly the first [bufSize] bytes,
    and parsing the response needs no other [Read].  After [NewConn]
    the connection holds the segment from byte [bufSize] on: the bytes
    that followed the header within the buffer are lost, and the frame
    reader starts in the middle of the stream. *)
Theorem NewConn_keeps_past_buffer cl rc target v reason hs d seg :
  has_char " "%char v = false -> has_char nl (status_line v "101" reason) = false ->
  headers_ok hs = true ->
  seg = status_line v "101" reason +:+ crlf (header_block hs (crlf d)) -> inbox rc = [seg] ->
  String.length (status_line v "101" reason +:+ crlf (header_block hs (crlf EmptyString))) <= bufSize ->
  bufSize < String.length seg ->
  exists c, NewConn cl rc target = Some (Ok c) /\
    inbox (netConn c) = [substring bufSize (String.length seg - bufSize) seg].
Proof.
  intros Hv Hnl Hok Hseg Hin Hhead Hlong.
  set (head := status_line v "101" reason +:+ crlf (header_block hs (crlf EmptyString))) in Hhead.
  set (tb := substring 0 (bufSize - String.length head) d).
  assert (Eseg : seg = head +:+ d).
  { rewrite Hseg. unfold head. by rewrite <- string_app_assoc, crlf_app, header_block_app, crlf_app,
      string_app_nil_l. }
  set (tp := mkBufReader (substring 0 bufSize seg) [substring bufSize (String.length seg - bufSize) seg]).
  assert (Hb : rbuf tp = (status_line v "101" reason +:+ crlf EmptyString) +:+ header_block hs (crlf tb)).
  { cbn [rbuf tp]. rewrite Eseg, substring_app_prefix by done. fold tb. unfold head.
    by rewrite <- !string_app_assoc, !crlf_app, header_block_app, crlf_app, !string_app_nil_l. }
  assert (Hc : contents tp = status_line v "101" reason +:+ crlf (header_block hs (crlf d))).
  { unfold contents. cbn [rbuf rsrc tp concat_segs]. rewrite string_app_nil_r, substring_split by lia.
    exact Hseg. }
  destruct (first_line_split tp v "101" reason _ Hv eq_refl Hnl Hc) as (tp1 & Hp & C1 & B1).
  assert (E1 : tp1 = mkBufReader (header_block hs (crlf tb)) (rsrc tp)) by (apply B1; exact Hb).
  destruct (ReadMIMEHeader_block hs tp1 d Hok C1) as (tp2 & E2 & _ & B2).
  assert (E2' : tp2 = mkBufReader tb (rsrc tp)) by (rewrite (B2 tb); by rewrite E1).
  rewrite NewConn_eq. unfold Handshake. rewrite writeRequest_eq. cbn [inbox outbox netConn]. rewrite Hin.
  assert (Hp0 : parseFirstLine (NewReader [seg]) = parseFirstLine tp).
  { unfold parseFirstLine, NewReader. rewrite ReadLine_fresh, fill_long by done. done. }
  rewrite Hp0, Hp. cbn -[ReadMIMEHeader]. rewrite E2. eexists; split; [reflexivity|]. by rewrite E2'.
Qed.

(** C23: Finding (spec 4.2, 8.6): after a non-"101" answer the handshake
    fails, yet [NewConn] returns the connection with no error, and the
    first [Read] on it binds a frame reader: the connection is promoted
    to frame mode. *)
Theorem NewConn_hides_handshake_error cl rc target v code reason t n :
  has_char " "%char v = false -> has_char " "%char code = false ->
  has_char nl (status_line v code reason) = false -> String.eqb code "101" = false ->
  concat_segs (inbox rc) = status_line v code reason +:+ crlf t ->
  exists c, Handshake (mkConn rc None None) = Some (c, Some ErrHandshake)
    /\ NewConn cl rc target = Some (Ok c)
    /\ reader (Read c n).1 <> None.
Proof.
  intros Hv Hcode Hnl Hne Hc.
  destruct (handshake_non101 (mkConn rc None None) v code reason t Hv Hcode Hnl Hne Hc)
    as (r & E & _).
  exists (after_handshake (mkConn rc None None) r). rewrite NewConn_eq, E.
  split; [done|]. split; [done|].
  unfold Read. simpl. by destruct (frameRead _ _ _) as [[[] ?] ?].
Qed.

(** A first [Read] on a fresh connection whose header does not decode
    fails with the decoder's error. *)
Lemma Read_new_header_err c n b e :
  reader c = None -> inbox (netConn c) = FrameStream.one_segment b -> bytes_ok b ->
  (decodeHeader maxFrameLen b).1 = Err e -> (Read c n).2 = Err (ErrFrame e).
Proof.
  intros Hr Hin Hb He. unfold Read, frameRead. rewrite Hr. cbn [NewFrameReader fr_left fr_max].
  rewrite decide_True by done. rewrite Hin, FrameStream.decodeHeaderWith_one by done.
  destruct (decodeHeader _ b) as [r rest]; cbn in He; by subst r.
Qed.

(** C19: Spec 4.2 and 7: the first [Read] on a connection rejects a frame
    whose opcode is not binary (a text, continuation or control frame),
    a header whose 64-bit length field is cut short, and a declared
    length above the reader's maximum, each with its [FrameError]. *)
Theorem Read_rejects_bad_header c n b0 b1 rest :
  reader c = None -> bytes_ok (b0 :: b1 :: rest) ->
  inbox (netConn c) = [string_of_bytes (b0 :: b1 :: rest)] ->
  (Z.land b0 15 <> opBinary -> (Read c n).2 = Err (ErrFrame (ErrOpcode (Z.land b0 15)))) /\
  (Z.land b0 15 = opBinary -> Z.land b1 127 = 127%Z -> length rest < 8 ->
     (Read c n).2 = Err (ErrFrame ErrTruncated)) /\
  (Z.land b0 15 = opBinary -> Z.land b1 127 = 127%Z -> 8 <= length rest ->
     (maxFrameLen < be_value (take 8 rest))%Z ->
     (Read c n).2 = Err (ErrFrame (ErrTooLarge (be_value (take 8 rest))))).
Proof.
  intros Hr Hb Hin. change [string_of_bytes (b0 :: b1 :: rest)] with (FrameStream.one_segment (b0 :: b1 :: rest)) in Hin.
  split; [|split]; intros; (eapply Read_new_header_err; [done | exact Hin | done |]).
  - by apply FrameStream.decodeHeader_opcode.
  - by apply FrameStream.decodeHeader_truncated_ext.
  - by apply FrameStream.decodeHeader_too_large.
Qed.

(** C24: [Write] binds a frame writer, leaves the input side alone, and
    sends exactly one write, which the frame decoder reads back as the
    payload (spec 4.2, 8.7). *)
Theorem Write_sends_frame key c b :
  length key = 4 -> bytes_ok key -> bytes_ok b -> (Z.of_nat (length b) <= maxFrameLen)%Z ->
  let '(c', res) := Write key c b in
  res = Ok (length b) /\ writer c' = Some frameWriter /\ reader c' = reader c
  /\ inbox (netConn c') = inbox (netConn c)
  /\ exists out, outbox (netConn c') = outbox (netConn c) ++ [out]
     /\ decodeFrame maxFrameLen (bytes_of_string out) = (Ok b, []).
Proof.
  intros Hk Hkok Hb Hmax. unfold Write, frameWrite. cbn.
  assert (Hw : match writer c with Some w => w | None => frameWriter end = frameWriter)
    by (by destruct (writer c) as [[]|]).
  rewrite Hw. do 4 (split; [done|]).
  eexists. split; [reflexivity|].
  rewrite bytes_of_string_of_bytes.
  - rewrite <- (app_nil_r (encodeFrame key b)). apply WsFrameFacts.decodeFrame_encodeFrame; try done.
    unfold maxFrameLen in Hmax. lia.
  - apply WsFrameFacts.encodeFrame_ok; try done. unfold maxFrameLen in Hmax. lia.
Qed.

(** Successive [Read]s with the buffer lengths [ns]. *)
Fixpoint read_chunks (c : Conn) (ns : list nat) : list (result WsError (list Z)) * Conn :=
  match ns with
  | [] => ([], c)
  | n :: ns' =>
      let (c1, r) := Read c n in
      let (rs, c2) := read_chunks c1 ns' in (r :: rs, c2)
  end.

(** The frame reader of a connection, when there is one, keeps the
    bytes left in its frame not negative. *)
Definition reader_ok (c : Conn) : Prop :=
  match reader c with Some fr => FrameProgress.left_ok fr | None => True end.

Lemma Read_progress c n :
  reader_ok c ->
  reader_ok (Read c n).1 /\
  FrameProgress.pending (inbox (netConn (Read c n).1)) <= FrameProgress.pending (inbox (netConn c)) /\
  (1 <= n -> is_ok (Read c n).2 = true ->
   FrameProgress.pending (inbox (netConn (Read c n).1)) < FrameProgress.pending (inbox (netConn c))).
Proof.
  unfold reader_ok, Read. intros Hr.
  set (fr := match reader c with Some fr => fr | None => NewFrameReader maxFrameLen end).
  assert (Hfr : FrameProgress.left_ok fr) by (unfold fr; destruct (reader c); [done | unfold FrameProgress.left_ok; cbn; lia]).
  destruct (frameRead fr (inbox (netConn c)) n) as [[r fr'] segs'] eqn:E.
  apply FrameProgress.frameRead_progress in E as (H1 & H2 & H3); [|done].
  destruct r; cbn; auto.
Qed.

(** Termination of read loops: whatever buffers of at least one byte a
    caller passes, the reads of a connection succeed at most as many
    times as there are bytes pending on it, so a loop that reads until
    an error ends.  The measure is the pending bytes, which every
    successful [Read] shortens (a new frame's header alone takes two). *)
Theorem Read_loop_terminates c ns :
  reader_ok c -> Forall (fun n => 1 <= n) ns ->
  length (filter (fun r => is_ok r = true) (read_chunks c ns).1) <= FrameProgress.pending (inbox (netConn c)).
Proof.
  revert c; induction ns as [|n ns IH]; intros c Hr Hns; cbn; [lia|].
  inversion Hns as [|? ? Hn Hns']; subst.
  destruct (Read_progress c n Hr) as (Hr' & Hle & Hlt).
  destruct (Read c n) as [c1 r] eqn:E; cbn [fst snd] in *.
  specialize (IH c1 Hr' Hns'). destruct (read_chunks c1 ns) as [rs c2]; cbn [fst] in *.
  rewrite filter_cons. destruct (is_ok r) eqn:Eo.
  - rewrite decide_True by done. specialize (Hlt Hn eq_refl). cbn [length]. lia.
  - rewrite decide_False by done. lia.
Qed.

(** A caller's loop that reads with a buffer of [n] bytes until [Read]
    fails (as a relay copying from the connection does): the payloads
    read, the error that ended the loop and the connection; [None] when
    the fuel runs out first. *)
Fixpoint read_until_err (c : Conn) (n fuel : nat) : option (list (list Z) * WsError * Conn) :=
  match fuel with
  | O => None
  | S fuel' =>
      match Read c n with
      | (c1, Ok bs) => (fun '(bss, e, c2) => (bs :: bss, e, c2)) <$> read_until_err c1 n fuel'
      | (c1, Err e) => Some ([], e, c1)
      end
  end.

(** C20: The read loop terminates: with a buffer of at least one byte and
    more fuel than bytes pending on the connection, it returns. *)
Theorem read_until_err_terminates c n fuel :
  reader_ok c -> 1 <= n -> FrameProgress.pending (inbox (netConn c)) < fuel ->
  is_Some (read_until_err c n fuel).
Proof.
  revert c; induction fuel as [|fuel IH]; intros c Hr Hn Hf; [lia|]. cbn.
  destruct (Read_progress c n Hr) as (Hr' & _ & Hlt).
  destruct (Read c n) as [c1 [bs|e]]; cbn [fst snd] in *; [|eauto].
  destruct (IH c1 Hr' Hn) as [x ->]; [specialize (Hlt Hn eq_refl); lia|].
  destruct x as [[bss e] c2]. eauto.
Qed.

Lemma Read_at key p pos n out w :
  bytes_ok key -> bytes_ok p -> pos < length p ->
  let m := Nat.min n (length p - pos) in
  Read (mkConn (mkNetConn (FrameStream.stream_at key p pos) out)
          (Some (FrameStream.reader_at maxFrameLen key p pos)) w) n =
  (mkConn (mkNetConn (FrameStream.stream_at key p (pos + m)) out)
     (Some (FrameStream.reader_at maxFrameLen key p (pos + m))) w, Ok (take n (drop pos p))).
Proof. intros Hk Hp Hpos m. unfold Read; cbn [reader netConn inbox outbox writer]. by rewrite FrameStream.frameRead_at. Qed.

Lemma read_chunks_at key p pos ns out w :
  bytes_ok key -> bytes_ok p -> Forall (fun n => 0 < n) ns -> pos + sum_list ns = length p ->
  exists pieces,
    (read_chunks (mkConn (mkNetConn (FrameStream.stream_at key p pos) out)
                    (Some (FrameStream.reader_at maxFrameLen key p pos)) w) ns).1 = Ok <$> pieces
    /\ List.concat pieces = drop pos p /\ length <$> pieces = ns.
Proof.
  intros Hk Hp Hns. revert pos; induction Hns as [|n ns Hn Hns IH]; intros pos Hsum; cbn in Hsum.
  - exists []. cbn. rewrite drop_ge by lia. done.
  - cbn [read_chunks]. rewrite Read_at by (done || lia).
    replace (pos + Nat.min n (length p - pos)) with (pos + n) by lia.
    destruct (IH (pos + n) ltac:(lia)) as (pieces & E & C & L).
    destruct (read_chunks _ ns) as [rs c2]; cbn in E |- *.
    exists (take n (drop pos p) :: pieces). rewrite E. split; [done|]. cbn [List.concat].
    rewrite C, <- drop_drop, take_drop. split; [done|]. cbn. rewrite L, length_take, length_drop.
    f_equal. lia.
Qed.

Lemma Read_new key p n out w :
  length key = 4 -> bytes_ok key -> bytes_ok p -> (Z.of_nat (length p) <= maxFrameLen)%Z -> p <> [] ->
  Read (mkConn (mkNetConn [string_of_bytes (encodeFrame key p)] out) None w) n =
  Read (mkConn (mkNetConn (FrameStream.stream_at key p 0) out)
          (Some (FrameStream.reader_at maxFrameLen key p 0)) w) n.
Proof.
  intros Hk Hkok Hp Hmax Hne. unfold Read; cbn [reader netConn inbox outbox writer].
  replace [string_of_bytes (encodeFrame key p)] with (FrameStream.one_segment (encodeFrame key p))
    by (unfold FrameStream.one_segment, push_front, encodeFrame; by destruct (length_fields _)).
  rewrite FrameStream.frameRead_new; try done. unfold maxFrameLen in Hmax; lia.
Qed.

(** C18: Spec 4.2: [Read] streams a frame's payload through its cursor:
    reading a frame that arrived as one segment (as [Write] sends it)
    with buffers of lengths [ns] adding up to the payload's length gives
    pieces of exactly those lengths whose concatenation is the payload. *)
Theorem Read_streams_frame key p ns out w :
  length key = 4 -> bytes_ok key -> bytes_ok p -> (Z.of_nat (length p) <= maxFrameLen)%Z ->
  Forall (fun n => 0 < n) ns -> sum_list ns = length p ->
  exists pieces,
    (read_chunks (mkConn (mkNetConn [string_of_bytes (encodeFrame key p)] out) None w) ns).1 = Ok <$> pieces
    /\ List.concat pieces = p /\ length <$> pieces = ns.
Proof.
  intros Hk Hkok Hp Hmax Hns Hsum. destruct ns as [|n ns].
  - exists []. cbn in *. destruct p; [done | discriminate].
  - inversion Hns as [|? ? Hn _]; subst.
    assert (Hne : p <> []) by (intros ->; cbn in Hsum; lia).
    destruct (read_chunks_at key p 0 (n :: ns) out w Hkok Hp Hns ltac:(lia)) as (pieces & E & C & L).
    exists pieces. rewrite drop_0 in C. split; [|done].
    cbn [read_chunks] in E |- *. by rewrite Read_new.
Qed.



(** ** Witnesses *)

Lemma Write_sends_frame_witness :
  let '(c', res) := Write [1; 2; 3; 4]%Z (mkConn (mkNetConn [] []) None None) [104; 105]%Z in
  res = Ok 2 /\ writer c' = Some frameWriter /\ reader c' = None
  /\ inbox (netConn c') = []
  /\ exists out, outbox (netConn c') = [] ++ [out]
     /\ decodeFrame maxFrameLen (bytes_of_string out) = (Ok [104; 105]%Z, []).
Proof.
  apply (Write_sends_frame [1; 2; 3; 4]%Z (mkConn (mkNetConn [] []) None None) [104; 105]%Z);
    [reflexivity | unfold bytes_ok, byte_ok; repeat constructor; lia
    | unfold bytes_ok, byte_ok; repeat constructor; lia | apply Z.leb_le; vm_compute; reflexivity].
Defined.

Lemma Handshake_header_eof_witness :
  Handshake (mkConn (mkNetConn [status_line "HTTP/1.1" "101" "Switching Protocols"
                                +:+ crlf (header_block [("Upgrade", "websocket")] EmptyString)]%string [])
                    None None)
  = Some (after_handshake (mkConn (mkNetConn [status_line "HTTP/1.1" "101" "Switching Protocols"
                                +:+ crlf (header_block [("Upgrade", "websocket")] EmptyString)]%string [])
                    None None) (mkBufReader EmptyString []), Some (ErrMIME EOF)).
Proof.
  apply (Handshake_header_eof _ "HTTP/1.1" "Switching Protocols" [("Upgrade", "websocket")]%string);
    reflexivity.
Defined.

Definition resp200 : list string := ["HTTP/1.1 200 OK" +:+ crlf (crlf EmptyString)]%string.

Definition resp101 : list string :=
  [status_line "HTTP/1.1" "101" "Switching Protocols"
   +:+ crlf (header_block [("Upgrade", "websocket"); ("Connection", "Upgrade")] (crlf "XYZ"))]%string.

Lemma Handshake_rejects_non101_witness :
  exists r, Handshake (mkConn (mkNetConn resp200 []) None None)
            = Some (after_handshake (mkConn (mkNetConn resp200 []) None None) r, Some ErrHandshake)
          /\ contents r = crlf EmptyString.
Proof.
  apply (Handshake_rejects_non101 _ "HTTP/1.1" "200" "OK"); reflexivity.
Defined.

Lemma Handshake_accepts_101_witness :
  exists r, Handshake (mkConn (mkNetConn resp101 []) None None)
            = Some (after_handshake (mkConn (mkNetConn resp101 []) None None) r, None)
          /\ "XYZ"%string = rbuf r +:+ concat_segs (rsrc r).
Proof.
  apply (Handshake_accepts_101 _ "HTTP/1.1" "Switching Protocols"
           [("Upgrade", "websocket"); ("Connection", "Upgrade")]); reflexivity.
Defined.

Lemma NewConn_hides_handshake_error_witness :
  exists c, Handshake (mkConn (mkNetConn resp200 []) None None) = Some (c, Some ErrHandshake)
    /\ NewConn (mkClient EmptyString) (mkNetConn resp200 []) "example.com:443" = Some (Ok c)
    /\ reader (Read c 16).1 <> None.
Proof.
  apply (NewConn_hides_handshake_error _ _ _ "HTTP/1.1" "200" "OK" (crlf EmptyString)); reflexivity.
Defined.

Lemma parseFirstLine_split_witness :
  exists tp1, parseFirstLine (NewReader resp200) = Some (("HTTP/1.1", "200", "OK", true), tp1)%string
    /\ contents tp1 = crlf EmptyString.
Proof.
  apply (parseFirstLine_split _ "HTTP/1.1" "200" "OK"); reflexivity.
Defined.

Lemma Handshake_rejects_no_reason_witness :
  exists r, Handshake (mkConn (mkNetConn ["HTTP/1.1 101" +:+ crlf (crlf EmptyString)]%string []) None None)
      = Some (after_handshake (mkConn (mkNetConn ["HTTP/1.1 101" +:+ crlf (crlf EmptyString)]%string []) None None) r,
              Some ErrHandshake)
    /\ contents r = crlf EmptyString.
Proof.
  apply (Handshake_rejects_no_reason _ "HTTP/1.1" "101"); reflexivity.
Defined.

Lemma Read_streams_frame_witness :
  exists pieces,
    (read_chunks (mkConn (mkNetConn [string_of_bytes (encodeFrame [1; 2; 3; 4]%Z [10; 20; 30; 40; 50]%Z)] [])
                    None None) [2; 3]).1 = Ok <$> pieces
    /\ List.concat pieces = [10; 20; 30; 40; 50]%Z /\ length <$> pieces = [2; 3].
Proof.
  apply Read_streams_frame;
    [reflexivity | repeat constructor; unfold byte_ok; lia | repeat constructor; unfold byte_ok; lia
    | unfold maxFrameLen; cbn; lia | repeat constructor; lia | reflexivity].
Defined.

Definition resp101_frame : list string :=
  [status_line "HTTP/1.1" "101" "Switching Protocols"
   +:+ crlf (header_block [("Upgrade", "websocket"); ("Connection", "Upgrade")]
               (crlf (string_of_bytes (encodeFrame [1; 2; 3; 4]%Z [104; 105]%Z))))]%string.

Lemma NewConn_loses_first_frame_witness :
  exists c, NewConn (mkClient EmptyString) (mkNetConn resp101_frame []) "example.com:443" = Some (Ok c)
    /\ inbox (netConn c) = [] /\ (Read c 16).2 = Err (ErrFrame ErrTruncated).
Proof.
  apply (NewConn_loses_first_frame _ _ _ "HTTP/1.1" "Switching Protocols"
           [("Upgrade", "websocket"); ("Connection", "Upgrade")] [1; 2; 3; 4]%Z [104; 105]%Z);
    try reflexivity.
  apply Nat.leb_le. reflexivity.
Defined.

(** A 101 response followed, in the same segment, by 5000 bytes of
    frames: longer than the buffer. *)
Definition long_data : string := string_of_bytes (replicate 5000 130%Z).

Definition resp101_long : string :=
  status_line "HTTP/1.1" "101" "Switching Protocols"
  +:+ crlf (header_block [("Upgrade", "websocket"); ("Connection", "Upgrade")] (crlf long_data)).

Lemma NewConn_keeps_past_buffer_witness :
  exists c, NewConn (mkClient EmptyString) (mkNetConn [resp101_long] []) "example.com:443" = Some (Ok c)
    /\ inbox (netConn c) = [substring bufSize (String.length resp101_long - bufSize) resp101_long].
Proof.
  apply (NewConn_keeps_past_buffer _ _ _ "HTTP/1.1" "Switching Protocols"
           [("Upgrade", "websocket"); ("Connection", "Upgrade")] long_data resp101_long);
    try reflexivity.
  - apply Nat.leb_le. vm_compute. reflexivity.
  - apply Nat.ltb_lt. vm_compute. reflexivity.
Defined.

(** C25: Spec 4.2: [Write] puts on the wire exactly the encoded frame, one
    byte per character, whose size is two header bytes, the extended
    length (none below 126 payload bytes, 16 bits up to 65535, 64 bits
    beyond), the 4-byte key and the payload. *)
Theorem Write_frame_size key c b :
  length key = 4 -> bytes_ok key -> bytes_ok b -> (Z.of_nat (length b) < 2 ^ 64)%Z ->
  exists out, outbox (netConn (Write key c b).1) = outbox (netConn c) ++ [out] /\
    bytes_of_string out = encodeFrame key b /\
    Z.of_nat (String.length out) =
    (6 + (if Z.of_nat (length b) <? 126 then 0 else if Z.of_nat (length b) <? 65536 then 2 else 8)
     + Z.of_nat (length b))%Z.
Proof.
  intros Hk Hkok Hb Hlen. exists (string_of_bytes (encodeFrame key b)). split; [done|].
  rewrite bytes_of_string_of_bytes by (by apply WsFrameFacts.encodeFrame_ok). split; [done|].
  rewrite <- length_bytes_of_string, bytes_of_string_of_bytes by (by apply WsFrameFacts.encodeFrame_ok).
  rewrite WsFrameFacts.length_encodeFrame, Hk by done. lia.
Qed.

Lemma Write_frame_size_witness :
  exists out, outbox (netConn (Write [1; 2; 3; 4]%Z (mkConn (mkNetConn [] []) None None) (replicate 126 7%Z)).1)
                = [] ++ [out] /\
    bytes_of_string out = encodeFrame [1; 2; 3; 4]%Z (replicate 126 7%Z) /\
    Z.of_nat (String.length out) = 134%Z.
Proof.
  destruct (Write_frame_size [1; 2; 3; 4]%Z (mkConn (mkNetConn [] []) None None) (replicate 126 7%Z))
    as (out & H1 & H2 & H3);
    [reflexivity | unfold bytes_ok, byte_ok; repeat constructor; lia
    | apply Forall_replicate; unfold byte_ok; lia | rewrite length_replicate; lia |].
  exists out. split; [done|]. split; [done|]. rewrite H3. reflexivity.
Defined.

Lemma Read_rejects_bad_header_witness :
  (Read (mkConn (mkNetConn [string_of_bytes [137; 128]%Z] []) None None) 16).2
    = Err (ErrFrame (ErrOpcode 9)) /\
  (Read (mkConn (mkNetConn [string_of_bytes [130; 255; 128; 0; 0; 0; 0; 0; 0; 0]%Z] []) None None) 16).2
    = Err (ErrFrame (ErrTooLarge (2 ^ 63))).
Proof.
  split.
  - apply (Read_rejects_bad_header (mkConn (mkNetConn [string_of_bytes [137; 128]%Z] []) None None)
             16 137 128 []); [done | unfold bytes_ok, byte_ok; repeat constructor; lia | done |].
    vm_compute; discriminate.
  - refine (proj2 (proj2 (Read_rejects_bad_header
      (mkConn (mkNetConn [string_of_bytes [130; 255; 128; 0; 0; 0; 0; 0; 0; 0]%Z] []) None None)
      16 130 255 [128; 0; 0; 0; 0; 0; 0; 0]%Z _ _ _)) _ _ _ _);
      [done | unfold bytes_ok, byte_ok; repeat constructor; lia | done | reflexivity | reflexivity
      | cbn; lia | vm_compute; reflexivity].
Defined.

Definition conn_ex : Conn :=
  mkConn (mkNetConn [string_of_bytes (encodeFrame [1; 2; 3; 4] [104; 105; 33])%Z] []) None None.

Lemma read_until_err_terminates_witness : is_Some (read_until_err conn_ex 2 12).
Proof. apply read_until_err_terminates; [exact I | lia | vm_compute; lia]. Defined.

End WsClientProps.
