(* ===== verification/Strategy.v ===== *)
(** * The strategy dialer (spec 4.3)

    [strategy/strategy.go] is not among the staged sources; it is
    modelled from spec 4.3 and 5.  A strategy dialer owns its forwarders
    in configured order, each with a health state; a selection algorithm
    picks among the alive ones (all of them when none is alive, the
    degraded mode):
    - round-robin: the alive forwarders in order, through a cursor that
      advances once per selection ([rr_select]);
    - random: the alive forwarder at a random index, the random number
      being an argument ([random_select]);
    - high-availability: the active forwarder while it is alive, else
      the highest-priority alive one, which becomes active
      ([ha_select]).
    Health checking is a step relation on a forwarder ([hc_step]): a
    successful probe makes it alive with no failures, a failed one
    counts a failure and marks it dead at the threshold.  [Dial] selects
    a forwarder and, when dialling through it fails, tries at most
    [retries] alternates in selection order before giving up with the
    list of forwarders tried. *)

From stdpp Require Import sets.
From S2P Require Import Prelude.

Set Warnings "-clear-no-such-hyp".

Module Strategy.

Inductive Health : Type := Alive | Dead.

#[export] Instance Health_eq_dec : EqDecision Health.
Proof. solve_decision. Defined.

(** A forwarder: its forward URL, priority, health, consecutive
    failures, last latency and last check time. *)
Record Forwarder : Type := mkForwarder {
  fwd_url : string;
  fwd_priority : nat;
  fwd_health : Health;
  fwd_failures : nat;
  fwd_latency : Z;
  fwd_checked : Z;
}.

Inductive Algorithm : Type := RoundRobin | RandomPick | HighAvailability.

(** The strategy part of the configuration. *)
Record StrategyConfig : Type := mkStrategyConfig {
  sc_strategy : string;
  sc_check_interval : Z;
  sc_check_timeout : Z;
  sc_check_target : string;
  sc_max_failures : nat;
}.

Record StrategyDialer : Type := mkStrategyDialer {
  sd_fwds : list Forwarder;
  sd_algo : Algorithm;
  sd_cursor : nat;
  sd_active : nat;
  sd_max_failures : nat;
  sd_checking : bool;
}.

Definition algorithm_of (s : string) : Algorithm :=
  if String.eqb s "ha" then HighAvailability
  else if String.eqb s "random" then RandomPick
  else RoundRobin.

(** A new forwarder starts alive, never checked. *)
Definition NewForwarder (url : string) (priority : nat) : Forwarder :=
  mkForwarder url priority Alive 0 0 0.

(** [strategy.NewDialer(urls, config)]: one forwarder per URL, priority
    by position (the first one highest), the first one active. *)
Definition NewStrategyDialer (urls : list string) (cfg : StrategyConfig) : StrategyDialer :=
  mkStrategyDialer (imap (fun i u => NewForwarder u (length urls - i)) urls)
    (algorithm_of (sc_strategy cfg)) 0 0 (sc_max_failures cfg) false.

(** [Check()]: start the health checkers. *)
Definition StartChecks (sd : StrategyDialer) : StrategyDialer :=
  mkStrategyDialer (sd_fwds sd) (sd_algo sd) (sd_cursor sd) (sd_active sd) (sd_max_failures sd) true.

(** The indices of the alive forwarders, in configured order. *)
Fixpoint alive_from (k : nat) (fs : list Forwarder) : list nat :=
  match fs with
  | [] => []
  | f :: fs' => if decide (fwd_health f = Alive) then k :: alive_from (S k) fs' else alive_from (S k) fs'
  end.

(** The forwarders a selection chooses among: the alive ones, or all
    of them when none is alive. *)
Definition candidates (sd : StrategyDialer) : list nat :=
  match alive_from 0 (sd_fwds sd) with
  | [] => seq 0 (length (sd_fwds sd))
  | l => l
  end.

Definition with_cursor (sd : StrategyDialer) (c : nat) : StrategyDialer :=
  mkStrategyDialer (sd_fwds sd) (sd_algo sd) c (sd_active sd) (sd_max_failures sd) (sd_checking sd).

Definition with_active (sd : StrategyDialer) (a : nat) : StrategyDialer :=
  mkStrategyDialer (sd_fwds sd) (sd_algo sd) (sd_cursor sd) a (sd_max_failures sd) (sd_checking sd).

Definition with_fwds (sd : StrategyDialer) (fs : list Forwarder) : StrategyDialer :=
  mkStrategyDialer fs (sd_algo sd) (sd_cursor sd) (sd_active sd) (sd_max_failures sd) (sd_checking sd).

Definition rr_select (sd : StrategyDialer) : option nat * StrategyDialer :=
  match candidates sd with
  | [] => (None, sd)
  | cs => (cs !! (sd_cursor sd mod length cs), with_cursor sd (S (sd_cursor sd)))
  end.

Definition random_select (sd : StrategyDialer) (rnd : nat) : option nat :=
  match candidates sd with
  | [] => None
  | cs => cs !! (rnd mod length cs)
  end.

Definition priority_of (sd : StrategyDialer) (i : nat) : nat :=
  match sd_fwds sd !! i with Some f => fwd_priority f | None => 0 end.

(** The first of [cs] with the highest priority. *)
Fixpoint best_of (sd : StrategyDialer) (cs : list nat) : option nat :=
  match cs with
  | [] => None
  | i :: cs' =>
      match best_of sd cs' with
      | Some j => if decide (priority_of sd i < priority_of sd j) then Some j else Some i
      | None => Some i
      end
  end.

Definition is_alive (sd : StrategyDialer) (i : nat) : bool :=
  match sd_fwds sd !! i with
  | Some f => bool_decide (fwd_health f = Alive)
  | None => false
  end.

Definition ha_select (sd : StrategyDialer) : option nat * StrategyDialer :=
  if is_alive sd (sd_active sd) then (Some (sd_active sd), sd)
  else match best_of sd (candidates sd) with
       | Some j => (Some j, with_active sd j)
       | None => (None, sd)
       end.

(** One selection; [rnd] is the random number the random strategy
    draws. *)
Definition select (sd : StrategyDialer) (rnd : nat) : option nat * StrategyDialer :=
  match sd_algo sd with
  | RoundRobin => rr_select sd
  | RandomPick => (random_select sd rnd, sd)
  | HighAvailability => ha_select sd
  end.

(** ** Health checking *)

Definition probe_ok (f : Forwarder) (latency now : Z) : Forwarder :=
  mkForwarder (fwd_url f) (fwd_priority f) Alive 0 latency now.

Definition probe_fail (maxf : nat) (f : Forwarder) (now : Z) : Forwarder :=
  let n := S (fwd_failures f) in
  mkForwarder (fwd_url f) (fwd_priority f) (if decide (maxf <= n) then Dead else fwd_health f)
    n (fwd_latency f) now.

(** One health-check cycle of forwarder [i]: the probe succeeded with
    [latency] or failed. *)
Definition check_result (sd : StrategyDialer) (i : nat) (ok : bool) (latency now : Z) : StrategyDialer :=
  match sd_fwds sd !! i with
  | Some f =>
      with_fwds sd (<[i := if ok then probe_ok f latency now else probe_fail (sd_max_failures sd) f now]>
                    (sd_fwds sd))
  | None => sd
  end.

(** The health checker of one forwarder as a step relation. *)
Inductive hc_step (maxf : nat) : Forwarder -> Forwarder -> Prop :=
| hc_ok f latency now : hc_step maxf f (probe_ok f latency now)
| hc_fail f now : hc_step maxf f (probe_fail maxf f now).

Inductive hc_reachable (maxf : nat) (f0 : Forwarder) : Forwarder -> Prop :=
| hc_init : hc_reachable maxf f0 f0
| hc_next f f' : hc_reachable maxf f0 f -> hc_step maxf f f' -> hc_reachable maxf f0 f'.

(** ** Dialing *)

Inductive DialError : Type := ErrAllFailed (tried : list nat).

(** The forwarders a dial tries: the selected one, then the other
    candidates in configured order after it. *)
Definition attempts (sd : StrategyDialer) (i : nat) (retries : nat) : list nat :=
  let cs := candidates sd in
  let k := default 0 (list_find (fun j => j = i) cs ≫= fun p => Some p.1) in
  take (S retries) (i :: filter (fun j => j <> i) (rotate k cs)).

(** Dial through each forwarder in turn until one connects. *)
Fixpoint try_each (dialf : nat -> bool) (l : list nat) (tried : list nat) : result DialError nat :=
  match l with
  | [] => Err (ErrAllFailed (rev tried))
  | i :: l' => if dialf i then Ok i else try_each dialf l' (i :: tried)
  end.

(** [Dial]: one selection, then at most [retries] alternates; [dialf]
    tells whether dialling through a forwarder succeeds. *)
Definition Dial (sd : StrategyDialer) (rnd : nat) (dialf : nat -> bool) (retries : nat)
  : result DialError nat * StrategyDialer :=
  match select sd rnd with
  | (None, sd1) => (Err (ErrAllFailed []), sd1)
  | (Some i, sd1) => (try_each dialf (attempts sd i retries) [], sd1)
  end.

(** A sequence of events: selections, each with the random number it
    draws, and health-check results; the outputs are the selections'
    results in order. *)
Inductive Event : Type :=
| EvSelect (rnd : nat)
| EvCheck (i : nat) (ok : bool) (latency now : Z).

Fixpoint run (sd : StrategyDialer) (evs : list Event) : list (option nat) * StrategyDialer :=
  match evs with
  | [] => ([], sd)
  | EvSelect rnd :: evs' =>
      let (o, sd1) := select sd rnd in
      let (os, sd2) := run sd1 evs' in (o :: os, sd2)
  | EvCheck i ok lat now :: evs' => run (check_result sd i ok lat now) evs'
  end.

End Strategy.

Module StrategyFacts.
Import Strategy.

(** ** Health checking *)

Section Health.
Context (maxf : nat) (Hmaxf : 1 <= maxf).

(** The checker's invariant: alive exactly while the failures are below
    the threshold. *)
Definition health_inv (f : Forwarder) : Prop :=
  fwd_health f = Alive <-> fwd_failures f < maxf.

Lemma health_inv_new url p : health_inv (NewForwarder url p).
Proof. unfold health_inv; cbn; split; [lia | done]. Qed.

Lemma health_inv_step f f' : health_inv f -> hc_step maxf f f' -> health_inv f'.
Proof.
  unfold health_inv; intros Hinv Hs; inversion Hs; subst; cbn; [split; [lia | done]|].
  case_decide; [split; [discriminate | lia]|].
  destruct (fwd_health f); [split; [lia | done]|].
  split; [discriminate|]. intros Hlt; assert (Hf : fwd_failures f < maxf) by lia.
  apply Hinv in Hf; discriminate.
Qed.

Lemma health_inv_reachable f0 f : health_inv f0 -> hc_reachable maxf f0 f -> health_inv f.
Proof. intros H0 Hr; induction Hr; eauto using health_inv_step. Qed.

End Health.

Fixpoint fail_n (maxf n : nat) (f : Forwarder) : Forwarder :=
  match n with 0 => f | S n' => fail_n maxf n' (probe_fail maxf f 0) end.

Lemma fail_n_failures maxf n f : fwd_failures (fail_n maxf n f) = n + fwd_failures f.
Proof. revert f; induction n; intros f; cbn; [done|]. rewrite IHn; cbn; lia. Qed.

Lemma fail_n_dead maxf n f : fwd_health f = Dead -> fwd_health (fail_n maxf n f) = Dead.
Proof. revert f; induction n; intros f Hd; cbn; [done|]. apply IHn; cbn; case_decide; done. Qed.

Lemma fail_n_threshold maxf n f :
  maxf <= n + fwd_failures f -> 1 <= n -> fwd_health (fail_n maxf n f) = Dead.
Proof.
  revert f; induction n as [|n IH]; intros f Hle Hn; [lia|]; cbn.
  destruct (decide (maxf <= S (fwd_failures f))).
  - apply fail_n_dead; cbn; case_decide; [done | lia].
  - destruct n; [lia|]. apply IH; cbn; lia.
Qed.

Lemma fail_n_reachable maxf n f0 f :
  hc_reachable maxf f0 f -> hc_reachable maxf f0 (fail_n maxf n f).
Proof. revert f; induction n; intros f Hr; cbn; [done|]. apply IHn; econstructor; [done | constructor]. Qed.

(** ** Selection *)

Lemma elem_of_alive_from k fs i :
  i ∈ alive_from k fs <-> k <= i /\ exists f, fs !! (i - k) = Some f /\ fwd_health f = Alive.
Proof.
  revert k; induction fs as [|f fs IH]; intros k; cbn.
  - split; [intros Hin; inversion Hin | intros (_ & g & Hg & _); discriminate].
  - case_decide as Hh; rewrite ?elem_of_cons, IH; split.
    + intros [-> | [Hle (g & Hg & Ha)]]; [rewrite Nat.sub_diag; eauto|].
      split; [lia|]. replace (i - k) with (S (i - S k)) by lia; eauto.
    + intros [Hle (g & Hg & Ha)]. destruct (decide (i = k)) as [->|Hne]; [by left|right].
      split; [lia|]. replace (i - k) with (S (i - S k)) in Hg by lia; eauto.
    + intros [Hle (g & Hg & Ha)]. split; [lia|].
      replace (i - k) with (S (i - S k)) by lia; eauto.
    + intros [Hle (g & Hg & Ha)]. destruct (decide (i = k)) as [->|Hne].
      * rewrite Nat.sub_diag in Hg; cbn in Hg; simplify_eq.
      * split; [lia|]. replace (i - k) with (S (i - S k)) in Hg by lia; eauto.
Qed.

Lemma elem_of_alive sd i : i ∈ alive_from 0 (sd_fwds sd) <-> is_alive sd i = true.
Proof.
  rewrite elem_of_alive_from, Nat.sub_0_r; unfold is_alive.
  destruct (sd_fwds sd !! i); rewrite ?bool_decide_eq_true; split; [intros [_ (g & Hg & Ha)]; by simplify_eq | eauto with lia | intros [_ (g & Hg & _)]; discriminate | discriminate].
Qed.

Lemma NoDup_alive_from k fs : NoDup (alive_from k fs).
Proof.
  revert k; induction fs as [|f fs IH]; intros k; cbn; [constructor|].
  case_decide; [|done]. constructor; [|done].
  rewrite elem_of_alive_from; lia.
Qed.

Lemma NoDup_candidates sd : NoDup (candidates sd).
Proof.
  unfold candidates; pose proof (NoDup_alive_from 0 (sd_fwds sd)).
  destruct (alive_from 0 (sd_fwds sd)); [apply NoDup_seq | done].
Qed.

(** When some forwarder is alive, the candidates are the alive ones. *)
Lemma elem_of_candidates_alive sd i :
  alive_from 0 (sd_fwds sd) <> [] -> i ∈ candidates sd <-> is_alive sd i = true.
Proof. unfold candidates; intros Hne; rewrite <- elem_of_alive; by destruct (alive_from 0 _). Qed.

Lemma candidates_lt sd i : i ∈ candidates sd -> i < length (sd_fwds sd).
Proof.
  unfold candidates; destruct (alive_from 0 (sd_fwds sd)) eqn:E.
  - rewrite elem_of_seq; lia.
  - rewrite <- E, elem_of_alive_from, Nat.sub_0_r. intros (_ & f & Hf & _).
    eapply lookup_lt_Some; eauto.
Qed.

Lemma candidates_nil sd : candidates sd = [] <-> sd_fwds sd = [].
Proof.
  unfold candidates; split.
  - destruct (alive_from 0 (sd_fwds sd)); [|done]. intros H%(f_equal length).
    rewrite length_seq in H; by apply nil_length_inv.
  - intros ->; done.
Qed.

Lemma candidates_with_cursor sd c : candidates (with_cursor sd c) = candidates sd.
Proof. done. Qed.

Lemma candidates_with_active sd a : candidates (with_active sd a) = candidates sd.
Proof. done. Qed.

Lemma rotate_nat_add_mod c j k : k <> 0 -> rotate_nat_add c j k = (c + j) `mod` k.
Proof. intros Hk. unfold rotate_nat_add. rewrite <- Nat2Z.inj_add, <- Nat2Z.inj_mod, Nat2Z.id. done. Qed.

(** The round-robin selections of a run of [n] selections, by index. *)
Lemma run_rr_lookup sd rnds j :
  sd_algo sd = RoundRobin -> candidates sd <> [] ->
  (run sd (EvSelect <$> rnds)).1 !! j =
  if decide (j < length rnds)
  then Some (candidates sd !! ((sd_cursor sd + j) `mod` length (candidates sd)))
  else None.
Proof.
  revert sd j; induction rnds as [|r rnds IH]; intros sd j Halgo Hne; cbn; [case_decide; [lia | done]|].
  unfold select; rewrite Halgo; unfold rr_select.
  destruct (candidates sd) as [|c cs] eqn:Ec; [done|].
  destruct (run _ _) as [os sd2] eqn:Er.
  destruct j as [|j]; cbn [fst].
  - case_decide; [|cbn in *; lia]. rewrite Nat.add_0_r; done.
  - assert (Hne' : candidates (with_cursor sd (S (sd_cursor sd))) <> []) by (rewrite candidates_with_cursor, Ec; done).
    pose proof (IH (with_cursor sd (S (sd_cursor sd))) j Halgo Hne') as Hj.
    rewrite candidates_with_cursor, Ec, Er in Hj; cbn [fst sd_cursor with_cursor] in Hj.
    change ((_ :: os) !! S j) with (os !! j). rewrite Hj.
    cbn [length]; do 2 case_decide; try lia; [|done]. by replace (S (sd_cursor sd) + j) with (sd_cursor sd + S j) by lia.
Qed.

Lemma rotate_perm {A} n (l : list A) : rotate n l ≡ₚ l.
Proof. unfold rotate. by rewrite Permutation_app_comm, take_drop. Qed.

(** The cycle of round-robin: [n] selections from cursor [c] over [n]
    candidates return the candidates rotated by [c]. *)
Lemma run_rr_cycle sd rnds :
  sd_algo sd = RoundRobin -> candidates sd <> [] -> length rnds = length (candidates sd) ->
  (run sd (EvSelect <$> rnds)).1 = Some <$> rotate (sd_cursor sd) (candidates sd).
Proof.
  intros Halgo Hne Hlen. apply list_eq; intros j.
  rewrite run_rr_lookup, list_lookup_fmap by done.
  case_decide.
  - rewrite lookup_rotate_r, rotate_nat_add_mod by (destruct (candidates sd); cbn in *; done || lia).
    destruct (candidates sd !! _) eqn:E; [done|].
    apply lookup_ge_None in E. pose proof (Nat.mod_upper_bound (sd_cursor sd + j) (length (candidates sd))).
    destruct (candidates sd); cbn in *; [done | lia].
  - symmetry; apply fmap_None, lookup_ge_None. rewrite length_rotate; lia.
Qed.

(** Under round-robin, an alive forwarder is returned by one cycle of
    selections, as many as there are candidates. *)
Lemma run_rr_returns sd rnds i :
  sd_algo sd = RoundRobin -> is_alive sd i = true -> length rnds = length (candidates sd) ->
  Some i ∈ (run sd (EvSelect <$> rnds)).1.
Proof.
  intros Halgo Ha Hlen.
  assert (Hne : alive_from 0 (sd_fwds sd) <> []).
  { intros E. apply elem_of_alive in Ha. rewrite E in Ha. by apply elem_of_nil in Ha. }
  assert (Hi : i ∈ candidates sd) by by apply elem_of_candidates_alive.
  rewrite run_rr_cycle by (done || by intros E; rewrite E in Hi; apply elem_of_nil in Hi).
  apply list_elem_of_fmap. exists i. split; [done|]. by apply elem_of_rotate.
Qed.

(** A selection returns an alive forwarder whenever one is alive. *)
Lemma best_of_spec sd cs j :
  best_of sd cs = Some j -> j ∈ cs /\ forall i, i ∈ cs -> priority_of sd i <= priority_of sd j.
Proof.
  revert j; induction cs as [|c cs IH]; intros j; cbn; [discriminate|].
  destruct (best_of sd cs) as [b|] eqn:Eb.
  - destruct (IH b eq_refl) as [Hb Hmax].
    case_decide; intros [= <-]; (split; [set_solver|]); intros i [->|Hi]%elem_of_cons;
      try lia; specialize (Hmax i Hi); lia.
  - intros [= <-]; split; [set_solver|]. intros i [->|Hi]%elem_of_cons; [done|].
    destruct cs; [inversion Hi|]. cbn in Eb; destruct (best_of sd cs); [case_decide|]; discriminate.
Qed.

Lemma best_of_some sd cs : cs <> [] -> is_Some (best_of sd cs).
Proof. destruct cs as [|c cs]; cbn; [done|]. intros _; destruct (best_of sd cs); [case_decide|]; eauto. Qed.

Lemma lookup_candidates_alive sd k i :
  alive_from 0 (sd_fwds sd) <> [] -> candidates sd !! k = Some i -> is_alive sd i = true.
Proof. intros Hne Hk. apply elem_of_candidates_alive; [done|]. by eapply list_elem_of_lookup_2. Qed.

Lemma select_alive sd rnd i sd' :
  select sd rnd = (Some i, sd') -> alive_from 0 (sd_fwds sd) <> [] -> is_alive sd i = true.
Proof.
  unfold select, rr_select, random_select, ha_select; intros Hs Hne.
  destruct (sd_algo sd).
  1,2: destruct (candidates sd) eqn:E; [done|]; rewrite <- E in Hs;
    injection Hs as Hi _; eauto using lookup_candidates_alive.
  repeat case_match; simplify_eq/=; first
    [ done
    | match goal with H : best_of _ _ = Some _ |- _ =>
        apply best_of_spec in H as [Hj _]; by apply elem_of_candidates_alive end ].
Qed.

(** ** High availability *)

(** An event that cannot make forwarder [a] dead: a selection, a
    result for another forwarder, or a successful probe. *)
Definition keeps_alive (a : nat) (ev : Event) : Prop :=
  match ev with
  | EvCheck i ok _ _ => i <> a \/ ok = true
  | EvSelect _ => True
  end.

Lemma check_result_algo sd i ok lat now : sd_algo (check_result sd i ok lat now) = sd_algo sd.
Proof. unfold check_result; by destruct (sd_fwds sd !! i). Qed.

Lemma check_result_active sd i ok lat now : sd_active (check_result sd i ok lat now) = sd_active sd.
Proof. unfold check_result; by destruct (sd_fwds sd !! i). Qed.

(** A successful probe makes the forwarder alive. *)
Lemma is_alive_probe_ok sd i lat now :
  i < length (sd_fwds sd) -> is_alive (check_result sd i true lat now) i = true.
Proof.
  intros Hi. destruct (lookup_lt_is_Some_2 _ _ Hi) as [f Ef].
  unfold check_result, is_alive. rewrite Ef; cbn. rewrite list_lookup_insert_eq by done.
  by apply bool_decide_eq_true.
Qed.

Lemma is_alive_check sd i ok lat now a :
  keeps_alive a (EvCheck i ok lat now) -> is_alive sd a = true ->
  is_alive (check_result sd i ok lat now) a = true.
Proof.
  unfold check_result, is_alive; cbn; intros Hk Ha.
  destruct (sd_fwds sd !! i) as [f|] eqn:Ef; [|done]; cbn.
  destruct (decide (i = a)) as [<- | Hne].
  - rewrite list_lookup_insert_eq by eauto using lookup_lt_Some.
    destruct Hk as [| ->]; [done|]. by apply bool_decide_eq_true.
  - by rewrite list_lookup_insert_ne.
Qed.

Lemma ha_select_alive sd : is_alive sd (sd_active sd) = true -> ha_select sd = (Some (sd_active sd), sd).
Proof. unfold ha_select; by intros ->. Qed.

(** When the active forwarder has died and another is alive, the
    selection switches to the highest-priority alive forwarder. *)
Lemma ha_select_switch sd :
  is_alive sd (sd_active sd) = false -> alive_from 0 (sd_fwds sd) <> [] ->
  exists j, ha_select sd = (Some j, with_active sd j) /\ is_alive sd j = true /\
    forall i, is_alive sd i = true -> priority_of sd i <= priority_of sd j.
Proof.
  unfold ha_select; intros -> Hne.
  destruct (best_of_some sd (candidates sd)) as [j Hj].
  { intros Hc%candidates_nil; rewrite Hc in Hne; done. }
  rewrite Hj; exists j; split; [done|].
  apply best_of_spec in Hj as [Hj Hmax].
  split; [by apply elem_of_candidates_alive|].
  intros i Hi; apply Hmax, elem_of_candidates_alive; done.
Qed.

(** [k] failed probes of forwarder [a], as [k] health results. *)
Lemma run_fail_checks sd a f k lat :
  sd_fwds sd !! a = Some f ->
  (run sd (repeat (EvCheck a false lat 0) k)).2 =
  with_fwds sd (<[a := fail_n (sd_max_failures sd) k f]> (sd_fwds sd)).
Proof.
  revert sd f; induction k as [|k IH]; intros sd f Hf; cbn [repeat run].
  - rewrite list_insert_id by done. by destruct sd.
  - unfold check_result. rewrite Hf. pose proof (lookup_lt_Some _ _ _ Hf) as Ha.
    rewrite (IH _ (probe_fail (sd_max_failures sd) f 0)) by (cbn; by apply list_lookup_insert_eq).
    cbn. rewrite list_insert_insert_eq. by unfold with_fwds.
Qed.

(** After as many failed probes as the threshold, the forwarder is
    dead, whatever its state before; selections are unchanged. *)
Lemma run_fail_checks_dead sd a k lat :
  a < length (sd_fwds sd) -> sd_max_failures sd <= k -> 1 <= k ->
  let sd2 := (run sd (repeat (EvCheck a false lat 0) k)).2 in
  is_alive sd2 a = false /\ sd_active sd2 = sd_active sd /\ sd_algo sd2 = sd_algo sd /\
  sd_max_failures sd2 = sd_max_failures sd.
Proof.
  intros Ha Hk H1. destruct (lookup_lt_is_Some_2 _ _ Ha) as [f Hf]. cbv zeta.
  rewrite (run_fail_checks sd a f k lat Hf). cbn. split; [|done].
  unfold is_alive; cbn. rewrite list_lookup_insert_eq by done.
  rewrite fail_n_threshold by lia. done.
Qed.

(** ** Dialing *)

Lemma try_each_ok dialf l tried i : try_each dialf l tried = Ok i -> dialf i = true /\ i ∈ l.
Proof.
  revert tried; induction l as [|j l IH]; intros tried; cbn; [discriminate|].
  destruct (dialf j) eqn:E; [intros [= <-]; split; [done | left]|].
  intros H; destruct (IH _ H); split; [done | by right].
Qed.

Lemma try_each_err dialf l tried t :
  try_each dialf l tried = Err (ErrAllFailed t) ->
  t = rev tried ++ l /\ Forall (fun j => dialf j = false) l.
Proof.
  revert tried; induction l as [|j l IH]; intros tried; cbn.
  - intros [= <-]; by rewrite app_nil_r.
  - destruct (dialf j) eqn:E; [discriminate|].
    intros H; destruct (IH _ H) as [-> Hf]; cbn; rewrite <- app_assoc; split; [done|by constructor].
Qed.

Lemma NoDup_attempts sd i retries : NoDup (attempts sd i retries).
Proof.
  unfold attempts. eapply sublist_NoDup; [|apply sublist_take].
  constructor.
  - rewrite list_elem_of_filter; naive_solver.
  - apply NoDup_filter. rewrite rotate_perm. apply NoDup_candidates.
Qed.

Lemma length_attempts sd i retries : length (attempts sd i retries) <= S retries.
Proof. unfold attempts; rewrite length_take; lia. Qed.

Lemma attempts_candidates sd i retries j :
  i ∈ candidates sd -> j ∈ attempts sd i retries -> j ∈ candidates sd.
Proof.
  unfold attempts; intros Hi (k & Hk & _)%elem_of_take.
  apply list_elem_of_lookup_2, elem_of_cons in Hk as [->|Hk]; [done|].
  apply list_elem_of_filter in Hk as [_ Hk]. by apply elem_of_rotate in Hk.
Qed.

(** The high-availability selection is sticky: while the active
    forwarder stays alive, every selection returns it, whatever happens
    to the others. *)
Lemma run_ha_sticky sd evs :
  sd_algo sd = HighAvailability -> is_alive sd (sd_active sd) = true ->
  Forall (keeps_alive (sd_active sd)) evs ->
  Forall (fun o => o = Some (sd_active sd)) (run sd evs).1.
Proof.
  revert sd; induction evs as [|[rnd | i ok lat now] evs IH]; intros sd Halgo Ha Hk; cbn; [constructor| |].
  - unfold select; rewrite Halgo, ha_select_alive by done.
    inversion Hk; subst. destruct (run sd evs) as [os sd2] eqn:Er; cbn.
    constructor; [done|]. specialize (IH sd Halgo Ha); rewrite Er in IH; auto.
  - inversion Hk; subst.
    rewrite <- (check_result_active sd i ok lat now). apply IH.
    + by rewrite check_result_algo.
    + rewrite check_result_active. by apply is_alive_check.
    + by rewrite check_result_active.
Qed.

Lemma select_candidate sd rnd i sd' : select sd rnd = (Some i, sd') -> i ∈ candidates sd.
Proof.
  unfold select, rr_select, random_select, ha_select; intros Hs.
  destruct (sd_algo sd).
  1,2: destruct (candidates sd) eqn:E; [done|]; rewrite <- E in Hs |- *;
    injection Hs as Hi _; by eapply list_elem_of_lookup_2.
  repeat case_match; simplify_eq/=; first
    [ match goal with H : best_of _ _ = Some _ |- _ => by apply best_of_spec in H as [? _] end
    | match goal with H : is_alive _ _ = true |- _ =>
        apply elem_of_candidates_alive; [|done]; apply elem_of_alive in H;
        by intros Hn; rewrite Hn in H; apply elem_of_nil in H end ].
Qed.

(** A dial either connects through a candidate forwarder that accepted,
    or fails after trying at most [retries + 1] distinct forwarders,
    all of which refused. *)
Lemma Dial_spec sd rnd dialf retries r sd' :
  Dial sd rnd dialf retries = (r, sd') ->
  sd' = (select sd rnd).2 /\
  match r with
  | Ok i => dialf i = true /\ i ∈ candidates sd
  | Err (ErrAllFailed t) => length t <= S retries /\ NoDup t /\ Forall (fun j => dialf j = false) t
  end.
Proof.
  unfold Dial; destruct (select sd rnd) as [[i|] sd1] eqn:Es.
  - destruct (try_each dialf (attempts sd i retries) []) as [j | [t]] eqn:Et;
      intros [= <- <-]; (split; [done|]).
    + apply try_each_ok in Et as [Hd Hj]. split; [done|].
      eapply attempts_candidates; [|done]. by eapply select_candidate.
    + apply try_each_err in Et as [-> Hf]; cbn.
      split; [apply length_attempts|]. split; [apply NoDup_attempts | done].
  - intros [= <- <-]; split; [done|]. cbn; repeat split; [lia | constructor | constructor].
Qed.

Lemma select_some sd rnd : candidates sd <> [] -> exists i, (select sd rnd).1 = Some i.
Proof.
  intros Hne. assert (Hlt : forall n, n mod length (candidates sd) < length (candidates sd)).
  { intros n; apply Nat.mod_upper_bound. by intros ?%nil_length_inv. }
  unfold select, rr_select, random_select, ha_select.
  destruct (sd_algo sd).
  1,2: destruct (candidates sd) eqn:E; [done|]; cbv beta iota; cbn [fst]; rewrite <- E in Hlt |- *;
    apply lookup_lt_is_Some, Hlt.
  destruct (best_of_some sd _ Hne) as [j Hj]. repeat case_match; simplify_eq/=; eauto.
Qed.

Lemma try_each_accepts dialf l tried j :
  j ∈ l -> dialf j = true -> exists i, try_each dialf l tried = Ok i.
Proof.
  revert tried; induction l as [|k l IH]; intros tried Hj Hd; [by apply elem_of_nil in Hj|]; cbn.
  destruct (dialf k) eqn:E; [eauto|].
  apply elem_of_cons in Hj as [->|Hj]; [congruence | eauto].
Qed.

(** With a retry budget as large as the candidate list, the attempts
    are all the candidates. *)
Lemma attempts_all sd i retries j :
  i ∈ candidates sd -> length (candidates sd) <= S retries ->
  j ∈ candidates sd -> j ∈ attempts sd i retries.
Proof.
  intros Hi Hlen Hj. unfold attempts.
  set (l := i :: filter (fun j => j <> i) _).
  assert (Hl : forall x, x ∈ l -> x ∈ candidates sd).
  { intros x [->|Hx%list_elem_of_filter]%elem_of_cons; [done|]. by eapply elem_of_rotate, Hx. }
  assert (length l <= length (candidates sd)).
  { apply submseteq_length, NoDup_submseteq; [|done].
    pose proof (NoDup_attempts sd i (length l)) as Hn. unfold attempts in Hn.
    by rewrite take_ge in Hn by (cbn; lia). }
  rewrite take_ge by lia. destruct (decide (j = i)) as [->|Hne]; [left|right].
  apply list_elem_of_filter; split; [done|]. by apply elem_of_rotate.
Qed.

(** A dial whose retry budget covers every candidate gives up only
    when every candidate refused: if one accepts, the dial connects. *)
Lemma Dial_exhaustive sd rnd dialf retries j :
  length (candidates sd) <= S retries -> j ∈ candidates sd -> dialf j = true ->
  exists i, (Dial sd rnd dialf retries).1 = Ok i /\ dialf i = true.
Proof.
  intros Hlen Hj Hd. unfold Dial.
  destruct (select_some sd rnd) as [i Es]; [by intros E; rewrite E in Hj; apply elem_of_nil in Hj|].
  destruct (select sd rnd) as [o sd1] eqn:Es'; cbn in Es; subst o.
  apply select_candidate in Es'.
  destruct (try_each_accepts dialf (attempts sd i retries) [] j) as [k Ek];
    [by apply attempts_all | done |].
  exists k; rewrite Ek; split; [done|]. by apply try_each_ok in Ek as [].
Qed.

(** ** A new dialer *)

Lemma alive_from_all k (f : nat -> string -> Forwarder) urls :
  (forall i u, fwd_health (f i u) = Alive) -> alive_from k (imap f urls) = seq k (length urls).
Proof.
  revert k f; induction urls as [|u urls IH]; intros k f Hf; cbn; [done|].
  case_decide as Ha; [|by destruct Ha]. f_equal. apply IH; intros; apply Hf.
Qed.

Lemma candidates_new urls cfg : candidates (NewStrategyDialer urls cfg) = seq 0 (length urls).
Proof.
  unfold candidates, NewStrategyDialer; cbn.
  rewrite alive_from_all by done. rewrite length_imap. by destruct urls.
Qed.

Lemma candidates_StartChecks sd : candidates (StartChecks sd) = candidates sd.
Proof. done. Qed.

Lemma rotate_0 {A} (l : list A) : rotate 0 l = l.
Proof. unfold rotate. destruct l; [done|]. rewrite Nat.Div0.mod_0_l; cbn. by rewrite app_nil_r. Qed.

(** From a new dialer, round-robin returns the forwarders in configured
    order. *)
Lemma run_rr_new urls cfg rnds :
  algorithm_of (sc_strategy cfg) = RoundRobin -> urls <> [] -> length rnds = length urls ->
  (run (StartChecks (NewStrategyDialer urls cfg)) (EvSelect <$> rnds)).1 = Some <$> seq 0 (length urls).
Proof.
  intros Halgo Hne Hlen.
  rewrite run_rr_cycle; rewrite ?candidates_StartChecks, ?candidates_new; try done.
  - cbn; by rewrite rotate_0.
  - destruct urls; [done|]; discriminate.
  - by rewrite length_seq.
Qed.

Lemma is_alive_new urls cfg i : i < length urls -> is_alive (StartChecks (NewStrategyDialer urls cfg)) i = true.
Proof.
  intros Hi. apply elem_of_alive. cbn. rewrite alive_from_all by done. apply elem_of_seq; lia.
Qed.

Lemma health_inv_new_dialer maxf urls cfg f :
  1 <= maxf -> f ∈ sd_fwds (StartChecks (NewStrategyDialer urls cfg)) -> health_inv maxf f.
Proof.
  cbn. intros Hm (i & Hf)%list_elem_of_lookup_1. rewrite list_lookup_imap in Hf.
  destruct (urls !! i); cbn in Hf; simplify_eq. by apply health_inv_new.
Qed.

Lemma select_algo sd rnd : sd_algo (select sd rnd).2 = sd_algo sd.
Proof. unfold select, rr_select, ha_select. destruct (sd_algo sd) eqn:E; repeat case_match; cbn; by rewrite ?E. Qed.

Lemma run_algo sd evs : sd_algo (run sd evs).2 = sd_algo sd.
Proof.
  induction evs as [|[rnd | i ok lat now] evs IH] in sd |- *; cbn; [done| |].
  - destruct (select sd rnd) as [o sd1] eqn:Es. destruct (run sd1 evs) as [os sd2] eqn:Er; cbn.
    rewrite <- (select_algo sd rnd), Es; cbn. by rewrite <- (IH sd1), Er.
  - by rewrite IH, check_result_algo.
Qed.

(** When the candidates are the forwarders [0 .. n-1], the random
    selection picks forwarder [rnd mod n], for every draw. *)
Lemma random_select_seq sd n rnd :
  candidates sd = seq 0 n ->
  random_select sd rnd = match n with 0 => None | _ => Some (rnd mod n) end.
Proof.
  unfold random_select. intros Hc. rewrite Hc. destruct n as [|m]; [done|].
  change (seq 0 (S m) !! (rnd mod length (seq 0 (S m))) = Some (rnd mod S m)).
  rewrite length_seq, lookup_seq_lt by (apply Nat.mod_upper_bound; lia). done.
Qed.

End StrategyFacts.
