(* ===== verification/StrategyInv.v ===== *)
(** * Invariants of a running strategy dialer (spec 4.3, 5, 8.3-8.5, 8.8)

    A strategy dialer evolves by two kinds of steps, interleaved in any
    order: selections (one per dial) and health-check results (one per
    probe of one forwarder).  [run] executes such an interleaving.  This
    file shows:
    - the dialer invariant [dialer_inv Inv]: the configured forwarders
      (URL and priority, in order) never change, every forwarder
      satisfies [Inv], and the active forwarder of high-availability is
      an index of the list; for every per-forwarder invariant [Inv] of
      the health checker (one that new forwarders satisfy and every
      checker step preserves, such as [health_inv]), every step of the
      dialer preserves it and a new, started dialer satisfies it;
    - bounds: every selection of every interleaving returns an index of
      the forwarder list, never [None] when there are forwarders.
    Each step of the model replaces a whole value (spec 5: single-writer
    snapshots), so a selection reads either the state before or the
    state after a health update, and both satisfy [dialer_inv]. *)

From stdpp Require Import sets.
From S2P Require Import Prelude.
From S2P Require Import Strategy.

Set Warnings "-clear-no-such-hyp".

Module StrategyInv.
Import Strategy StrategyFacts.

(** The configured part of each forwarder. *)
Definition config_of (sd : StrategyDialer) : list (string * nat) :=
  (fun f => (fwd_url f, fwd_priority f)) <$> sd_fwds sd.

Section Lift.
(** A per-forwarder invariant of the health checker, for a threshold
    [maxf] of at least one. *)
Context (Inv : nat -> Forwarder -> Prop).
Context (Inv_new : forall maxf, 1 <= maxf -> forall url prio, Inv maxf (NewForwarder url prio)).
Context (Inv_step : forall maxf, 1 <= maxf -> forall f f', Inv maxf f -> hc_step maxf f f' -> Inv maxf f').

Record dialer_inv (cfg0 : list (string * nat)) (sd : StrategyDialer) : Prop := {
  inv_config : config_of sd = cfg0;
  inv_maxf : 1 <= sd_max_failures sd;
  inv_fwds : Forall (Inv (sd_max_failures sd)) (sd_fwds sd);
  inv_active : sd_fwds sd <> [] -> sd_active sd < length (sd_fwds sd);
}.

(** ** The shape of one step *)

(** A selection changes at most the cursor or the active forwarder, and
    makes active only a candidate. *)
Lemma select_cases sd rnd :
  (select sd rnd).2 = sd \/ (exists c, (select sd rnd).2 = with_cursor sd c) \/
  (exists j, j ∈ candidates sd /\ (select sd rnd).2 = with_active sd j).
Proof.
  unfold select, rr_select, ha_select.
  destruct (sd_algo sd); repeat case_match; simplify_eq/=; eauto.
  right; right. match goal with H : best_of _ _ = Some _ |- _ => apply best_of_spec in H as [? _] end.
  eauto.
Qed.

Lemma fwds_select sd rnd : sd_fwds (select sd rnd).2 = sd_fwds sd.
Proof. by destruct (select_cases sd rnd) as [-> | [[c ->] | (j & _ & ->)]]. Qed.

Lemma maxf_select sd rnd : sd_max_failures (select sd rnd).2 = sd_max_failures sd.
Proof. by destruct (select_cases sd rnd) as [-> | [[c ->] | (j & _ & ->)]]. Qed.

(** A health result replaces forwarder [i] by its probed version. *)
Lemma check_result_fwds sd i ok lat now :
  sd_fwds (check_result sd i ok lat now) =
  match sd_fwds sd !! i with
  | Some f => <[i := if ok then probe_ok f lat now else probe_fail (sd_max_failures sd) f now]> (sd_fwds sd)
  | None => sd_fwds sd
  end.
Proof. unfold check_result. by destruct (sd_fwds sd !! i). Qed.

Lemma maxf_check sd i ok lat now : sd_max_failures (check_result sd i ok lat now) = sd_max_failures sd.
Proof. unfold check_result. by destruct (sd_fwds sd !! i). Qed.

Lemma length_check sd i ok lat now : length (sd_fwds (check_result sd i ok lat now)) = length (sd_fwds sd).
Proof. rewrite check_result_fwds. destruct (sd_fwds sd !! i); [apply length_insert | done]. Qed.

Lemma length_run sd evs : length (sd_fwds (run sd evs).2) = length (sd_fwds sd).
Proof.
  induction evs as [|[rnd | i ok lat now] evs IH] in sd |- *; cbn; [done| |].
  - destruct (select sd rnd) as [o sd1] eqn:Es. destruct (run sd1 evs) as [os sd2] eqn:Er; cbn.
    rewrite <- (fwds_select sd rnd), Es; cbn. by rewrite <- (IH sd1), Er.
  - by rewrite IH, length_check.
Qed.

Lemma maxf_run sd evs : sd_max_failures (run sd evs).2 = sd_max_failures sd.
Proof.
  induction evs as [|[rnd | i ok lat now] evs IH] in sd |- *; cbn; [done| |].
  - destruct (select sd rnd) as [o sd1] eqn:Es. destruct (run sd1 evs) as [os sd2] eqn:Er; cbn.
    rewrite <- (maxf_select sd rnd), Es; cbn. by rewrite <- (IH sd1), Er.
  - by rewrite IH, maxf_check.
Qed.

(** ** Preservation *)

Lemma dialer_inv_select cfg0 sd rnd : dialer_inv cfg0 sd -> dialer_inv cfg0 (select sd rnd).2.
Proof.
  intros [Hc Hm Hh Ha]. split; rewrite ?fwds_select, ?maxf_select; try done.
  - unfold config_of. by rewrite fwds_select.
  - destruct (select_cases sd rnd) as [-> | [[c ->] | (j & Hj & ->)]]; [done | done|].
    intros _. by apply candidates_lt.
Qed.

Lemma dialer_inv_check cfg0 sd i ok lat now :
  dialer_inv cfg0 sd -> dialer_inv cfg0 (check_result sd i ok lat now).
Proof.
  intros [Hc Hm Hh Ha]. split; rewrite ?maxf_check; try done.
  - unfold config_of. rewrite check_result_fwds. destruct (sd_fwds sd !! i) as [f|] eqn:Ef; [|done].
    rewrite list_fmap_insert, list_insert_id; [done|].
    rewrite list_lookup_fmap, Ef. by destruct ok.
  - rewrite check_result_fwds. destruct (sd_fwds sd !! i) as [f|] eqn:Ef; [|done].
    apply Forall_insert; [done|]. eapply Inv_step; [done | by eapply Forall_lookup_1 |].
    destruct ok; constructor.
  - rewrite length_check. unfold check_result. destruct (sd_fwds sd !! i) as [f|] eqn:Ef; [|done].
    cbn. intros _. apply Ha. by intros E; rewrite E in Ef.
Qed.

Lemma dialer_inv_run cfg0 sd evs : dialer_inv cfg0 sd -> dialer_inv cfg0 (run sd evs).2.
Proof.
  induction evs as [|[rnd | i ok lat now] evs IH] in sd |- *; cbn; intros Hi; [done| |].
  - destruct (select sd rnd) as [o sd1] eqn:Es. destruct (run sd1 evs) as [os sd2] eqn:Er; cbn.
    specialize (IH sd1); rewrite Er in IH. apply IH.
    replace sd1 with (select sd rnd).2 by (by rewrite Es). by apply dialer_inv_select.
  - by apply IH, dialer_inv_check.
Qed.

Lemma dialer_inv_new urls cfg :
  1 <= sc_max_failures cfg ->
  dialer_inv (imap (fun i u => (u, length urls - i)) urls) (StartChecks (NewStrategyDialer urls cfg)).
Proof.
  intros Hm. split; cbn.
  - unfold config_of; cbn. by rewrite fmap_imap.
  - done.
  - apply Forall_lookup. intros i f. rewrite list_lookup_imap.
    destruct (urls !! i); cbn; intros ?; simplify_eq. by apply Inv_new.
  - rewrite length_imap. destruct urls; cbn; [done | lia].
Qed.

End Lift.

(** ** Bounds *)

(** Every selection of every interleaving returns an index of the
    forwarder list. *)
Lemma run_bound sd evs :
  sd_fwds sd <> [] ->
  Forall (fun o => exists i, o = Some i /\ i < length (sd_fwds sd)) (run sd evs).1.
Proof.
  induction evs as [|[rnd | i ok lat now] evs IH] in sd |- *; cbn; intros Hne; [constructor| |].
  - destruct (select_some sd rnd) as [j Ej]; [by rewrite candidates_nil|].
    destruct (select sd rnd) as [o sd1] eqn:Es. destruct (run sd1 evs) as [os sd2] eqn:Er; cbn in *.
    subst o. constructor.
    + exists j; split; [done|]. apply candidates_lt. by eapply select_candidate.
    + assert (Hf : sd_fwds sd1 = sd_fwds sd) by (by rewrite <- (fwds_select sd rnd), Es).
      rewrite <- Hf. specialize (IH sd1); rewrite Er in IH. apply IH. by rewrite Hf.
  - specialize (IH (check_result sd i ok lat now)). rewrite length_check in IH.
    apply IH. intros E%(f_equal length). rewrite length_check in E. by apply Hne, nil_length_inv.
Qed.

End StrategyInv.
