(* ===== verification/Rule.v ===== *)
(** * The rule dialer (spec 4.4)

    [rule/] is not among the staged sources; it is modelled from spec
    4.4.  A rule dialer holds the rules in configured order, each with a
    strategy dialer of its own, its domain patterns, its IP set and its
    CIDRs, and a default strategy dialer.  A destination host that is an
    IPv4 literal is matched against the IP sets and CIDRs, any other host
    against the domain patterns (exact, or a suffix after a dot); the
    first rule that matches routes it, the default dialer otherwise.
    [AddDomainIP] adds an address learned from a DNS answer to the IP set
    of every rule whose patterns match the domain, which is how a
    connection to the resolved address follows the domain's rule.
    IPv6 literals are not modelled: a host that does not parse as IPv4
    is matched as a domain. *)

From stdpp Require Import sets gmap.
From S2P Require Import Prelude.
From S2P Require Import Strategy.

Set Warnings "-clear-no-such-hyp".

Module Rule.
Import Strategy.

(** ** IPv4 literals *)

Definition digit_value (c : ascii) : option Z :=
  let n := Z.of_N (N_of_ascii c) in
  if decide (48 <= n <= 57)%Z then Some (n - 48)%Z else None.

Fixpoint parse_digits (s : string) (acc : Z) : option Z :=
  match s with
  | EmptyString => Some acc
  | String c s' => d ← digit_value c; parse_digits s' (acc * 10 + d)%Z
  end.

(** A decimal octet: one to three digits, at most 255. *)
Definition parse_octet (s : string) : option Z :=
  if decide (1 <= String.length s <= 3) then
    v ← parse_digits s 0; if decide (v <= 255)%Z then Some v else None
  else None.

(** [strings.Split(s, sep)] on a one-character separator. *)
Fixpoint split_on (sep : ascii) (s : string) : list string :=
  match s with
  | EmptyString => [EmptyString]
  | String c s' =>
      if decide (c = sep) then EmptyString :: split_on sep s'
      else match split_on sep s' with
           | w :: ws => String c w :: ws
           | [] => [String c EmptyString]
           end
  end.

Definition dot : ascii := "."%char.
Definition slash : ascii := "/"%char.

Definition parse_ipv4 (s : string) : option Z :=
  match split_on dot s with
  | [a; b; c; d] =>
      a' ← parse_octet a; b' ← parse_octet b; c' ← parse_octet c; d' ← parse_octet d;
      Some (Z.lor (Z.shiftl a' 24) (Z.lor (Z.shiftl b' 16) (Z.lor (Z.shiftl c' 8) d')))
  | _ => None
  end.

(** A CIDR [a.b.c.d/n] as its base address and prefix length. *)
Definition parse_cidr (s : string) : option (Z * nat) :=
  match split_on slash s with
  | [ip; len] =>
      base ← parse_ipv4 ip; n ← parse_digits len 0;
      if decide (String.length len <> 0%nat /\ (0 <= n <= 32)%Z) then Some (base, Z.to_nat n) else None
  | _ => None
  end.

Definition cidr_contains (c : Z * nat) (ip : Z) : bool :=
  Z.eqb (Z.shiftr ip (32 - Z.of_nat c.2)) (Z.shiftr c.1 (32 - Z.of_nat c.2)).

(** ** Domains *)

Definition ends_with (suffix s : string) : bool :=
  let n := String.length s in
  let k := String.length suffix in
  (k <=? n) && String.eqb (substring (n - k) k s) suffix.

(** Pattern [pat] matches [host] exactly or as a parent domain. *)
Definition domain_matches (pat host : string) : bool :=
  String.eqb host pat || ends_with (String dot pat) host.

(** ** Rules *)

(** A rule file's settings ([rule.Config]). *)
Record RuleConf : Type := mkRuleConf {
  rc_name : string;
  rc_forward : list string;
  rc_strategy : StrategyConfig;
  rc_dns_servers : list string;
  rc_ipset : string;
  rc_domain : list string;
  rc_ip : list string;
  rc_cidr : list string;
}.

Record Rule : Type := mkRule {
  r_conf : RuleConf;
  r_dialer : StrategyDialer;
  r_ips : gset string;
  r_cidrs : list (Z * nat);
}.

Record RuleDialer : Type := mkRuleDialer {
  rd_rules : list Rule;
  rd_default : StrategyDialer;
}.

Definition NewRule (rc : RuleConf) : Rule :=
  mkRule rc (NewStrategyDialer (rc_forward rc) (rc_strategy rc))
    (list_to_set (rc_ip rc)) (omap parse_cidr (rc_cidr rc)).

(** [rule.NewDialer(rules, defaultDialer)]; CIDRs that do not parse are
    dropped. *)
Definition NewRuleDialer (rules : list RuleConf) (default : StrategyDialer) : RuleDialer :=
  mkRuleDialer (NewRule <$> rules) default.

Definition rule_matches (r : Rule) (host : string) : bool :=
  match parse_ipv4 host with
  | Some ip => bool_decide (host ∈ r_ips r) || existsb (fun c => cidr_contains c ip) (r_cidrs r)
  | None => existsb (fun pat => domain_matches pat host) (rc_domain (r_conf r))
  end.

Inductive Route : Type := RouteRule (i : nat) | RouteDefault.

#[export] Instance Route_eq_dec : EqDecision Route.
Proof. solve_decision. Defined.

(** The first rule matching [host]. *)
Definition route (rd : RuleDialer) (host : string) : Route :=
  match list_find (fun r => rule_matches r host = true) (rd_rules rd) with
  | Some (i, _) => RouteRule i
  | None => RouteDefault
  end.

(** [Dialer(dst)]: the strategy dialer [dst]'s host routes to. *)
Definition Dialer (rd : RuleDialer) (host : string) : StrategyDialer :=
  match route rd host with
  | RouteRule i => default (rd_default rd) (r_dialer <$> rd_rules rd !! i)
  | RouteDefault => rd_default rd
  end.

Definition owns (r : Rule) (domain : string) : bool :=
  existsb (fun pat => domain_matches pat domain) (rc_domain (r_conf r)).

Definition add_ip (ip : string) (r : Rule) : Rule :=
  mkRule (r_conf r) (r_dialer r) ({[ip]} ∪ r_ips r) (r_cidrs r).

(** [AddDomainIP(domain, ip)]: publish a new IP set, with [ip] added,
    for every rule whose patterns match [domain]. *)
Definition AddDomainIP (rd : RuleDialer) (domain ip : string) : RuleDialer :=
  mkRuleDialer ((fun r => if owns r domain then add_ip ip r else r) <$> rd_rules rd) (rd_default rd).

(** [Check()]: start the health checkers of every strategy dialer. *)
Definition Check (rd : RuleDialer) : RuleDialer :=
  mkRuleDialer ((fun r => mkRule (r_conf r) (StartChecks (r_dialer r)) (r_ips r) (r_cidrs r)) <$> rd_rules rd)
    (StartChecks (rd_default rd)).

End Rule.

Module RuleFacts.
Import Strategy Rule.

Definition learn (d ip : string) (r : Rule) : Rule := if owns r d then add_ip ip r else r.

Lemma AddDomainIP_rules rd d ip : rd_rules (AddDomainIP rd d ip) = learn d ip <$> rd_rules rd.
Proof. done. Qed.

Lemma rule_matches_domain r h : parse_ipv4 h = None -> rule_matches r h = owns r h.
Proof. unfold rule_matches; by intros ->. Qed.

Lemma learn_conf d ip r : r_conf (learn d ip r) = r_conf r.
Proof. unfold learn; by destruct (owns r d). Qed.

Lemma learn_dialer d ip r : r_dialer (learn d ip r) = r_dialer r.
Proof. unfold learn; by destruct (owns r d). Qed.

Lemma owns_learn d ip r h : owns (learn d ip r) h = owns r h.
Proof. unfold owns; by rewrite learn_conf. Qed.

Lemma list_find_fmap_S {A} (P : A -> Prop) `{!forall x, Decision (P x)} x l :
  list_find P (x :: l) = if decide (P x) then Some (0, x) else prod_map S id <$> list_find P l.
Proof. done. Qed.

(** Indices of the first match in two lists, when the predicates agree
    pointwise on the corresponding elements. *)
Lemma list_find_index_agree {A B} (P : A -> Prop) (Q : B -> Prop)
  `{!forall x, Decision (P x)} `{!forall y, Decision (Q y)} (l : list A) (g : A -> B) :
  (forall x, x ∈ l -> P x <-> Q (g x)) ->
  fst <$> list_find Q (g <$> l) = fst <$> list_find P l.
Proof.
  induction l as [|x l IH]; intros Hpq; [done|]. cbn.
  assert (Hx : P x <-> Q (g x)) by (apply Hpq; left).
  do 2 case_decide; try tauto.
  specialize (IH ltac:(intros y Hy; apply Hpq; by right)).
  destruct (list_find Q (g <$> l)) as [[]|], (list_find P l) as [[]|]; cbn in *; congruence.
Qed.

Lemma route_index rd h :
  route rd h = match fst <$> list_find (fun r => rule_matches r h = true) (rd_rules rd) with
               | Some i => RouteRule i | None => RouteDefault end.
Proof. unfold route. by destruct (list_find _ _) as [[]|]. Qed.

(** Learning an address does not change the routing of domain names. *)
Lemma route_AddDomainIP_domain rd d ip h :
  parse_ipv4 h = None -> route (AddDomainIP rd d ip) h = route rd h.
Proof.
  intros Hh. rewrite !route_index, AddDomainIP_rules.
  rewrite (list_find_index_agree (fun r => rule_matches r h = true) (fun r => rule_matches r h = true)); [done|].
  intros r _. by rewrite !rule_matches_domain, owns_learn.
Qed.

Lemma rule_matches_add_ip r ip z : parse_ipv4 ip = Some z -> rule_matches (add_ip ip r) ip = true.
Proof.
  unfold rule_matches; intros ->; cbn. apply orb_true_intro; left.
  apply bool_decide_eq_true; set_solver.
Qed.

(** An address learned for domain [d] routes like [d], when no rule that
    does not own [d] already matches the address. *)
Lemma route_learned rd d ip z :
  parse_ipv4 d = None -> parse_ipv4 ip = Some z ->
  (forall r, r ∈ rd_rules rd -> rule_matches r ip = true -> owns r d = true) ->
  route (AddDomainIP rd d ip) ip = route rd d.
Proof.
  intros Hd Hip Hfresh. rewrite !route_index, AddDomainIP_rules.
  rewrite (list_find_index_agree (fun r => rule_matches r d = true) (fun r => rule_matches r ip = true)); [done|].
  intros r Hr. rewrite rule_matches_domain by done. unfold learn.
  destruct (owns r d) eqn:Eo.
  - split; [intros _; by eapply rule_matches_add_ip | done].
  - split; [discriminate|]. intros Hm. rewrite (Hfresh r Hr Hm) in Eo; discriminate.
Qed.

Lemma Dialer_route rd h i r :
  route rd h = RouteRule i -> rd_rules rd !! i = Some r -> Dialer rd h = r_dialer r.
Proof. unfold Dialer; intros -> ->; done. Qed.

Lemma route_lt rd h i : route rd h = RouteRule i -> is_Some (rd_rules rd !! i).
Proof.
  unfold route. destruct (list_find _ _) as [[j r]|] eqn:E; [|discriminate].
  intros [= <-]. apply list_find_Some in E as (Hj & _); eauto.
Qed.

Lemma Dialer_AddDomainIP rd d ip h h' :
  route (AddDomainIP rd d ip) h = route rd h' -> Dialer (AddDomainIP rd d ip) h = Dialer rd h'.
Proof.
  unfold Dialer; intros Hr. rewrite Hr. destruct (route rd h') as [i|]; [|done].
  rewrite AddDomainIP_rules, list_lookup_fmap. cbn.
  destruct (rd_rules rd !! i); cbn; [by rewrite learn_dialer | done].
Qed.

(** Starting the checkers does not change routing. *)
Lemma route_Check rd h : route (Check rd) h = route rd h.
Proof.
  rewrite !route_index. cbn. rewrite (list_find_index_agree (fun r => rule_matches r h = true) (fun r => rule_matches r h = true)); [done|].
  intros r _; unfold rule_matches; done.
Qed.

(** Learning the addresses [ips] of [d] one after the other. *)
Definition learn_all (d : string) (ips : list string) (r : Rule) : Rule :=
  if owns r d then mkRule (r_conf r) (r_dialer r) (list_to_set ips ∪ r_ips r) (r_cidrs r) else r.

Lemma learn_all_nil d r : learn_all d [] r = r.
Proof.
  unfold learn_all; destruct (owns r d); [|done]. destruct r; cbn; f_equal. set_solver.
Qed.

Lemma rd_rules_learned rd d ips :
  rd_rules (foldl (fun rd ip => AddDomainIP rd d ip) rd ips) = learn_all d ips <$> rd_rules rd.
Proof.
  revert rd; induction ips as [|ip ips IH]; intros rd; cbn.
  - symmetry; rewrite <- (list_fmap_id (rd_rules rd)) at 2. apply list_fmap_ext; intros; apply learn_all_nil.
  - rewrite IH, AddDomainIP_rules, <- list_fmap_compose. apply list_fmap_ext; intros i r _.
    unfold compose, learn_all, learn. destruct (owns r d) eqn:E; cbn; [|by rewrite E].
    unfold owns at 1; cbn; fold (owns r d); rewrite E; f_equal. set_solver.
Qed.

(** Every address an answer resolves [d] to routes like [d], when no
    rule that does not own [d] already matches it. *)
Lemma route_learned_all rd d ips ip z :
  parse_ipv4 d = None -> parse_ipv4 ip = Some z -> ip ∈ ips ->
  (forall r, r ∈ rd_rules rd -> rule_matches r ip = true -> owns r d = true) ->
  route (foldl (fun rd ip => AddDomainIP rd d ip) rd ips) ip = route rd d.
Proof.
  intros Hd Hip Hin Hfresh. rewrite !route_index, rd_rules_learned.
  rewrite (list_find_index_agree (fun r => rule_matches r d = true) (fun r => rule_matches r ip = true)); [done|].
  intros r Hr. rewrite rule_matches_domain by done. unfold learn_all.
  destruct (owns r d) eqn:Eo.
  - split; [intros _ | done]. unfold rule_matches; rewrite Hip; cbn.
    apply orb_true_intro; left; apply bool_decide_eq_true. set_solver.
  - split; [discriminate|]. intros Hm. rewrite (Hfresh r Hr Hm) in Eo; discriminate.
Qed.

Lemma route_learned_all_domain rd d ips h :
  parse_ipv4 h = None -> route (foldl (fun rd ip => AddDomainIP rd d ip) rd ips) h = route rd h.
Proof.
  intros Hh. revert rd; induction ips as [|ip ips IH]; intros rd; cbn; [done|].
  rewrite IH. by apply route_AddDomainIP_domain.
Qed.

Lemma Dialer_learned_all rd d ips h h' :
  route (foldl (fun rd ip => AddDomainIP rd d ip) rd ips) h = route rd h' ->
  Dialer (foldl (fun rd ip => AddDomainIP rd d ip) rd ips) h = Dialer rd h'.
Proof.
  unfold Dialer; intros Hr. rewrite Hr. destruct (route rd h') as [i|]; [|].
  - rewrite rd_rules_learned, list_lookup_fmap.
    assert (Hdef : forall ips rd, rd_default (foldl (fun rd ip => AddDomainIP rd d ip) rd ips) = rd_default rd)
      by (intros ips' ; induction ips' as [|? ? IH']; intros rd'; cbn; [done|]; by rewrite IH').
    rewrite Hdef. destruct (rd_rules rd !! i) as [r|]; cbn; [|done].
    unfold learn_all; by destruct (owns r d).
  - induction ips as [|? ? IH'] in rd |- *; cbn; [done|]. by rewrite IH'.
Qed.

End RuleFacts.
