(* ===== verification/RuleSpec.v ===== *)
(** * An abstract specification of the rule dialer (spec 4.4, 5, 8.1, 8.2)

    The contract of [rule.Dialer] without its snapshots: the configured
    rules in order and the history of DNS answers [(domain, ip)] seen
    so far.  A host is routed to the first rule whose patterns match it
    (a name), or whose configured IPs or CIDRs or learned addresses
    contain it (an IPv4 literal); the default dialer otherwise.  An
    address is learned by a rule when the answer's domain matches one of
    the rule's patterns.

    [Refines mk def rd A] relates a concrete [RuleDialer] to an
    abstract state: the rules are the configured ones in order, each
    with the dialer [mk] builds for it and with the IP set "configured
    addresses plus the addresses of the answers it owns"; the default
    dialer is [def].  The concrete operations refine the abstract ones:
    [NewRuleDialer] starts from the empty history, [AddDomainIP] is the
    abstract [learn] step, [Check] is a stutter step that only starts
    the dialers, and [route] and [Dialer] compute the abstract routing.
    So whatever snapshots a reader sees, it routes as the abstract
    specification of the history published so far. *)

From stdpp Require Import sets gmap.
From S2P Require Import Prelude.
From S2P Require Import Strategy.
From S2P Require Import Rule.
Set Warnings "-clear-no-such-hyp".

Module RuleSpec.
Import Strategy Rule RuleFacts.

Record Spec : Type := mkSpec {
  sp_rules : list RuleConf;
  sp_learned : list (string * string);
}.

Definition owns_conf (rc : RuleConf) (d : string) : bool :=
  existsb (fun pat => domain_matches pat d) (rc_domain rc).

(** [host] was learned by [rc]: an answer for a domain [rc] owns
    resolved to it. *)
Definition learned_by (rc : RuleConf) (L : list (string * string)) (host : string) : bool :=
  existsb (fun '(d, ip) => String.eqb ip host && owns_conf rc d) L.

Definition spec_matches (rc : RuleConf) (L : list (string * string)) (host : string) : bool :=
  match parse_ipv4 host with
  | Some ip =>
      bool_decide (host ∈ rc_ip rc) || learned_by rc L host
      || existsb (fun c => cidr_contains c ip) (omap parse_cidr (rc_cidr rc))
  | None => owns_conf rc host
  end.

Definition spec_route (A : Spec) (host : string) : Route :=
  match list_find (fun rc => spec_matches rc (sp_learned A) host = true) (sp_rules A) with
  | Some (i, _) => RouteRule i
  | None => RouteDefault
  end.

Definition spec_Dialer (mk : RuleConf -> StrategyDialer) (def : StrategyDialer) (A : Spec)
  (host : string) : StrategyDialer :=
  match spec_route A host with
  | RouteRule i => default def (mk <$> sp_rules A !! i)
  | RouteDefault => def
  end.

Definition spec_learn (A : Spec) (d ip : string) : Spec :=
  mkSpec (sp_rules A) ((d, ip) :: sp_learned A).

(** An answer resolving [d] to [ips], one address at a time. *)
Definition spec_answer (A : Spec) (d : string) (ips : list string) : Spec :=
  foldl (fun A ip => spec_learn A d ip) A ips.

(** ** The refinement relation *)

Definition learned_ips (rc : RuleConf) (L : list (string * string)) : gset string :=
  list_to_set (rc_ip rc) ∪ list_to_set (omap (fun '(d, ip) => if owns_conf rc d then Some ip else None) L).

(** The routing state of a rule is that of [rc] after the answers [L]. *)
Definition rule_routes (L : list (string * string)) (r : Rule) (rc : RuleConf) : Prop :=
  r_conf r = rc /\ r_ips r = learned_ips rc L /\ r_cidrs r = omap parse_cidr (rc_cidr rc).

(** A rule dialer routes as [A], whatever the state of its strategy
    dialers. *)
Definition RoutesAs (rd : RuleDialer) (A : Spec) : Prop :=
  Forall2 (rule_routes (sp_learned A)) (rd_rules rd) (sp_rules A).

Definition rule_refines (mk : RuleConf -> StrategyDialer) (L : list (string * string))
  (r : Rule) (rc : RuleConf) : Prop :=
  r_conf r = rc /\ r_dialer r = mk rc /\ r_ips r = learned_ips rc L /\
  r_cidrs r = omap parse_cidr (rc_cidr rc).

Definition Refines (mk : RuleConf -> StrategyDialer) (def : StrategyDialer)
  (rd : RuleDialer) (A : Spec) : Prop :=
  rd_default rd = def /\ Forall2 (rule_refines mk (sp_learned A)) (rd_rules rd) (sp_rules A).

End RuleSpec.

Module RuleSpecFacts.
Import Strategy Rule RuleFacts RuleSpec.

Lemma elem_of_learned rc L h :
  h ∈ (list_to_set (omap (fun '(d, ip) => if owns_conf rc d then Some ip else None) L) : gset string)
  <-> learned_by rc L h = true.
Proof.
  induction L as [|[d ip] L IH]; cbn; [set_solver|].
  destruct (owns_conf rc d); cbn;
    rewrite ?elem_of_union, ?elem_of_singleton, IH, orb_true_iff, ?andb_true_r, ?andb_false_r,
      ?String.eqb_eq; naive_solver.
Qed.

Lemma elem_of_learned_ips rc L h :
  h ∈ learned_ips rc L <-> h ∈ rc_ip rc \/ learned_by rc L h = true.
Proof. unfold learned_ips. by rewrite elem_of_union, elem_of_list_to_set, elem_of_learned. Qed.

Lemma rule_matches_routes L r rc h :
  rule_routes L r rc -> rule_matches r h = spec_matches rc L h.
Proof.
  intros (<- & Hips & Hc). unfold rule_matches, spec_matches.
  destruct (parse_ipv4 h); [|done]. rewrite Hips, Hc. f_equal.
  apply Bool.eq_iff_eq_true. rewrite orb_true_iff, !bool_decide_eq_true, elem_of_learned_ips. tauto.
Qed.

Lemma Refines_RoutesAs mk def rd A : Refines mk def rd A -> RoutesAs rd A.
Proof.
  intros [_ HF]. eapply Forall2_impl; [exact HF|]. by intros r rc (? & _ & ? & ?).
Qed.

(** The concrete first-match routing computes the abstract one. *)
Lemma route_RoutesAs rd A h : RoutesAs rd A -> route rd h = spec_route A h.
Proof.
  intros HF. rewrite route_index. unfold spec_route.
  erewrite (list_find_Forall2 _ _ (fun rc => spec_matches rc (sp_learned A) h = true)); [| exact HF |].
  - by destruct (list_find _ (sp_rules A)) as [[]|].
  - intros r rc Hr. by rewrite (rule_matches_routes _ _ _ h Hr).
Qed.

Lemma route_refines mk def rd A h : Refines mk def rd A -> route rd h = spec_route A h.
Proof. intros HR. by apply route_RoutesAs, (Refines_RoutesAs mk def). Qed.

Lemma Dialer_refines mk def rd A h : Refines mk def rd A -> Dialer rd h = spec_Dialer mk def A h.
Proof.
  intros HR. unfold Dialer, spec_Dialer. rewrite (route_refines _ _ _ _ h HR).
  destruct HR as [-> HF]. destruct (spec_route A h) as [i|]; [|done].
  pose proof (proj1 (Forall2_lookup _ _ _) HF i) as Hi.
  destruct Hi as [r rc (_ & Hm & _)|]; cbn; [by rewrite Hm | done].
Qed.

(** [NewRuleDialer] starts from the empty history. *)
Lemma Refines_new confs def :
  Refines (fun rc => NewStrategyDialer (rc_forward rc) (rc_strategy rc)) def
    (NewRuleDialer confs def) (mkSpec confs []).
Proof.
  split; [done|]. cbn. induction confs as [|rc confs IH]; constructor; [|done].
  unfold rule_refines, NewRule, learned_ips; cbn. by rewrite union_empty_r_L.
Qed.

(** [Check] is a stutter step: it starts the dialers and changes no
    routing state. *)
Lemma Refines_Check mk def rd A :
  Refines mk def rd A -> Refines (fun rc => StartChecks (mk rc)) (StartChecks def) (Check rd) A.
Proof.
  intros [Hd HF]. split; [by cbn; rewrite Hd|]. cbn. apply Forall2_fmap_l.
  eapply Forall2_impl; [done|]. intros r rc (? & Hm & ? & ?). unfold compose, rule_refines; cbn.
  by rewrite Hm.
Qed.

(** A rule learns [(d, ip)] as the abstract history does. *)
Lemma learn_routes L r d ip :
  r_ips r = learned_ips (r_conf r) L -> r_ips (learn d ip r) = learned_ips (r_conf r) ((d, ip) :: L).
Proof.
  intros Hi. unfold learn, learned_ips. change (owns r d) with (owns_conf (r_conf r) d).
  cbn [omap]. destruct (owns_conf (r_conf r) d) eqn:Ho; cbn; rewrite Hi; unfold learned_ips;
    cbv beta iota; rewrite Ho; set_solver.
Qed.

(** [AddDomainIP] refines the abstract [learn] step. *)
Lemma Refines_AddDomainIP mk def rd A d ip :
  Refines mk def rd A -> Refines mk def (AddDomainIP rd d ip) (spec_learn A d ip).
Proof.
  intros [Hd HF]. split; [done|]. rewrite AddDomainIP_rules. cbn. apply Forall2_fmap_l.
  eapply Forall2_impl; [done|]. intros r rc (<- & Hm & Hi & Hc).
  unfold compose, rule_refines. rewrite learn_conf, learn_dialer, (learn_routes _ _ _ _ Hi).
  repeat split; [done|]. unfold learn. by destruct (owns r d).
Qed.

Lemma RoutesAs_AddDomainIP rd A d ip :
  RoutesAs rd A -> RoutesAs (AddDomainIP rd d ip) (spec_learn A d ip).
Proof.
  intros HF. unfold RoutesAs. rewrite AddDomainIP_rules. cbn. apply Forall2_fmap_l.
  eapply Forall2_impl; [done|]. intros r rc (<- & Hi & Hc).
  unfold compose, rule_routes. rewrite learn_conf, (learn_routes _ _ _ _ Hi).
  repeat split. unfold learn. by destruct (owns r d).
Qed.

Lemma RoutesAs_answer rd A d ips :
  RoutesAs rd A -> RoutesAs (foldl (fun rd ip => AddDomainIP rd d ip) rd ips) (spec_answer A d ips).
Proof.
  unfold spec_answer. induction ips as [|ip ips IH] in rd, A |- *; cbn; [done|].
  intros HR. by apply IH, RoutesAs_AddDomainIP.
Qed.

Lemma Refines_answer mk def rd A d ips :
  Refines mk def rd A ->
  Refines mk def (foldl (fun rd ip => AddDomainIP rd d ip) rd ips) (spec_answer A d ips).
Proof.
  unfold spec_answer. induction ips as [|ip ips IH] in rd, A |- *; cbn; [done|].
  intros HR. by apply IH, Refines_AddDomainIP.
Qed.

End RuleSpecFacts.
