(* ===== verification/Dns.v ===== *)
(** * The DNS server, as main uses it (spec 4.5)

    [dns/] is not among the staged sources; it is modelled from spec
    4.5 as far as [main] depends on it: the server is built from a
    listen address and a configuration, holds per-domain upstream
    overrides ([SetServers]) and a list of handlers ([AddHandler]) and,
    once started, notifies every handler, in registration order, of each
    address an answer resolves.  Query parsing and forwarding are not
    modelled.  The handler type is a parameter: [main] registers method
    values bound to its own objects. *)

From S2P Require Import Prelude.
From S2P Require Import Rule.

Module Dns.
Import Rule.

Record DnsConfig : Type := mkDnsConfig {
  dc_servers : list string;
  dc_timeout : Z;
  dc_max_ttl : Z;
  dc_min_ttl : Z;
  dc_records : list string;
  dc_always_tcp : bool;
}.

Inductive DnsError : Type := ErrListenAddr (addr : string).

Record Server (Handler : Type) : Type := mkServer {
  ds_addr : string;
  ds_config : DnsConfig;
  ds_upstream : list (string * list string);
  ds_handlers : list Handler;
  ds_started : bool;
}.
Arguments mkServer {Handler}.
Arguments ds_addr {Handler}.
Arguments ds_config {Handler}.
Arguments ds_upstream {Handler}.
Arguments ds_handlers {Handler}.
Arguments ds_started {Handler}.

(** A listen address [host:port] with a decimal port below 65536. *)
Definition valid_listen_addr (addr : string) : bool :=
  match rev (split_on ":"%char addr) with
  | port :: _ :: _ =>
      match parse_digits port 0 with
      | Some p => bool_decide (1 <= String.length port <= 5 /\ (p <= 65535)%Z)
      | None => false
      end
  | _ => false
  end.

Section Server.
Context {Handler : Type}.

(** [dns.NewServer(addr, dialer, config)]. *)
Definition NewServer (addr : string) (cfg : DnsConfig) : result DnsError (Server Handler) :=
  if valid_listen_addr addr then Ok (mkServer addr cfg [] [] false) else Err (ErrListenAddr addr).

(** [SetServers(domain, servers...)]: the latest call for a domain wins. *)
Definition SetServers (d : Server Handler) (domain : string) (servers : list string) : Server Handler :=
  mkServer (ds_addr d) (ds_config d) ((domain, servers) :: ds_upstream d) (ds_handlers d) (ds_started d).

(** The upstream servers a query for [domain] goes to. *)
Definition GetServers (d : Server Handler) (domain : string) : list string :=
  match list_find (fun p => p.1 = domain) (ds_upstream d) with
  | Some (_, (_, servers)) => servers
  | None => dc_servers (ds_config d)
  end.

Definition AddHandler (d : Server Handler) (h : Handler) : Server Handler :=
  mkServer (ds_addr d) (ds_config d) (ds_upstream d) (ds_handlers d ++ [h]) (ds_started d).

Definition Start (d : Server Handler) : Server Handler :=
  mkServer (ds_addr d) (ds_config d) (ds_upstream d) (ds_handlers d) true.

(** An answer resolving [domain] to [ips]: every handler, in
    registration order, is called with each address; [call] runs one
    handler on the state [W] the handlers act on. *)
Definition notify {W : Type} (call : Handler -> string -> string -> W -> W)
  (d : Server Handler) (domain : string) (ips : list string) (w : W) : W :=
  if ds_started d
  then fold_left (fun w h => fold_left (fun w ip => call h domain ip w) ips w) (ds_handlers d) w
  else w.

End Server.

End Dns.
