(* ===== verification/Ipset.v ===== *)
(** * The ipset manager, as main uses it (spec 4.5)

    [ipset/] is not among the staged sources; it is modelled from spec
    4.5: the manager is built from the main set's name and the rules, and
    fails when no set is configured or the kernel refuses it; its
    [AddDomainIP] hook adds an address to the kernel set of every rule
    that names one and owns the domain.  The kernel sets are a map from
    set name to its addresses. *)

From stdpp Require Import sets gmap.
From S2P Require Import Prelude.
From S2P Require Import Rule.

Module Ipset.
Import Rule.

Inductive IpsetError : Type := ErrNoSet | ErrKernel.

Record Manager : Type := mkManager {
  im_main : string;
  im_domain_sets : list (string * string);
  im_sets : gmap string (gset string);
}.

(** The (domain pattern, set name) pairs of the rules that name a set. *)
Definition domain_sets (rules : list RuleConf) : list (string * string) :=
  rules ≫= fun rc => if String.eqb (rc_ipset rc) "" then [] else (fun d => (d, rc_ipset rc)) <$> rc_domain rc.

(** [ipset.NewManager(mainSet, rules)]; [kernel_ok] is whether the
    kernel accepts the sets. *)
Definition NewManager (kernel_ok : bool) (main_set : string) (rules : list RuleConf) : result IpsetError Manager :=
  if String.eqb main_set "" then Err ErrNoSet
  else if negb kernel_ok then Err ErrKernel
  else Ok (mkManager main_set (domain_sets rules)
             (foldr (fun p m => <[p.2 := ∅]> m) {[main_set := ∅]} (domain_sets rules))).

Definition add_to_set (name ip : string) (m : gmap string (gset string)) : gmap string (gset string) :=
  <[name := {[ip]} ∪ default ∅ (m !! name)]> m.

(** [AddDomainIP(domain, ip)]. *)
Definition AddDomainIP (m : Manager) (domain ip : string) : Manager :=
  mkManager (im_main m) (im_domain_sets m)
    (foldl (fun sets p => if domain_matches p.1 domain then add_to_set p.2 ip sets else sets)
       (im_sets m) (im_domain_sets m)).

End Ipset.

Module IpsetFacts.
Import Rule Ipset.

Definition members (sets : gmap string (gset string)) (name : string) : gset string :=
  default ∅ (sets !! name).

Lemma members_add_to_set name ip sets k :
  members (add_to_set name ip sets) k = if decide (name = k) then {[ip]} ∪ members sets k else members sets k.
Proof.
  unfold members, add_to_set. case_decide as H.
  - subst. by rewrite lookup_insert_eq.
  - by rewrite lookup_insert_ne.
Qed.

Lemma members_fold_mono d ip l sets k x :
  x ∈ members sets k ->
  x ∈ members (foldl (fun sets p => if domain_matches p.1 d then add_to_set p.2 ip sets else sets) sets l) k.
Proof.
  revert sets; induction l as [|[pat name] l IH]; intros sets Hx; cbn [foldl fst snd]; [done|].
  apply IH. destruct (domain_matches pat d); [|done].
  rewrite members_add_to_set. case_decide; set_solver.
Qed.

Lemma members_fold_in d ip l sets pat name :
  (pat, name) ∈ l -> domain_matches pat d = true ->
  ip ∈ members (foldl (fun sets p => if domain_matches p.1 d then add_to_set p.2 ip sets else sets) sets l) name.
Proof.
  revert sets; induction l as [|[pat' name'] l IH]; intros sets Hin Hm; [inversion Hin|]; cbn [foldl fst snd].
  apply elem_of_cons in Hin as [[= <- <-]|Hin].
  - apply members_fold_mono. cbn [fst snd]. rewrite Hm, members_add_to_set. rewrite decide_True by done. set_solver.
  - by apply IH.
Qed.

(** After [AddDomainIP m d ip], [ip] is in the set of every rule whose
    pattern matches [d], and no address has left any set. *)
Lemma AddDomainIP_in m d ip pat name :
  (pat, name) ∈ im_domain_sets m -> domain_matches pat d = true ->
  ip ∈ members (im_sets (AddDomainIP m d ip)) name.
Proof. intros Hin Hm. by apply (members_fold_in d ip _ _ pat name). Qed.

Lemma AddDomainIP_mono m d ip k x :
  x ∈ members (im_sets m) k -> x ∈ members (im_sets (AddDomainIP m d ip)) k.
Proof. apply members_fold_mono. Qed.

Lemma AddDomainIP_domain_sets m d ip : im_domain_sets (AddDomainIP m d ip) = im_domain_sets m.
Proof. done. Qed.

Lemma elem_of_domain_sets rules rc pat :
  rc ∈ rules -> rc_ipset rc <> "" -> pat ∈ rc_domain rc -> (pat, rc_ipset rc) ∈ domain_sets rules.
Proof.
  intros Hrc Hset Hpat. unfold domain_sets. apply list_elem_of_bind. exists rc. split; [|done].
  apply String.eqb_neq in Hset. rewrite Hset. apply list_elem_of_fmap. eauto.
Qed.

Lemma NewManager_domain_sets k name rules m :
  NewManager k name rules = Ok m -> im_domain_sets m = domain_sets rules.
Proof.
  unfold NewManager. destruct (String.eqb name ""); [discriminate|]. destruct k; [|discriminate].
  by intros [= <-].
Qed.

Lemma fold_AddDomainIP_mono m d ips k x :
  x ∈ members (im_sets m) k -> x ∈ members (im_sets (fold_left (fun m ip => AddDomainIP m d ip) ips m)) k.
Proof. revert m; induction ips as [|ip' ips IH]; intros m Hx; cbn; [done|]. by apply IH, AddDomainIP_mono. Qed.

Lemma fold_AddDomainIP_in m d ips ip pat name :
  (pat, name) ∈ im_domain_sets m -> domain_matches pat d = true -> ip ∈ ips ->
  ip ∈ members (im_sets (fold_left (fun m ip => AddDomainIP m d ip) ips m)) name.
Proof.
  revert m; induction ips as [|ip' ips IH]; intros m Hin Hm Hip; [inversion Hip|]; cbn.
  apply elem_of_cons in Hip as [->|Hip].
  - apply fold_AddDomainIP_mono. by eapply AddDomainIP_in.
  - apply IH; [by rewrite AddDomainIP_domain_sets | done | done].
Qed.

End IpsetFacts.
