(* ===== verification/Proxy.v ===== *)
(** * The protocol registry, as main uses it (spec 4.1)

    [proxy/] apart from [proxy/ws/client.go] is not among the staged
    sources; the registry is modelled from spec 4.1: a listen or forward
    URL [scheme://rest] names a registered protocol; building a server
    fails with a malformed-URL error when the URL has no scheme, and with
    an unknown-scheme error when no registered protocol of that name has
    a server; building a forwarder's dialer fails in the same way when
    the scheme has no dialer.  The schemes registered are those main.go
    imports; which of them can serve and which can dial are parameters
    of the registry. *)

From S2P Require Import Prelude.
From S2P Require Import Rule.

Module Proxy.
Import Rule.

Inductive ConfigError : Type :=
| ErrMalformedURL (url : string)
| ErrUnknownScheme (scheme : string).

(** The protocol packages main.go imports for their registration. *)
Definition registered_schemes : list string :=
  ["http"; "mixed"; "socks5"; "ss"; "ssr"; "tcptun"; "tls"; "udptun"; "uottun"; "vmess"; "ws"].

(** A registry: for each scheme, whether it has a server constructor
    and whether it has a dialer constructor. *)
Record Registry : Type := mkRegistry {
  reg_schemes : list string;
  reg_has_server : string -> bool;
  reg_has_dialer : string -> bool;
}.

Definition glider_registry (has_server has_dialer : string -> bool) : Registry :=
  mkRegistry registered_schemes has_server has_dialer.

(** [scheme://rest], split at the first [://]. *)
Fixpoint split_scheme (acc s : string) : option (string * string) :=
  match s with
  | String ":" (String "/" (String "/" rest)) => Some (acc, rest)
  | String c s' => split_scheme (acc +:+ String c EmptyString) s'
  | EmptyString => None
  end.

Record LocalServer : Type := mkLocalServer {
  ls_url : string;
  ls_scheme : string;
  ls_serving : bool;
}.

(** The scheme of [scheme://rest]; a URL without a scheme or without
    anything after it is malformed. *)
Definition scheme_of (url : string) : result ConfigError string :=
  match split_scheme EmptyString url with
  | Some (scheme, rest) =>
      if String.eqb scheme "" || String.eqb rest "" then Err (ErrMalformedURL url) else Ok scheme
  | None => Err (ErrMalformedURL url)
  end.

(** [proxy.ServerFromURL(url, dialer)]; the dialer the server dispatches
    through is the process's rule dialer, shared, not copied. *)
Definition ServerFromURL (reg : Registry) (url : string) : result ConfigError LocalServer :=
  let* scheme := scheme_of url in
  if bool_decide (scheme ∈ reg_schemes reg) && reg_has_server reg scheme
  then Ok (mkLocalServer url scheme false)
  else Err (ErrUnknownScheme scheme).

(** [proxy.DialerFromURL(url, dialer)]: the scheme of the forwarder's
    protocol; the dialer itself is not modelled (a forwarder is its
    URL). *)
Definition DialerFromURL (reg : Registry) (url : string) : result ConfigError string :=
  let* scheme := scheme_of url in
  if bool_decide (scheme ∈ reg_schemes reg) && reg_has_dialer reg scheme
  then Ok scheme
  else Err (ErrUnknownScheme scheme).

(** [go local.ListenAndServe(nil)]. *)
Definition ListenAndServe (s : LocalServer) : LocalServer :=
  mkLocalServer (ls_url s) (ls_scheme s) true.

End Proxy.

Module ProxyFacts.
Import Proxy.

(** A server built from [url] listens on [url] and is not serving yet. *)
Lemma ServerFromURL_ok reg url s :
  ServerFromURL reg url = Ok s -> ls_url s = url /\ ls_serving s = false.
Proof.
  unfold ServerFromURL. destruct (scheme_of url) as [sc|]; cbn; [|discriminate].
  case_match; intros; simplify_eq; auto.
Qed.

End ProxyFacts.
