(* ===== verification/Main.v ===== *)
(** * The process: main (src/main.go)

    [main] composes the components: it builds the global rule dialer
    over a default strategy dialer (line 44), exiting when the dialer of
    a forwarder, of the default list or of a rule, cannot be built, the ipset manager, whose
    error it discards (47), the DNS server when one is configured (50-72:
    per-rule upstream overrides, the two handlers, start), enables the
    health checkers (75) and starts one server per listen URL (78-85),
    exiting on the first that cannot be built.  [main] is a function of
    the configuration [confInit] reads and of the environment (whether
    the kernel accepts the ipsets, which schemes can serve and which can
    dial); it returns
    the running process or the fatal error, with the trace of what it
    started, in order.

    The DNS server, the servers and the handlers hold references to the
    one rule dialer and the one ipset manager of the process: a
    [Process] holds each once, the DNS server's handlers are names of
    the methods ([Handler]) and [call] runs them on the process. *)

From stdpp Require Import sets gmap.
From S2P Require Import Prelude.
From S2P Require Import Strategy.
From S2P Require Import StrategyInv.
From S2P Require Import Rule.
From S2P Require Import RuleSpec.
From S2P Require Import Dns.
From S2P Require Import Ipset.
From S2P Require Import Proxy.

Set Warnings "-clear-no-such-hyp".

Module Main.
Import Strategy Rule Dns Ipset Proxy.

(** Line 30. *)
Definition VERSION : string := "0.6.9".

(** [conf], as [confInit] fills it (conf.go, not staged). *)
Record Config : Type := mkConfig {
  conf_verbose : bool;
  conf_listen : list string;
  conf_forward : list string;
  conf_strategy : StrategyConfig;
  conf_rules : list RuleConf;
  conf_ipset : string;
  conf_dns : string;
  conf_dns_config : DnsConfig;
}.

(** What main depends on outside the configuration. *)
Record Env : Type := mkEnv {
  env_kernel_ipset : bool;
  env_registry : Registry;
}.

(** The DNS handlers main registers: [dialer.AddDomainIP] and
    [ipsetM.AddDomainIP]. *)
Inductive Handler : Type := RuleDialerAddDomainIP | IpsetAddDomainIP.

#[export] Instance Handler_eq_dec : EqDecision Handler.
Proof. solve_decision. Defined.

Record Process : Type := mkProcess {
  p_dialer : RuleDialer;
  p_ipset : option Manager;
  p_dns : option (Server Handler);
  p_listeners : list LocalServer;
}.

Inductive Fatal : Type :=
| FatalDialer (e : ConfigError)
| FatalDNS (e : DnsError)
| FatalListen (e : ConfigError).

(** What main starts, in order. *)
Inductive Effect : Type :=
| EStartDNS
| ECheck
| EServe (url : string).

(** Lines 57-63: every domain of every rule with DNS servers gets them
    as its upstream. *)
Definition set_rule_servers (d : Server Handler) (rules : list RuleConf) : Server Handler :=
  foldl (fun d r =>
    foldl (fun d domain =>
      if decide (0 < length (rc_dns_servers r)) then SetServers d domain (rc_dns_servers r) else d)
      d (rc_domain r)) d rules.

(** Lines 50-72. *)
Definition setup_dns (conf : Config) (ipsetM : option Manager) : result DnsError (option (Server Handler)) :=
  if String.eqb (conf_dns conf) "" then Ok None
  else match NewServer (conf_dns conf) (conf_dns_config conf) with
       | Err e => Err e
       | Ok d =>
           let d := set_rule_servers d (conf_rules conf) in
           let d := AddHandler d RuleDialerAddDomainIP in
           let d := match ipsetM with Some _ => AddHandler d IpsetAddDomainIP | None => d end in
           Ok (Some (Start d))
       end.

(** Lines 78-85: a server per listen URL, started as it is built; the
    first that cannot be built is fatal. *)
Fixpoint start_listeners (reg : Registry) (ls : list string)
  : result ConfigError (list LocalServer) * list Effect :=
  match ls with
  | [] => (Ok [], [])
  | l :: ls' =>
      match ServerFromURL reg l with
      | Err e => (Err e, [])
      | Ok s =>
          let (r, eff) := start_listeners reg ls' in
          (match r with Ok ss => Ok (ListenAndServe s :: ss) | Err e => Err e end, EServe l :: eff)
      end
  end.

(** Lines 37-41: [log.F] prints only when the configuration is verbose;
    the log is the list of lines printed. *)
Definition logF (conf : Config) (line : string) (log : list string) : list string :=
  if conf_verbose conf then log ++ [line] else log.

(** Lines 87-89: main blocks on a channel that [signal.Notify]
    registers for SIGINT and SIGTERM only, and returns (ending the
    process, its servers and checkers with it) at the first of them.
    Other signals are not delivered to the channel; what the runtime
    does with them is outside main.go. *)
Inductive Signal : Type := SIGINT | SIGTERM | SIGOther (n : nat).

Definition notified (s : Signal) : bool :=
  match s with SIGINT | SIGTERM => true | SIGOther _ => false end.

(** The index, in the signals the process receives, of the one at which
    main returns. *)
Definition wait_signal (sigs : list Signal) : option nat :=
  fst <$> list_find (fun s => notified s = true) sigs.

(** Line 44: the global rule dialer over the default strategy dialer. *)
Definition rule_dialer (conf : Config) : RuleDialer :=
  NewRuleDialer (conf_rules conf) (NewStrategyDialer (conf_forward conf) (conf_strategy conf)).

(** Line 47: the ipset manager; its error is discarded and leaves
    [ipsetM] nil. *)
Definition ipset_manager (env : Env) (conf : Config) : option Manager :=
  match NewManager (env_kernel_ipset env) (conf_ipset conf) (conf_rules conf) with
  | Ok m => Some m
  | Err _ => None
  end.

(** Line 44: the forwarder URLs the strategy dialers are built from, in
    the order they are built: [strategy.NewDialer(conf.Forward, ...)]
    is evaluated as an argument, before [rule.NewDialer] builds the
    dialer of each rule in order. *)
Definition forward_urls (conf : Config) : list string :=
  conf_forward conf ++ List.concat (rc_forward <$> conf_rules conf).

(** Building the forwarders' dialers (spec 7: failing to build one is
    fatal): the first URL whose dialer cannot be built. *)
Fixpoint check_forwarders (reg : Registry) (urls : list string) : result ConfigError unit :=
  match urls with
  | [] => Ok tt
  | u :: us => let* _ := DialerFromURL reg u in check_forwarders reg us
  end.

(** Lines 32-90. *)
Definition main (env : Env) (conf : Config) : result Fatal Process * list Effect :=
  match check_forwarders (env_registry env) (forward_urls conf) with
  | Err e => (Err (FatalDialer e), [])
  | Ok _ =>
  let dialer := rule_dialer conf in
  let ipsetM := ipset_manager env conf in
  match setup_dns conf ipsetM with
  | Err e => (Err (FatalDNS e), [])
  | Ok dns =>
      let eff1 := match dns with Some _ => [EStartDNS] | None => [] end in
      let dialer := Check dialer in
      let (r, eff2) := start_listeners (env_registry env) (conf_listen conf) in
      (match r with
       | Ok ls => Ok (mkProcess dialer ipsetM dns ls)
       | Err e => Err (FatalListen e)
       end, eff1 ++ ECheck :: eff2)
  end
  end.

(** ** The running process *)

(** One handler call, on the objects the method value is bound to. *)
Definition call (h : Handler) (domain ip : string) (p : Process) : Process :=
  match h with
  | RuleDialerAddDomainIP =>
      mkProcess (Rule.AddDomainIP (p_dialer p) domain ip) (p_ipset p) (p_dns p) (p_listeners p)
  | IpsetAddDomainIP =>
      mkProcess (p_dialer p) ((fun m => Ipset.AddDomainIP m domain ip) <$> p_ipset p) (p_dns p) (p_listeners p)
  end.

(** The DNS server answers a query for [domain] with [ips]. *)
Definition on_answer (p : Process) (domain : string) (ips : list string) : Process :=
  match p_dns p with
  | Some d => notify call d domain ips p
  | None => p
  end.

(** A server accepted a connection to [host]: the strategy dialer it
    dials through. *)
Definition dispatch (p : Process) (host : string) : StrategyDialer := Dialer (p_dialer p) host.

(** The DNS server answers a sequence of queries, each a domain and the
    addresses it resolves to, in the order they complete. *)
Definition serve_answers (p : Process) (answers : list (string * list string)) : Process :=
  foldl (fun p '(d, ips) => on_answer p d ips) p answers.

End Main.

Module MainProps.
Import Strategy StrategyFacts StrategyInv Rule RuleFacts RuleSpec RuleSpecFacts Dns Ipset IpsetFacts Proxy ProxyFacts Main.

(** The rule dialer of the running process: main's, with its checkers
    started. *)
Definition dialer_of (conf : Config) : RuleDialer := Check (rule_dialer conf).

Definition dns_effects (conf : Config) : list Effect :=
  if String.eqb (conf_dns conf) "" then [] else [EStartDNS].

Lemma start_listeners_ok reg ls ss eff :
  start_listeners reg ls = (Ok ss, eff) ->
  eff = EServe <$> ls /\ ls_url <$> ss = ls /\ Forall (fun s => ls_serving s = true) ss.
Proof.
  revert ss eff; induction ls as [|l ls IH]; intros ss eff; cbn; [by intros [= <- <-]|].
  destruct (ServerFromURL reg l) as [s|] eqn:Es; [|discriminate].
  destruct (start_listeners reg ls) as [[ss'|] eff'] eqn:Er; intros [= <- <-].
  destruct (IH _ _ eq_refl) as (-> & Hu & Hs). cbn. rewrite Hu.
  destruct (ServerFromURL_ok _ _ _ Es) as [-> _]. repeat split; by constructor.
Qed.

Lemma start_listeners_err reg ls e eff :
  start_listeners reg ls = (Err e, eff) ->
  exists pre l post, ls = pre ++ l :: post /\
    Forall (fun u => exists s, ServerFromURL reg u = Ok s) pre /\
    ServerFromURL reg l = Err e /\ eff = EServe <$> pre.
Proof.
  revert eff; induction ls as [|l ls IH]; intros eff; cbn; [discriminate|].
  destruct (ServerFromURL reg l) as [s|e'] eqn:Es.
  - destruct (start_listeners reg ls) as [[ss'|e'] eff'] eqn:Er; intros [= <- <-].
    destruct (IH _ eq_refl) as (pre & l' & post & -> & Hpre & Hl & ->).
    exists (l :: pre), l', post. split; [done|]. split; [constructor; eauto|]. by split.
  - intros [= <- <-]. exists [], l, ls. split; [done|]. split; [constructor|]. by split.
Qed.

(** The listeners all start when each of their servers can be built. *)
Lemma start_listeners_all reg ls :
  Forall (fun u => exists s, ServerFromURL reg u = Ok s) ls ->
  exists ss, start_listeners reg ls = (Ok ss, EServe <$> ls).
Proof.
  induction 1 as [|l ls [s Hs] _ [ss IH]]; cbn; [by eexists|].
  rewrite Hs, IH. by eexists.
Qed.

(** Every forwarder's dialer can be built exactly when the check passes. *)
Lemma check_forwarders_ok reg urls :
  check_forwarders reg urls = Ok tt <-> Forall (fun u => exists sc, DialerFromURL reg u = Ok sc) urls.
Proof.
  induction urls as [|u us IH]; cbn; [split; by constructor|].
  rewrite res_bind_ok, Forall_cons, <- IH. naive_solver.
Qed.

(** The check fails with the error of the first forwarder whose dialer
    cannot be built. *)
Lemma check_forwarders_err reg pre u post e :
  Forall (fun v => exists sc, DialerFromURL reg v = Ok sc) pre ->
  DialerFromURL reg u = Err e ->
  check_forwarders reg (pre ++ u :: post) = Err e.
Proof.
  intros Hpre Hu. induction Hpre as [|v pre [sc Hv] _ IH]; cbn; [by apply res_bind_err|].
  by rewrite Hv.
Qed.

Lemma main_ok_inv env conf p eff :
  main env conf = (Ok p, eff) ->
  exists dns ls eff2, check_forwarders (env_registry env) (forward_urls conf) = Ok tt /\
    setup_dns conf (ipset_manager env conf) = Ok dns /\
    start_listeners (env_registry env) (conf_listen conf) = (Ok ls, eff2) /\
    p = mkProcess (dialer_of conf) (ipset_manager env conf) dns ls /\
    eff = (match dns with Some _ => [EStartDNS] | None => [] end) ++ ECheck :: eff2.
Proof.
  unfold main. fold (dialer_of conf).
  destruct (check_forwarders _ _) as [[]|] eqn:Ef; [|discriminate].
  destruct (setup_dns conf (ipset_manager env conf)) as [dns|] eqn:Ed; [|discriminate].
  destruct (start_listeners _ _) as [[ls|] eff2] eqn:El; intros [= <- <-].
  eauto 10.
Qed.

Lemma setup_dns_effects conf m dns :
  setup_dns conf m = Ok dns -> (match dns with Some _ => [EStartDNS] | None => [] end) = dns_effects conf.
Proof.
  unfold setup_dns, dns_effects. destruct (String.eqb (conf_dns conf) ""); [by intros [= <-]|].
  destruct (NewServer _ _); [by intros [= <-] | discriminate].
Qed.

Lemma setup_dns_ok conf m :
  conf_dns conf = "" \/ valid_listen_addr (conf_dns conf) = true -> exists dns, setup_dns conf m = Ok dns.
Proof.
  unfold setup_dns, NewServer. intros [-> | Hv]; [by eexists|].
  destruct (String.eqb _ _); [by eexists|]. rewrite Hv; by eexists.
Qed.

Lemma setup_dns_some conf m dns :
  conf_dns conf <> "" -> setup_dns conf m = Ok dns ->
  exists d, dns = Some d /\ ds_started d = true /\
    ds_handlers d = RuleDialerAddDomainIP :: (match m with Some _ => [IpsetAddDomainIP] | None => [] end) /\
    d = Start (let d := AddHandler (set_rule_servers (mkServer (conf_dns conf) (conf_dns_config conf) [] [] false)
                                   (conf_rules conf)) RuleDialerAddDomainIP in
               match m with Some _ => AddHandler d IpsetAddDomainIP | None => d end).
Proof.
  unfold setup_dns, NewServer. intros Hne. apply String.eqb_neq in Hne as ->.
  destruct (valid_listen_addr _); [|discriminate]. intros [= <-].
  eexists; split; [done|]; split; [by destruct m|].
  assert (Hh : forall rules d, ds_handlers (set_rule_servers d rules) = ds_handlers d).
  { intros rules. induction rules as [|r rules IH]; intros d; cbn; [done|]. rewrite IH.
    induction (rc_domain r) as [|x xs IHx] in d |- *; cbn; [done|]. rewrite IHx. by case_decide. }
  split; [|done]. destruct m; cbn; by rewrite Hh.
Qed.

Lemma main_ok_trace env conf p eff :
  main env conf = (Ok p, eff) ->
  eff = dns_effects conf ++ ECheck :: (EServe <$> conf_listen conf) /\
  p_dialer p = dialer_of conf /\ p_ipset p = ipset_manager env conf /\
  ls_url <$> p_listeners p = conf_listen conf /\ Forall (fun s => ls_serving s = true) (p_listeners p).
Proof.
  intros (dns & ls & eff2 & _ & Hd & Hl & -> & ->)%main_ok_inv.
  apply start_listeners_ok in Hl as (-> & Hu & Hs). erewrite setup_dns_effects by done. done.
Qed.

Lemma notify_rule_dialer dom ips p :
  p_dialer (fold_left (fun w ip => call RuleDialerAddDomainIP dom ip w) ips p) =
  foldl (fun rd ip => Rule.AddDomainIP rd dom ip) (p_dialer p) ips.
Proof. induction ips as [|ip ips IH] in p |- *; cbn; [done|]. by rewrite IH. Qed.

Lemma notify_ipset_dialer dom ips p :
  p_dialer (fold_left (fun w ip => call IpsetAddDomainIP dom ip w) ips p) = p_dialer p.
Proof. induction ips as [|ip ips IH] in p |- *; cbn; [done|]. by rewrite IH. Qed.

(** The rule dialer after an answer, with the handlers main registers. *)
Lemma on_answer_dialer p d (m : option Manager) dom ips :
  p_dns p = Some d -> ds_started d = true ->
  ds_handlers d = RuleDialerAddDomainIP :: (match m with Some _ => [IpsetAddDomainIP] | None => [] end) ->
  p_dialer (on_answer p dom ips) = foldl (fun rd ip => Rule.AddDomainIP rd dom ip) (p_dialer p) ips.
Proof.
  unfold on_answer, notify; intros -> -> ->. destruct m; cbn [fold_left]; rewrite ?notify_ipset_dialer; apply notify_rule_dialer.
Qed.

Lemma notify_call_dns h dom ips p :
  p_dns (fold_left (fun w ip => call h dom ip w) ips p) = p_dns p.
Proof. induction ips as [|ip ips IH] in p |- *; cbn; [done|]. rewrite IH. by destruct h. Qed.

Lemma notify_handlers_dns hs dom ips p :
  p_dns (fold_left (fun w h => fold_left (fun w ip => call h dom ip w) ips w) hs p) = p_dns p.
Proof. induction hs as [|h hs IH] in p |- *; cbn; [done|]. by rewrite IH, notify_call_dns. Qed.

Lemma on_answer_dns p dom ips : p_dns (on_answer p dom ips) = p_dns p.
Proof.
  unfold on_answer, notify. destruct (p_dns p) as [d|] eqn:Ed; [|done].
  destruct (ds_started d); [by rewrite notify_handlers_dns | done].
Qed.

Lemma notify_rule_ipset dom ips p :
  p_ipset (fold_left (fun w ip => call RuleDialerAddDomainIP dom ip w) ips p) = p_ipset p.
Proof. induction ips as [|ip ips IH] in p |- *; cbn; [done|]. by rewrite IH. Qed.

Lemma notify_ipset_ipset dom ips p :
  p_ipset (fold_left (fun w ip => call IpsetAddDomainIP dom ip w) ips p) =
  (fun m => fold_left (fun m ip => Ipset.AddDomainIP m dom ip) ips m) <$> p_ipset p.
Proof.
  induction ips as [|ip ips IH] in p |- *; cbn; [by destruct (p_ipset p)|].
  rewrite IH; cbn. by destruct (p_ipset p).
Qed.

(** The ipset manager after an answer, with the handlers main registers. *)
Lemma on_answer_ipset p d m dom ips :
  p_dns p = Some d -> ds_started d = true ->
  ds_handlers d = [RuleDialerAddDomainIP; IpsetAddDomainIP] -> p_ipset p = Some m ->
  p_ipset (on_answer p dom ips) = Some (fold_left (fun m ip => Ipset.AddDomainIP m dom ip) ips m).
Proof.
  unfold on_answer, notify; intros -> -> -> Hm. cbn [fold_left].
  by rewrite notify_ipset_ipset, notify_rule_ipset, Hm.
Qed.

(** The strategy dialer a connection is dispatched to is one main built,
    with its checkers started. *)
Lemma dispatch_main env conf p eff h :
  main env conf = (Ok p, eff) ->
  (route (p_dialer p) h = RouteDefault ->
     dispatch p h = StartChecks (NewStrategyDialer (conf_forward conf) (conf_strategy conf))) /\
  (forall i rc, route (p_dialer p) h = RouteRule i -> conf_rules conf !! i = Some rc ->
     dispatch p h = StartChecks (NewStrategyDialer (rc_forward rc) (rc_strategy rc))).
Proof.
  intros (_ & Hp & _)%main_ok_trace. unfold dispatch, Dialer. rewrite Hp. split; [by intros ->|].
  intros i rc -> Hrc. unfold dialer_of, rule_dialer, Check, NewRuleDialer; cbn.
  by rewrite !list_lookup_fmap, Hrc.
Qed.

Lemma dispatch_main_new env conf p eff h :
  main env conf = (Ok p, eff) ->
  exists urls cfg, dispatch p h = StartChecks (NewStrategyDialer urls cfg).
Proof.
  intros Hm. destruct (dispatch_main env conf p eff h Hm) as [Hd Hr].
  destruct (route (p_dialer p) h) as [i|] eqn:E; [|eauto].
  destruct (route_lt _ _ _ E) as [r Hi].
  pose proof (main_ok_trace _ _ _ _ Hm) as (_ & Hp & _). rewrite Hp in Hi.
  unfold dialer_of, rule_dialer, Check, NewRuleDialer in Hi; cbn in Hi. rewrite !list_lookup_fmap in Hi.
  destruct (conf_rules conf !! i) as [rc|] eqn:Hrc; [|done]. eauto.
Qed.

(** The last rule, in configured order, that lists [dom] and names DNS
    servers: the reference for the upstream a query goes to. *)
Fixpoint last_override (rules : list RuleConf) (dom : string) : option (list string) :=
  match rules with
  | [] => None
  | r :: rs =>
      match last_override rs dom with
      | Some s => Some s
      | None => if bool_decide (dom ∈ rc_domain r /\ 0 < length (rc_dns_servers r)) then Some (rc_dns_servers r) else None
      end
  end.

Lemma GetServers_SetServers (d : Server Handler) dom' s dom :
  GetServers (SetServers d dom' s) dom = if decide (dom' = dom) then s else GetServers d dom.
Proof.
  unfold GetServers, SetServers; cbn. case_decide; [done|].
  by destruct (list_find _ _) as [[? []]|].
Qed.

Lemma GetServers_domains (d : Server Handler) r dom :
  GetServers (foldl (fun d domain => if decide (0 < length (rc_dns_servers r))
                                    then SetServers d domain (rc_dns_servers r) else d) d (rc_domain r)) dom =
  if bool_decide (dom ∈ rc_domain r /\ 0 < length (rc_dns_servers r)) then rc_dns_servers r else GetServers d dom.
Proof.
  induction (rc_domain r) as [|x xs IH] using rev_ind in d |- *; cbn.
  - case_bool_decide as H; [destruct H as [H _]; inversion H | done].
  - rewrite foldl_app; cbn. case_decide as Hl.
    + rewrite GetServers_SetServers, IH.
      destruct (decide (x = dom)); repeat case_bool_decide; try done; exfalso; set_solver.
    + rewrite IH. repeat case_bool_decide; try done; exfalso; set_solver.
Qed.

Lemma last_override_snoc rs r dom :
  last_override (rs ++ [r]) dom =
  if bool_decide (dom ∈ rc_domain r /\ 0 < length (rc_dns_servers r)) then Some (rc_dns_servers r)
  else last_override rs dom.
Proof.
  induction rs as [|r' rs IH]; cbn; [by case_bool_decide|].
  rewrite IH. case_bool_decide; [done|]. by destruct (last_override rs dom).
Qed.

Lemma GetServers_set_rule_servers (d : Server Handler) rules dom :
  GetServers (set_rule_servers d rules) dom =
  match last_override rules dom with Some s => s | None => GetServers d dom end.
Proof.
  unfold set_rule_servers. induction rules as [|r rs IH] using rev_ind; [done|].
  rewrite foldl_app, last_override_snoc; cbn. rewrite GetServers_domains, IH.
  by case_bool_decide.
Qed.

Lemma main_handlers env conf p eff :
  main env conf = (Ok p, eff) -> conf_dns conf <> "" ->
  exists d, p_dns p = Some d /\ ds_started d = true /\
    ds_handlers d = RuleDialerAddDomainIP ::
                    (match p_ipset p with Some _ => [IpsetAddDomainIP] | None => [] end).
Proof.
  intros Hm Hne. pose proof (main_ok_trace _ _ _ _ Hm) as (_ & _ & Hi & _).
  apply main_ok_inv in Hm as (dns & ls & eff2 & _ & Hd & _ & -> & _).
  destruct (setup_dns_some _ _ _ Hne Hd) as (d & -> & Hs & Hh & _). cbn in *. eauto.
Qed.

(** ** Refinement of the abstract rule dialer *)

(** The abstract history of a sequence of answers. *)
Definition spec_answers (A : Spec) (answers : list (string * list string)) : Spec :=
  foldl (fun A '(d, ips) => spec_answer A d ips) A answers.

(** The dialer of a rule, as main builds and starts it. *)
Definition started_dialer (rc : RuleConf) : StrategyDialer :=
  StartChecks (NewStrategyDialer (rc_forward rc) (rc_strategy rc)).

Lemma main_refines_init env conf p eff :
  main env conf = (Ok p, eff) ->
  Refines started_dialer (StartChecks (NewStrategyDialer (conf_forward conf) (conf_strategy conf)))
    (p_dialer p) (mkSpec (conf_rules conf) []).
Proof.
  intros (_ & -> & _)%main_ok_trace. unfold dialer_of, rule_dialer.
  apply Refines_Check, Refines_new.
Qed.

Lemma main_dns_none env conf p eff : main env conf = (Ok p, eff) -> conf_dns conf = "" -> p_dns p = None.
Proof.
  intros (dns & ls & eff2 & _ & Hd & _ & -> & _)%main_ok_inv Hne.
  unfold setup_dns in Hd. rewrite Hne in Hd. by injection Hd as <-.
Qed.

(** Every answer the server handles is an abstract [learn] step per
    address. *)
Lemma serve_answers_refines q srv (m : option Manager) mk def A answers :
  p_dns q = Some srv -> ds_started srv = true ->
  ds_handlers srv = RuleDialerAddDomainIP :: (match m with Some _ => [IpsetAddDomainIP] | None => [] end) ->
  Refines mk def (p_dialer q) A -> Refines mk def (p_dialer (serve_answers q answers)) (spec_answers A answers).
Proof.
  unfold serve_answers, spec_answers.
  induction answers as [|[d ips] answers IH] in q, A |- *; cbn; intros Hd Hs Hh HR; [done|].
  apply IH; [by rewrite on_answer_dns | done | done |].
  rewrite (on_answer_dialer q srv m) by done. by apply Refines_answer.
Qed.

(** ** Properties of the process *)

(** C12: Startup order: the DNS server (when configured) is started first,
    then the health checkers, then the servers in listen order. *)
Theorem main_startup_order env conf p eff :
  main env conf = (Ok p, eff) ->
  eff = dns_effects conf ++ ECheck :: (EServe <$> conf_listen conf) /\
  ls_url <$> p_listeners p = conf_listen conf /\ Forall (fun s => ls_serving s = true) (p_listeners p).
Proof. intros (? & _ & _ & ? & ?)%main_ok_trace. done. Qed.

(** C13: When every forwarder can be built, the first listen URL that cannot be built is fatal: main exits with its
    error after starting the DNS server, the checkers and the listeners
    before it, and starts none after it. *)
Theorem main_fatal_listener env conf pre l post e :
  check_forwarders (env_registry env) (forward_urls conf) = Ok tt ->
  conf_dns conf = "" \/ valid_listen_addr (conf_dns conf) = true ->
  conf_listen conf = pre ++ l :: post ->
  Forall (fun u => exists s, ServerFromURL (env_registry env) u = Ok s) pre ->
  ServerFromURL (env_registry env) l = Err e ->
  main env conf = (Err (FatalListen e), dns_effects conf ++ ECheck :: (EServe <$> pre)).
Proof.
  intros Hf Hdns Hls Hpre Hl. unfold main. rewrite Hf.
  destruct (setup_dns_ok conf (ipset_manager env conf) Hdns) as [dns Hd]. rewrite Hd.
  erewrite setup_dns_effects by done. rewrite Hls.
  enough (start_listeners (env_registry env) (pre ++ l :: post) = (Err e, EServe <$> pre)) as -> by done.
  clear Hls Hd. induction Hpre as [|u pre [s Hs] Hpre IH]; cbn [app start_listeners]; [by rewrite Hl|].
  by rewrite Hs, IH.
Qed.

(** C14: When every forwarder can be built, a DNS listen address that does not parse is fatal before anything is
    started. *)
Theorem main_fatal_dns env conf :
  check_forwarders (env_registry env) (forward_urls conf) = Ok tt ->
  conf_dns conf <> "" -> valid_listen_addr (conf_dns conf) = false ->
  main env conf = (Err (FatalDNS (ErrListenAddr (conf_dns conf))), []).
Proof.
  intros Hf Hne Hv. unfold main, setup_dns, NewServer. rewrite Hf.
  apply String.eqb_neq in Hne as ->. by rewrite Hv.
Qed.

(** C15: The DNS server of the running process is started, and its handlers are
    the rule dialer's [AddDomainIP], then the ipset manager's when main
    could build one. *)
Theorem main_dns_handlers env conf p eff :
  main env conf = (Ok p, eff) -> conf_dns conf <> "" ->
  exists d, p_dns p = Some d /\ ds_started d = true /\
    ds_handlers d = RuleDialerAddDomainIP ::
                    (match p_ipset p with Some _ => [IpsetAddDomainIP] | None => [] end).
Proof. apply main_handlers. Qed.

(** C32: Spec 7: the forwarders' dialers are built first, the default
    strategy's then each rule's in order, and the first one that cannot
    be built (malformed URL or a scheme with no dialer) is fatal: main
    exits with its error before it starts anything. *)
Theorem main_fatal_forwarder env conf pre u post e :
  forward_urls conf = pre ++ u :: post ->
  Forall (fun v => exists sc, DialerFromURL (env_registry env) v = Ok sc) pre ->
  DialerFromURL (env_registry env) u = Err e ->
  main env conf = (Err (FatalDialer e), []).
Proof. intros Hf Hpre Hu. unfold main. rewrite Hf. by rewrite (check_forwarders_err _ _ _ _ _ Hpre Hu). Qed.

(** C1: Spec 8.2, end to end: once the DNS server has answered a query for a
    domain [d], a connection to any of the addresses it answered is
    dispatched like a connection to [d], provided no rule that does not
    own [d] already matches the address. *)
Theorem main_learned_route env conf p eff d ips ip z :
  main env conf = (Ok p, eff) -> conf_dns conf <> "" ->
  parse_ipv4 d = None -> parse_ipv4 ip = Some z -> ip ∈ ips ->
  (forall r, r ∈ rd_rules (p_dialer p) -> rule_matches r ip = true -> owns r d = true) ->
  dispatch (on_answer p d ips) ip = dispatch p d.
Proof.
  intros Hm Hne Hd Hip Hin Hfresh.
  destruct (main_handlers _ _ _ _ Hm Hne) as (srv & Hs & Hst & Hh).
  unfold dispatch. rewrite (on_answer_dialer p srv (p_ipset p) d ips) by done.
  apply Dialer_learned_all. by eapply route_learned_all.
Qed.

(** C31: Without a DNS server, main starts as soon as its forwarders and
    listeners can be built (no DNS address is validated and no DNS
    server is started), and then DNS answers change nothing: no address
    is ever learned. *)
Theorem main_no_dns env conf d ips :
  conf_dns conf = "" ->
  check_forwarders (env_registry env) (forward_urls conf) = Ok tt ->
  Forall (fun u => exists s, ServerFromURL (env_registry env) u = Ok s) (conf_listen conf) ->
  exists p, main env conf = (Ok p, ECheck :: (EServe <$> conf_listen conf)) /\
    p_dns p = None /\ on_answer p d ips = p.
Proof.
  intros Hd Hf Hl. destruct (start_listeners_all _ _ Hl) as [ss Hs].
  unfold main. rewrite Hf. unfold setup_dns at 1. rewrite Hd, Hs. cbn. by eexists.
Qed.

(** C16: The DNS server sends a query for a domain to the servers of the last
    rule that lists it with DNS servers (or to the configured ones),
    although connections to the domain are routed by the first rule that
    lists it. *)
Theorem main_dns_upstream env conf p eff srv dom :
  main env conf = (Ok p, eff) -> p_dns p = Some srv ->
  GetServers srv dom =
  match last_override (conf_rules conf) dom with
  | Some s => s
  | None => dc_servers (conf_dns_config conf)
  end.
Proof.
  intros (dns & ls & eff2 & _ & Hd & _ & -> & _)%main_ok_inv; cbn; intros ->.
  destruct (decide (conf_dns conf = "")) as [He|Hne].
  { unfold setup_dns in Hd; rewrite He in Hd; discriminate. }
  destruct (setup_dns_some _ _ _ Hne Hd) as (d & [= <-] & _ & _ & ->).
  unfold Start. destruct (ipset_manager env conf); unfold AddHandler, GetServers; cbn;
    fold (GetServers (set_rule_servers (mkServer (conf_dns conf) (conf_dns_config conf) [] [] false) (conf_rules conf)) dom);
    rewrite GetServers_set_rule_servers; done.
Qed.

(** C3: Spec 8.3: for a destination no rule matches, the round-robin default
    dialer returns each of its forwarders once, in configured order. *)
Theorem main_default_rr env conf p eff h rnds :
  main env conf = (Ok p, eff) ->
  algorithm_of (sc_strategy (conf_strategy conf)) = RoundRobin ->
  route (p_dialer p) h = RouteDefault ->
  conf_forward conf <> [] -> length rnds = length (conf_forward conf) ->
  (run (dispatch p h) (EvSelect <$> rnds)).1 = Some <$> seq 0 (length (conf_forward conf)).
Proof.
  intros Hm Halgo Hr Hne Hlen. destruct (dispatch_main env conf p eff h Hm) as [Hd _].
  rewrite Hd by done. by apply run_rr_new.
Qed.

(** C4: Spec 8.4: under high availability, after any history the default
    dialer keeps returning its active forwarder while that one stays
    alive, even when a higher-priority forwarder recovers. *)
Theorem main_ha_sticky env conf p eff h evs1 evs2 :
  main env conf = (Ok p, eff) ->
  algorithm_of (sc_strategy (conf_strategy conf)) = HighAvailability ->
  route (p_dialer p) h = RouteDefault ->
  let sd1 := (run (dispatch p h) evs1).2 in
  is_alive sd1 (sd_active sd1) = true -> Forall (keeps_alive (sd_active sd1)) evs2 ->
  Forall (fun o => o = Some (sd_active sd1)) (run sd1 evs2).1.
Proof.
  intros Hm Halgo Hr sd1 Ha Hk. destruct (dispatch_main env conf p eff h Hm) as [Hd _].
  apply run_ha_sticky; [|done..]. unfold sd1. rewrite run_algo, Hd by done. done.
Qed.

(** C5: Spec 8.5: every forwarder of every dialer main builds is alive exactly
    while its consecutive failures are below the threshold, in every
    state its health checker reaches. *)
Theorem main_health_inv env conf p eff h maxf f f' :
  main env conf = (Ok p, eff) -> 1 <= maxf ->
  f ∈ sd_fwds (dispatch p h) -> hc_reachable maxf f f' -> health_inv maxf f'.
Proof.
  intros Hm Hmax Hf Hr. destruct (dispatch_main_new env conf p eff h Hm) as (urls & cfg & Hd).
  rewrite Hd in Hf. eapply health_inv_reachable; [done | | done].
  by eapply health_inv_new_dialer.
Qed.

(** C6: Spec 8.1: a connection to [h] is dispatched to the strategy
    dialer of the first rule, in configured order, that matches [h], and
    to the default dialer when none does. *)
Theorem main_dispatch env conf p eff h :
  main env conf = (Ok p, eff) ->
  dispatch p h =
  match list_find (fun rc => rule_matches (NewRule rc) h = true) (conf_rules conf) with
  | Some (_, rc) => StartChecks (NewStrategyDialer (rc_forward rc) (rc_strategy rc))
  | None => StartChecks (NewStrategyDialer (conf_forward conf) (conf_strategy conf))
  end.
Proof.
  intros (_ & Hp & _)%main_ok_trace. unfold dispatch, Dialer, route. rewrite Hp.
  unfold dialer_of, rule_dialer, Check, NewRuleDialer; cbn [rd_rules rd_default].
  rewrite <- list_fmap_compose, list_find_fmap.
  rewrite (list_find_ext _ (fun rc => rule_matches (NewRule rc) h = true)) by done.
  destruct (list_find _ (conf_rules conf)) as [[i rc]|] eqn:E; cbn; [|done].
  apply list_find_Some in E as (Hi & _). by rewrite list_lookup_fmap, Hi.
Qed.

(** C26: Spec 4.3: for every random number [rnd], the random default
    dialer main builds selects forwarder [rnd mod n] of its [n]
    forwarders (none when it has none), and the selection leaves the
    dialer as it was. *)
Theorem main_default_random env conf p eff h rnd :
  main env conf = (Ok p, eff) ->
  algorithm_of (sc_strategy (conf_strategy conf)) = RandomPick ->
  route (p_dialer p) h = RouteDefault ->
  select (dispatch p h) rnd =
    (match length (conf_forward conf) with 0 => None | n => Some (rnd mod n) end, dispatch p h).
Proof.
  intros Hm Halgo Hr. destruct (dispatch_main env conf p eff h Hm) as [Hd _]. rewrite Hd by done.
  unfold select; cbn [sd_algo StartChecks NewStrategyDialer]; rewrite Halgo.
  rewrite (random_select_seq _ (length (conf_forward conf)));
    [by destruct (length _) | by rewrite candidates_StartChecks, candidates_new].
Qed.


(** C17: Spec 4.5: when main could build the ipset manager and runs a
    DNS server, every address an answer resolves a domain to is added to
    the kernel set of every rule that names a set and has a pattern
    matching the domain. *)
Theorem main_ipset_learns env conf p eff d ips ip rc pat :
  main env conf = (Ok p, eff) -> conf_dns conf <> "" -> is_Some (p_ipset p) ->
  rc ∈ conf_rules conf -> rc_ipset rc <> "" -> pat ∈ rc_domain rc -> domain_matches pat d = true ->
  ip ∈ ips ->
  exists m, p_ipset (on_answer p d ips) = Some m /\ ip ∈ members (im_sets m) (rc_ipset rc).
Proof.
  intros Hmain Hne [m Hm] Hrc Hset Hpat Hd Hip.
  destruct (main_handlers _ _ _ _ Hmain Hne) as (srv & Hs & Hst & Hh). rewrite Hm in Hh.
  rewrite (on_answer_ipset p srv m d ips Hs Hst Hh Hm). eexists; split; [done|].
  apply (fold_AddDomainIP_in _ _ _ _ pat); [|done|done].
  pose proof (main_ok_trace _ _ _ _ Hmain) as (_ & _ & Hi & _). rewrite Hm in Hi.
  unfold ipset_manager in Hi. destruct (NewManager _ _ _) as [m'|] eqn:E; [|discriminate].
  injection Hi as <-. rewrite (NewManager_domain_sets _ _ _ _ E). by apply elem_of_domain_sets.
Qed.

(** C8: Spec 4.3 and 7: a dial through the dialer a connection is
    dispatched to either connects through one of its forwarders that
    accepted, or returns a DialError naming at most [retries + 1]
    distinct forwarders, all of which refused; with a retry budget as
    large as the forwarder list, the error means no forwarder accepts. *)
Theorem main_dial_exhaustive env conf p eff h rnd dialf retries :
  main env conf = (Ok p, eff) ->
  let sd := dispatch p h in
  match (Dial sd rnd dialf retries).1 with
  | Ok i => dialf i = true /\ i < length (sd_fwds sd)
  | Err (ErrAllFailed t) =>
      length t <= S retries /\ NoDup t /\ Forall (fun j => dialf j = false) t /\
      (length (sd_fwds sd) <= S retries -> forall j, j < length (sd_fwds sd) -> dialf j = false)
  end.
Proof.
  intros Hm sd. destruct (dispatch_main_new env conf p eff h Hm) as (urls & cfg & Hd).
  destruct (Dial sd rnd dialf retries) as [r sd'] eqn:E; cbn [fst].
  pose proof (Dial_spec _ _ _ _ _ _ E) as [_ Hr].
  assert (Hc : candidates sd = seq 0 (length (sd_fwds sd))).
  { subst sd; rewrite Hd, candidates_StartChecks, candidates_new.
    cbn; by rewrite length_imap. }
  destruct r as [i | [t]]; [destruct Hr as [? Hi]; split; [done | by apply candidates_lt]|].
  destruct Hr as (? & ? & ?). do 3 (split; [done|]). intros Hlen j Hj.
  destruct (dialf j) eqn:Ej; [|done].
  destruct (Dial_exhaustive sd rnd dialf retries j) as (k & Ek & _);
    [by rewrite Hc, length_seq | by rewrite Hc, elem_of_seq; lia | done |].
  by rewrite E in Ek.
Qed.

(** C7: Spec 4.4, 5, 8.1 and 8.2: whatever sequence of DNS answers the
    process has handled, a connection to [h] is dispatched as the
    abstract rule dialer routes [h]: to the dialer of the first
    configured rule whose patterns match [h], or whose configured IPs,
    CIDRs or learned addresses contain it, else to the default dialer;
    the learned addresses are those of every answer for a domain the
    rule owns, and none when main runs no DNS server. *)
Theorem main_routing_refines env conf p eff answers h :
  main env conf = (Ok p, eff) ->
  dispatch (serve_answers p answers) h =
  spec_Dialer started_dialer (StartChecks (NewStrategyDialer (conf_forward conf) (conf_strategy conf)))
    (if String.eqb (conf_dns conf) "" then mkSpec (conf_rules conf) []
     else spec_answers (mkSpec (conf_rules conf) []) answers) h.
Proof.
  intros Hm. unfold dispatch. apply Dialer_refines.
  destruct (String.eqb_spec (conf_dns conf) "") as [He|Hne].
  - assert (Hon : forall d ips, on_answer p d ips = p).
    { intros d ips. unfold on_answer. by rewrite (main_dns_none _ _ _ _ Hm He). }
    assert (Hid : serve_answers p answers = p).
    { unfold serve_answers. induction answers as [|[d ips] answers IH]; cbn; [done|]. by rewrite Hon. }
    rewrite Hid. by eapply main_refines_init.
  - destruct (main_handlers _ _ _ _ Hm Hne) as (srv & Hs & Hst & Hh).
    eapply serve_answers_refines; [done..|]. by eapply main_refines_init.
Qed.

(** C9: Spec 4.3, 5 and 8.8: for every interleaving of selections and
    health results on the dialer a connection is dispatched to (with a
    failure threshold of at least one), every state reached keeps the
    configured forwarders, the checker's invariant on each of them and
    an active forwarder in range, and every selection returns an index
    of the forwarder list. *)
Theorem main_dialer_wf env conf p eff h evs :
  main env conf = (Ok p, eff) -> 1 <= sd_max_failures (dispatch p h) ->
  dialer_inv health_inv (config_of (dispatch p h)) (run (dispatch p h) evs).2 /\
  (sd_fwds (dispatch p h) <> [] ->
   Forall (fun o => exists i, o = Some i /\ i < length (sd_fwds (dispatch p h))) (run (dispatch p h) evs).1).
Proof.
  intros Hm Hmax. split; [|apply run_bound].
  apply (dialer_inv_run _ health_inv_step). destruct (dispatch_main_new env conf p eff h Hm) as (urls & cfg & Hd).
  rewrite Hd in Hmax |- *. pose proof (dialer_inv_new _ health_inv_new urls cfg Hmax) as Hi.
  by rewrite <- (inv_config _ _ _ Hi) in Hi.
Qed.

(** C10: Spec 8.3 and 8.5: under round-robin, after any interleaving of
    selections and health results on the default dialer, a forwarder
    whose probe succeeds is returned by the next cycle of selections,
    one per candidate. *)
Theorem main_rr_recovers env conf p eff h evs i lat now rnds :
  main env conf = (Ok p, eff) ->
  algorithm_of (sc_strategy (conf_strategy conf)) = RoundRobin ->
  route (p_dialer p) h = RouteDefault -> i < length (conf_forward conf) ->
  let sd := check_result (run (dispatch p h) evs).2 i true lat now in
  length rnds = length (candidates sd) ->
  Some i ∈ (run sd (EvSelect <$> rnds)).1.
Proof.
  intros Hm Halgo Hr Hi sd Hlen. destruct (dispatch_main env conf p eff h Hm) as [Hd _].
  apply run_rr_returns; [| | done]; subst sd.
  - by rewrite check_result_algo, run_algo, Hd by done.
  - apply is_alive_probe_ok. rewrite length_run, Hd by done. cbn. by rewrite length_imap.
Qed.

(** C11: Spec 8.4 and 8.5: under high availability, after any interleaving
    of selections and health results on the default dialer, once the
    active forwarder fails as many consecutive probes as the threshold
    it is dead, and the next selection switches to another forwarder:
    the alive one of highest priority, which becomes active. *)
Theorem main_ha_failover env conf p eff h evs rnd :
  main env conf = (Ok p, eff) ->
  algorithm_of (sc_strategy (conf_strategy conf)) = HighAvailability ->
  route (p_dialer p) h = RouteDefault -> 1 <= sc_max_failures (conf_strategy conf) ->
  let sd1 := (run (dispatch p h) evs).2 in
  let sd2 := (run sd1 (repeat (EvCheck (sd_active sd1) false 0 0) (sc_max_failures (conf_strategy conf)))).2 in
  alive_from 0 (sd_fwds sd2) <> [] ->
  exists j, select sd2 rnd = (Some j, with_active sd2 j) /\ j <> sd_active sd1 /\
    is_alive sd2 j = true /\ forall i, is_alive sd2 i = true -> priority_of sd2 i <= priority_of sd2 j.
Proof.
  intros Hm Halgo Hr H1. cbv zeta. rewrite (proj1 (dispatch_main env conf p eff h Hm) Hr).
  set (sd0 := StartChecks (NewStrategyDialer (conf_forward conf) (conf_strategy conf))).
  set (sd1 := (run sd0 evs).2).
  set (sd2 := (run sd1 (repeat (EvCheck (sd_active sd1) false 0 0) (sc_max_failures (conf_strategy conf)))).2).
  intros Hne.
  assert (Hmax : sd_max_failures sd1 = sc_max_failures (conf_strategy conf)) by (by unfold sd1; rewrite maxf_run).
  assert (Hfw : sd_fwds sd2 <> []) by (intros E; apply Hne; by rewrite E).
  assert (Hact : sd_active sd1 < length (sd_fwds sd1)).
  { apply (inv_active health_inv (config_of sd0)).
    - apply (dialer_inv_run _ health_inv_step).
      pose proof (dialer_inv_new _ health_inv_new (conf_forward conf) (conf_strategy conf) H1) as Hi.
      by rewrite <- (inv_config _ _ _ Hi) in Hi.
    - intros E. apply Hfw. unfold sd2. apply nil_length_inv. by rewrite length_run, E. }
  destruct (run_fail_checks_dead sd1 (sd_active sd1) (sc_max_failures (conf_strategy conf)) 0 Hact)
    as (Hdead & Hact2 & Halgo2 & _); [lia | done |].
  fold sd2 in Hdead, Hact2, Halgo2.
  destruct (ha_select_switch sd2) as (j & Hs & Hj & Hbest); [by rewrite Hact2 | done |].
  exists j. unfold select. rewrite Halgo2. unfold sd1. rewrite run_algo. cbn [sd_algo sd0 StartChecks NewStrategyDialer].
  rewrite Halgo. fold sd1. rewrite Hs. split; [done|]. split; [|done]. intros ->. congruence.
Qed.

End MainProps.

Module MainExamples.
Import Strategy StrategyFacts StrategyInv Rule RuleFacts RuleSpec Dns Ipset IpsetFacts Proxy Main MainProps.

Definition strat_rr : StrategyConfig := mkStrategyConfig "rr" 30 10 "www.apple.com:80" 3.
Definition strat_ha : StrategyConfig := mkStrategyConfig "ha" 30 10 "www.apple.com:80" 3.
Definition strat_random : StrategyConfig := mkStrategyConfig "random" 30 10 "www.apple.com:80" 3.

Definition dns_cfg : DnsConfig := mkDnsConfig ["8.8.8.8:53"] 3 1800 0 [] false.

Definition rule_a : RuleConf :=
  mkRuleConf "a" ["ss://a@h1:8388"] strat_rr ["1.1.1.1:53"] "" ["example.com"] [] ["10.0.0.0/8"].
Definition rule_b : RuleConf :=
  mkRuleConf "b" ["ss://b@h2:8388"] strat_rr ["9.9.9.9:53"] "" ["example.com"; "example.org"] [] [].

Definition conf_ex (dns : string) (strat : StrategyConfig) (listen : list string) : Config :=
  mkConfig false listen ["ss://x@h0:8388"; "ss://y@h3:8388"; "ss://z@h4:8388"] strat [rule_a; rule_b] ""
    dns dns_cfg.

Definition env_ex : Env :=
  mkEnv false (glider_registry (fun s => bool_decide (s ∈ ["http"; "mixed"; "socks5"; "ss"; "tcptun"; "udptun"]))
                               (fun s => bool_decide (s ∈ ["http"; "socks5"; "ss"; "ssr"; "tls"; "vmess"; "ws"]))).

Definition listen_ex : list string := ["socks5://:1080"; "http://:8080"].

Definition conf_dns_rr : Config := conf_ex "127.0.0.1:5353" strat_rr listen_ex.

Lemma main_startup_order_witness :
  exists p eff, main env_ex conf_dns_rr = (Ok p, eff) /\
    eff = [EStartDNS; ECheck; EServe "socks5://:1080"; EServe "http://:8080"].
Proof.
  destruct (main env_ex conf_dns_rr) as [[p|e] eff] eqn:Hm; [|vm_compute in Hm; discriminate].
  exists p, eff; split; [done|]. destruct (main_startup_order _ _ _ _ Hm) as [-> _]. reflexivity.
Defined.

Lemma main_fatal_listener_witness :
  main env_ex (conf_ex "127.0.0.1:5353" strat_rr ["socks5://:1080"; "vmess://u@h:443"; "http://:8080"]) =
  (Err (FatalListen (ErrUnknownScheme "vmess")), [EStartDNS; ECheck; EServe "socks5://:1080"]).
Proof.
  apply (main_fatal_listener env_ex (conf_ex "127.0.0.1:5353" strat_rr ["socks5://:1080"; "vmess://u@h:443"; "http://:8080"])
           ["socks5://:1080"] "vmess://u@h:443" ["http://:8080"]);
    [reflexivity | right; reflexivity | reflexivity | repeat constructor; eexists; reflexivity | reflexivity].
Defined.

Lemma main_fatal_dns_witness :
  main env_ex (conf_ex "localhost" strat_rr listen_ex) = (Err (FatalDNS (ErrListenAddr "localhost")), []).
Proof. apply main_fatal_dns; [reflexivity | discriminate | reflexivity]. Defined.

(** The second rule forwards through a [mixed] forwarder: glider's mixed
    protocol has a server and no dialer. *)
Definition rule_mixed : RuleConf :=
  mkRuleConf "b" ["mixed://m@h5:1080"] strat_rr ["9.9.9.9:53"] "" ["example.org"] [] [].

Definition conf_bad_forwarder : Config :=
  mkConfig false listen_ex ["ss://x@h0:8388"; "ss://y@h3:8388"] strat_rr [rule_a; rule_mixed] ""
    "127.0.0.1:5353" dns_cfg.

Lemma main_fatal_forwarder_witness :
  main env_ex conf_bad_forwarder = (Err (FatalDialer (ErrUnknownScheme "mixed")), []).
Proof.
  apply (main_fatal_forwarder env_ex conf_bad_forwarder
           ["ss://x@h0:8388"; "ss://y@h3:8388"; "ss://a@h1:8388"] "mixed://m@h5:1080" []);
    [reflexivity | repeat constructor; eexists; reflexivity | reflexivity].
Defined.

Lemma main_dns_handlers_witness :
  exists p eff d, main env_ex conf_dns_rr = (Ok p, eff) /\ p_dns p = Some d /\
    ds_handlers d = [RuleDialerAddDomainIP].
Proof.
  destruct (main env_ex conf_dns_rr) as [[p|e] eff] eqn:Hm; [|vm_compute in Hm; discriminate].
  destruct (main_dns_handlers _ _ _ _ Hm) as (d & Hd & _ & Hh); [discriminate|].
  exists p, eff, d. split; [done|]. split; [done|]. rewrite Hh.
  vm_compute in Hm. injection Hm as <- _. reflexivity.
Defined.

Lemma main_learned_route_witness :
  exists p eff, main env_ex conf_dns_rr = (Ok p, eff) /\
    dispatch (on_answer p "example.com" ["93.184.216.34"]) "93.184.216.34" = dispatch p "example.com".
Proof.
  destruct (main env_ex conf_dns_rr) as [[p|e] eff] eqn:Hm; [|vm_compute in Hm; discriminate].
  exists p, eff. split; [done|].
  apply (main_learned_route env_ex conf_dns_rr p eff "example.com" ["93.184.216.34"] "93.184.216.34"
           (Z.lor (Z.shiftl 93 24) (Z.lor (Z.shiftl 184 16) (Z.lor (Z.shiftl 216 8) 34))));
    [done | discriminate | reflexivity | reflexivity | left |].
  pose proof Hm as Hm'. vm_compute in Hm'. injection Hm' as <- _.
  intros r Hr Hmt. apply list_elem_of_In in Hr. cbn in Hr.
  destruct Hr as [<- | [<- | []]]; vm_compute in Hmt; discriminate.
Defined.

Lemma main_no_dns_witness :
  exists p, main env_ex (conf_ex "" strat_rr listen_ex) = (Ok p, ECheck :: (EServe <$> listen_ex)) /\
    p_dns p = None /\ on_answer p "example.com" ["93.184.216.34"] = p.
Proof.
  apply main_no_dns; [reflexivity | reflexivity |].
  vm_compute. repeat constructor; eexists; reflexivity.
Defined.

Lemma main_dns_upstream_witness :
  exists p eff srv, main env_ex conf_dns_rr = (Ok p, eff) /\ p_dns p = Some srv /\
    GetServers srv "example.com" = ["9.9.9.9:53"] /\ route (p_dialer p) "example.com" = RouteRule 0.
Proof.
  destruct (main env_ex conf_dns_rr) as [[p|e] eff] eqn:Hm; [|vm_compute in Hm; discriminate].
  destruct (p_dns p) as [srv|] eqn:Hs; [|vm_compute in Hm; injection Hm as <- _; discriminate].
  exists p, eff, srv. split; [done|]. split; [done|].
  rewrite (main_dns_upstream _ _ _ _ srv "example.com" Hm Hs). split; [reflexivity|].
  vm_compute in Hm. injection Hm as <- _. reflexivity.
Defined.

Lemma main_default_rr_witness :
  exists p eff, main env_ex conf_dns_rr = (Ok p, eff) /\
    (run (dispatch p "github.com") (EvSelect <$> [7; 7; 7])).1 = [Some 0; Some 1; Some 2].
Proof.
  destruct (main env_ex conf_dns_rr) as [[p|e] eff] eqn:Hm; [|vm_compute in Hm; discriminate].
  exists p, eff. split; [done|].
  rewrite (main_default_rr _ _ _ _ "github.com" [7; 7; 7] Hm); [reflexivity | reflexivity | | discriminate | reflexivity].
  vm_compute in Hm. injection Hm as <- _. reflexivity.
Defined.

(** Forwarder 0 fails three probes and the selection fails over to 1;
    forwarder 0 then recovers, and the selection stays on 1. *)
Definition ha_before : list Event :=
  [EvSelect 0; EvCheck 0 false 0 1; EvCheck 0 false 0 2; EvCheck 0 false 0 3; EvSelect 0].

Definition ha_after : list Event :=
  [EvCheck 0 true 12 4; EvSelect 0; EvCheck 2 false 0 5; EvSelect 0].

Lemma main_ha_sticky_witness :
  exists p eff, main env_ex (conf_ex "" strat_ha listen_ex) = (Ok p, eff) /\
    Forall (fun o => o = Some 1) (run (run (dispatch p "github.com") ha_before).2 ha_after).1.
Proof.
  destruct (main env_ex (conf_ex "" strat_ha listen_ex)) as [[p|e] eff] eqn:Hm; [|vm_compute in Hm; discriminate].
  exists p, eff. split; [done|].
  pose proof Hm as Hm'. vm_compute in Hm'. injection Hm' as Hp _. subst p.
  refine (main_ha_sticky _ _ _ _ "github.com" ha_before ha_after Hm eq_refl eq_refl eq_refl _).
  vm_compute. repeat (constructor; [first [exact I | left; discriminate | right; reflexivity]|]).
  constructor.
Defined.

Definition fwd0 : Forwarder := NewForwarder "ss://x@h0:8388" 3.

Lemma main_health_inv_witness :
  exists p eff, main env_ex conf_dns_rr = (Ok p, eff) /\
    health_inv 3 (probe_ok (probe_fail 3 (probe_fail 3 fwd0 1) 2) 40 3).
Proof.
  destruct (main env_ex conf_dns_rr) as [[p|e] eff] eqn:Hm; [|vm_compute in Hm; discriminate].
  exists p, eff. split; [done|].
  apply (main_health_inv _ _ _ _ "github.com" 3 fwd0 _ Hm); [lia | |].
  - vm_compute in Hm. injection Hm as <- _. vm_compute. left.
  - eapply hc_next; [eapply hc_next; [eapply hc_next; [apply hc_init | apply hc_fail] | apply hc_fail] | apply hc_ok].
Defined.

Lemma main_dispatch_witness :
  exists p eff, main env_ex conf_dns_rr = (Ok p, eff) /\
    dispatch p "www.example.org" = StartChecks (NewStrategyDialer ["ss://b@h2:8388"] strat_rr) /\
    dispatch p "10.1.2.3" = StartChecks (NewStrategyDialer ["ss://a@h1:8388"] strat_rr) /\
    dispatch p "github.com" = StartChecks (NewStrategyDialer (conf_forward conf_dns_rr) strat_rr).
Proof.
  destruct (main env_ex conf_dns_rr) as [[p|e] eff] eqn:Hm; [|vm_compute in Hm; discriminate].
  exists p, eff. split; [done|].
  rewrite !(main_dispatch _ _ _ _ _ Hm). vm_compute. auto.
Defined.

Lemma main_default_random_witness :
  exists p eff, main env_ex (conf_ex "" strat_random listen_ex) = (Ok p, eff) /\
    select (dispatch p "github.com") 7 = (Some 1, dispatch p "github.com").
Proof.
  destruct (main env_ex (conf_ex "" strat_random listen_ex)) as [[p|e] eff] eqn:Hm;
    [|vm_compute in Hm; discriminate].
  exists p, eff. split; [done|].
  pose proof Hm as Hm'. vm_compute in Hm'. injection Hm' as Hp _. subst p.
  exact (main_default_random _ _ _ _ "github.com" 7 Hm eq_refl eq_refl).
Defined.

Definition rule_c : RuleConf :=
  mkRuleConf "c" ["ss://c@h5:8388"] strat_rr [] "proxyset" ["example.net"] [] [].

Definition conf_ipset_ex : Config :=
  mkConfig false listen_ex ["ss://x@h0:8388"] strat_rr [rule_a; rule_c] "glider" "127.0.0.1:5353" dns_cfg.

Definition env_kernel : Env := mkEnv true (env_registry env_ex).

Lemma main_ipset_learns_witness :
  exists p eff m, main env_kernel conf_ipset_ex = (Ok p, eff) /\
    p_ipset (on_answer p "www.example.net" ["1.2.3.4"]) = Some m /\ "1.2.3.4" ∈ members (im_sets m) "proxyset".
Proof.
  destruct (main env_kernel conf_ipset_ex) as [[p|e] eff] eqn:Hm; [|vm_compute in Hm; discriminate].
  pose proof Hm as Hm'. vm_compute in Hm'. injection Hm' as Hp _.
  destruct (main_ipset_learns _ _ _ _ "www.example.net" ["1.2.3.4"] "1.2.3.4" rule_c "example.net" Hm)
    as (m & Hm1 & Hm2);
    [discriminate | subst p; eexists; reflexivity | right; left | discriminate | left | reflexivity | left |].
  exists p, eff, m. auto.
Defined.

Lemma main_dial_exhaustive_witness :
  exists p eff, main env_ex conf_dns_rr = (Ok p, eff) /\
    (Dial (dispatch p "github.com") 0 (fun j => Nat.eqb j 2) 2).1 = Ok 2 /\
    Nat.eqb 2 2 = true /\ 2 < length (sd_fwds (dispatch p "github.com")).
Proof.
  destruct (main env_ex conf_dns_rr) as [[p|e] eff] eqn:Hm; [|vm_compute in Hm; discriminate].
  exists p, eff. split; [done|].
  pose proof (main_dial_exhaustive _ _ _ _ "github.com" 0 (fun j => Nat.eqb j 2) 2 Hm) as H.
  pose proof Hm as Hm'; vm_compute in Hm'; injection Hm' as Hp _; subst p.
  vm_compute in H |- *. split; [reflexivity | exact H].
Defined.

Definition answers_ex : list (string * list string) :=
  [("www.example.org", ["1.2.3.4"]); ("cdn.example.com", ["5.6.7.8"; "1.2.3.4"])].

Lemma main_routing_refines_witness :
  exists p eff, main env_ex conf_dns_rr = (Ok p, eff) /\
    dispatch (serve_answers p answers_ex) "1.2.3.4" = started_dialer rule_a /\
    dispatch (serve_answers p answers_ex) "5.6.7.8" = started_dialer rule_a /\
    dispatch (serve_answers p answers_ex) "9.9.9.9" =
      StartChecks (NewStrategyDialer (conf_forward conf_dns_rr) strat_rr) /\
    dispatch (serve_answers p answers_ex) "www.example.org" = started_dialer rule_b.
Proof.
  destruct (main env_ex conf_dns_rr) as [[p|e] eff] eqn:Hm; [|vm_compute in Hm; discriminate].
  exists p, eff. split; [done|].
  rewrite !(main_routing_refines _ _ _ _ _ _ Hm). vm_compute. auto.
Defined.

Definition evs_ex : list Event :=
  [EvSelect 0; EvCheck 1 false 0 1; EvCheck 1 false 0 2; EvSelect 7; EvCheck 1 false 0 3; EvSelect 2].

Lemma main_dialer_wf_witness :
  exists p eff, main env_ex conf_dns_rr = (Ok p, eff) /\
    dialer_inv health_inv (config_of (dispatch p "github.com")) (run (dispatch p "github.com") evs_ex).2 /\
    (sd_fwds (dispatch p "github.com") <> [] ->
     Forall (fun o => exists i, o = Some i /\ i < length (sd_fwds (dispatch p "github.com")))
       (run (dispatch p "github.com") evs_ex).1).
Proof.
  destruct (main env_ex conf_dns_rr) as [[p|e] eff] eqn:Hm; [|vm_compute in Hm; discriminate].
  exists p, eff. split; [done|].
  pose proof Hm as Hm'; vm_compute in Hm'; injection Hm' as Hp _; subst p.
  apply (main_dialer_wf _ _ _ _ _ _ Hm). vm_compute. lia.
Defined.

Lemma main_rr_recovers_witness :
  exists p eff, main env_ex conf_dns_rr = (Ok p, eff) /\
    Some 1 ∈ (run (check_result (run (dispatch p "github.com") evs_ex).2 1 true 5 4)
                 (EvSelect <$> [0; 0; 0])).1.
Proof.
  destruct (main env_ex conf_dns_rr) as [[p|e] eff] eqn:Hm; [|vm_compute in Hm; discriminate].
  exists p, eff. split; [done|].
  pose proof Hm as Hm'; vm_compute in Hm'; injection Hm' as Hp _; subst p.
  apply (main_rr_recovers _ _ _ _ _ _ _ _ _ _ Hm); vm_compute; [reflexivity | reflexivity | lia | reflexivity].
Defined.

(** The active forwarder 0 fails three probes (the threshold of
    [strat_ha]); the next selection switches to forwarder 1. *)
Lemma main_ha_failover_witness :
  exists p eff, main env_ex (conf_ex "" strat_ha listen_ex) = (Ok p, eff) /\
    let sd2 := (run (run (dispatch p "github.com") [EvSelect 0]).2
                  (repeat (EvCheck 0 false 0 0) 3)).2 in
    select sd2 5 = (Some 1, with_active sd2 1).
Proof.
  destruct (main env_ex (conf_ex "" strat_ha listen_ex)) as [[p|e] eff] eqn:Hm; [|vm_compute in Hm; discriminate].
  exists p, eff. split; [done|].
  pose proof Hm as Hm'. vm_compute in Hm'. injection Hm' as Hp _. subst p.
  destruct (main_ha_failover _ _ _ _ "github.com" [EvSelect 0] 5 Hm eq_refl)
    as (j & Hs & Hj & _); [vm_compute; reflexivity | cbn; lia | vm_compute; discriminate |].
  revert Hs Hj. vm_compute. intros Hs _. injection Hs as <-. reflexivity.
Defined.

End MainExamples.
