(* ===== verification/Lifetime.v ===== *)
(** * The life of the running process (src/main.go, lines 87-89)

    After [main] has started everything, the process runs until the
    first SIGINT or SIGTERM (lines 87-89) and, meanwhile, handles three
    kinds of events, interleaved in any order (spec 5, 6): the DNS
    server answers a query ([on_answer]: the registered handlers run
    on the one rule dialer and ipset manager), a server started at line
    84 accepts a connection and dials its destination through the
    strategy dialer the rule dialer routes it to ([dial_step]), and a
    health checker records the result of one probe of one forwarder
    ([probe_step]).  [serve] runs such an interleaving and stops at the
    first notified signal, handling nothing after it (spec 6: shutdown
    is immediate, no drain).

    The rule dialer holds every strategy dialer by pointer: the cursor a
    selection advances and the health a probe records are seen by every
    later connection routed to the same strategy dialer, whatever its
    host.  The model keeps one copy of each strategy dialer, inside the
    process's rule dialer, addressed by its [Route] ([dialer_at]), and
    every step writes its new value back there ([update_at]). *)

From stdpp Require Import sets gmap.
From S2P Require Import Prelude.
From S2P Require Import Strategy.
From S2P Require Import StrategyInv.
From S2P Require Import Rule.
From S2P Require Import RuleSpec.
From S2P Require Import Dns.
From S2P Require Import Ipset.
From S2P Require Import Proxy.
From S2P Require Import Main.

Set Warnings "-clear-no-such-hyp".

Module Lifetime.
Import Strategy Rule Dns Main.

(** The strategy dialer a route designates: a rule's, or the default
    one (also for a rule index out of range, as [Dialer] does). *)
Definition dialer_at (rd : RuleDialer) (t : Route) : StrategyDialer :=
  match t with
  | RouteRule i => default (rd_default rd) (r_dialer <$> rd_rules rd !! i)
  | RouteDefault => rd_default rd
  end.

(** Publish [f] of the strategy dialer [t] designates in place of it;
    the rules' routing state is untouched.  An index out of range
    designates no rule's dialer and changes nothing. *)
Definition update_at (rd : RuleDialer) (t : Route) (f : StrategyDialer -> StrategyDialer) : RuleDialer :=
  match t with
  | RouteRule i =>
      mkRuleDialer (alter (fun r => mkRule (r_conf r) (f (r_dialer r)) (r_ips r) (r_cidrs r)) i (rd_rules rd))
        (rd_default rd)
  | RouteDefault => mkRuleDialer (rd_rules rd) (f (rd_default rd))
  end.

(** A server accepted a connection to [host]: [dialer.Dial] on the rule
    dialer, that is [Dial] on the strategy dialer [host] routes to, whose
    new state (the cursor the selection moved) is published. *)
Definition dial_step (p : Process) (host : string) (rnd : nat) (dialf : nat -> bool) (retries : nat)
  : result DialError nat * Process :=
  let t := route (p_dialer p) host in
  let (r, sd) := Dial (dialer_at (p_dialer p) t) rnd dialf retries in
  (r, mkProcess (update_at (p_dialer p) t (fun _ => sd)) (p_ipset p) (p_dns p) (p_listeners p)).

(** The checker of forwarder [i] of the strategy dialer [t] records one
    probe result. *)
Definition probe_step (p : Process) (t : Route) (i : nat) (ok : bool) (lat now : Z) : Process :=
  mkProcess (update_at (p_dialer p) t (fun sd => check_result sd i ok lat now))
    (p_ipset p) (p_dns p) (p_listeners p).

(** What the running process reacts to. *)
Inductive PEvent : Type :=
| PAnswer (domain : string) (ips : list string)
| PConnect (host : string) (rnd : nat) (dialf : nat -> bool) (retries : nat)
| PProbe (t : Route) (i : nat) (ok : bool) (lat now : Z)
| PSignal (s : Signal).

(** Lines 87-89: main blocks on [sigCh] until the first SIGINT or
    SIGTERM, while the goroutines started at lines 71, 75 and 84 handle
    the events in order; the results of the dials, the final state, and
    whether main returned.  A signal main did not register is not sent
    on [sigCh]: main goes on waiting (what the Go runtime does with it
    is not main's code). *)
Fixpoint serve (p : Process) (evs : list PEvent) : list (result DialError nat) * Process * bool :=
  match evs with
  | [] => ([], p, false)
  | PAnswer d ips :: evs' => serve (on_answer p d ips) evs'
  | PConnect h rnd dialf retries :: evs' =>
      let (r, p1) := dial_step p h rnd dialf retries in
      let '(rs, q, ex) := serve p1 evs' in (r :: rs, q, ex)
  | PProbe t i ok lat now :: evs' => serve (probe_step p t i ok lat now) evs'
  | PSignal s :: evs' => if notified s then ([], p, true) else serve p evs'
  end.

(** The DNS answers handled before main returns. *)
Fixpoint answers_of (evs : list PEvent) : list (string * list string) :=
  match evs with
  | [] => []
  | PAnswer d ips :: evs' => (d, ips) :: answers_of evs'
  | PSignal s :: evs' => if notified s then [] else answers_of evs'
  | _ :: evs' => answers_of evs'
  end.

Definition is_stop (e : PEvent) : bool :=
  match e with PSignal s => notified s | _ => false end.

End Lifetime.

Module LifetimeProps.
Import Strategy StrategyFacts StrategyInv Rule RuleFacts RuleSpec RuleSpecFacts Dns Proxy Main MainProps Lifetime.

(** ** The shared strategy dialers *)

Lemma Dialer_dialer_at rd h : Dialer rd h = dialer_at rd (route rd h).
Proof. unfold Dialer. by destruct (route rd h). Qed.

(** After an update of [t], the strategy dialer [t'] designates is the
    one before, or it is the one [t] designated, updated. *)
Lemma dialer_at_update_at rd t f t' :
  dialer_at (update_at rd t f) t' = dialer_at rd t' \/
  (dialer_at rd t' = dialer_at rd t /\ dialer_at (update_at rd t f) t' = f (dialer_at rd t)).
Proof.
  destruct t as [i|], t' as [j|]; cbn; [| by left | | by right].
  - rewrite list_lookup_alter. case_decide; [subst j | by left].
    destruct (rd_rules rd !! i); cbn; [by right | by left].
  - destruct (rd_rules rd !! j); cbn; [by left | by right].
Qed.

Lemma route_update_at rd t f h : route (update_at rd t f) h = route rd h.
Proof.
  rewrite !route_index. destruct t as [i|]; [|done]. cbn [update_at rd_rules].
  erewrite (list_find_Forall2 (fun r' r => rule_matches r' h = rule_matches r h) _
              (fun r => rule_matches r h = true)); [done| |].
  - apply Forall2_alter_l; [apply Forall_Forall2_diag, Forall_forall; done | done].
  - intros r' r ->. done.
Qed.

Lemma RoutesAs_update_at rd A t f : RoutesAs rd A -> RoutesAs (update_at rd t f) A.
Proof.
  destruct t as [i|]; [|done]. intros HF. unfold RoutesAs; cbn.
  apply Forall2_alter_l; [done|]. intros r rc _ _ H. exact H.
Qed.

Lemma dialer_at_AddDomainIP rd d ip t : dialer_at (AddDomainIP rd d ip) t = dialer_at rd t.
Proof.
  destruct t as [i|]; [|done]. unfold dialer_at. rewrite AddDomainIP_rules, list_lookup_fmap.
  destruct (rd_rules rd !! i); cbn; [by rewrite learn_dialer | done].
Qed.

(** Whatever the DNS server's handlers, an answer preserves what every
    handler call preserves. *)
Lemma on_answer_ind (Q : Process -> Prop) p d ips :
  (forall h dom ip w, Q w -> Q (call h dom ip w)) -> Q p -> Q (on_answer p d ips).
Proof.
  intros Hc Hp. unfold on_answer, notify. destruct (p_dns p) as [s|]; [|done].
  destruct (ds_started s); [|done].
  apply fold_left_ind; [|done]. intros w h Hw.
  apply fold_left_ind; [|done]. intros w' ip Hw'. by apply Hc.
Qed.

Lemma dialer_at_on_answer p d ips t :
  dialer_at (p_dialer (on_answer p d ips)) t = dialer_at (p_dialer p) t.
Proof.
  apply (on_answer_ind (fun w => dialer_at (p_dialer w) t = dialer_at (p_dialer p) t)); [|done].
  intros [] dom ip w Hw; cbn; [by rewrite dialer_at_AddDomainIP | done].
Qed.

(** A host's route designates a strategy dialer that an update of
    that route replaces. *)
Lemma dialer_at_update_route rd h f :
  dialer_at (update_at rd (route rd h) f) (route rd h) = f (dialer_at rd (route rd h)).
Proof.
  destruct (route rd h) as [i|] eqn:E; [|done]. destruct (route_lt _ _ _ E) as [r Hr].
  cbn. by rewrite list_lookup_alter_eq, Hr.
Qed.

(** A dial and a probe update one strategy dialer of the process and
    nothing else. *)
Lemma dial_step_shape p h rnd dialf retries :
  exists f, (dial_step p h rnd dialf retries).2 =
    mkProcess (update_at (p_dialer p) (route (p_dialer p) h) f) (p_ipset p) (p_dns p) (p_listeners p).
Proof. unfold dial_step. destruct (Dial _ _ _ _); eauto. Qed.

(** With every forwarder up, a dial connects through the forwarder the
    selection picks. *)
Lemma Dial_all_up sd rnd retries :
  Dial sd rnd (fun _ => true) retries =
  (match (select sd rnd).1 with Some i => Ok i | None => Err (ErrAllFailed []) end, (select sd rnd).2).
Proof. unfold Dial. destruct (select sd rnd) as [[i|] sd1]; [|done]. unfold attempts. by rewrite firstn_cons. Qed.

(** The induction principle of [serve]: a property of the process that
    every kind of step preserves holds when main returns or the events
    run out. *)
Lemma serve_ind (Q : Process -> Prop) p evs :
  (forall p d ips, Q p -> Q (on_answer p d ips)) ->
  (forall p h rnd dialf retries, Q p -> Q (dial_step p h rnd dialf retries).2) ->
  (forall p t i ok lat now, Q p -> Q (probe_step p t i ok lat now)) ->
  Q p -> Q (serve p evs).1.2.
Proof.
  intros Ha Hd Hp. induction evs as [|[d ips|h rnd dialf retries|t i ok lat now|s] evs IH] in p |- *;
    cbn; intros Hq; auto.
  - destruct (dial_step p h rnd dialf retries) as [r p1] eqn:E.
    destruct (serve p1 evs) as [[rs q] ex] eqn:Es; cbn.
    specialize (IH p1); rewrite Es in IH. apply IH. replace p1 with (dial_step p h rnd dialf retries).2
      by (by rewrite E). auto.
  - by destruct (notified s); [|apply IH].
Qed.

(** ** The per-dialer invariant *)

Lemma inv_update_at Inv cfg rd t f t' :
  dialer_inv Inv cfg (dialer_at rd t') ->
  (forall cfg, dialer_inv Inv cfg (dialer_at rd t) -> dialer_inv Inv cfg (f (dialer_at rd t))) ->
  dialer_inv Inv cfg (dialer_at (update_at rd t f) t').
Proof.
  intros H Hf. destruct (dialer_at_update_at rd t f t') as [-> | [E ->]]; [done|].
  apply Hf. by rewrite <- E.
Qed.

Lemma inv_serve Inv (Inv_step : forall maxf, 1 <= maxf -> forall f f', Inv maxf f -> hc_step maxf f f' -> Inv maxf f')
  cfg p evs t :
  dialer_inv Inv cfg (dialer_at (p_dialer p) t) ->
  dialer_inv Inv cfg (dialer_at (p_dialer (serve p evs).1.2) t).
Proof.
  apply (serve_ind (fun q => dialer_inv Inv cfg (dialer_at (p_dialer q) t))).
  - intros q d ips. by rewrite dialer_at_on_answer.
  - intros q h rnd dialf retries Hq. unfold dial_step.
    destruct (Dial _ _ _ _) as [r sd] eqn:E; cbn. apply Dial_spec in E as [-> _].
    apply inv_update_at; [done|]. intros c. apply dialer_inv_select.
  - intros q t' i ok lat now Hq. apply inv_update_at; [done|]. intros c. by apply (dialer_inv_check _ Inv_step).
Qed.

(** Every strategy dialer of the process main returns is a new, started
    one. *)
Lemma dialer_at_main env conf p eff t :
  main env conf = (Ok p, eff) -> exists urls cfg, dialer_at (p_dialer p) t = StartChecks (NewStrategyDialer urls cfg).
Proof.
  intros (_ & -> & _)%main_ok_trace. unfold dialer_of, rule_dialer, Check, NewRuleDialer.
  destruct t as [i|]; cbn; [|eauto]. rewrite !list_lookup_fmap.
  destruct (conf_rules conf !! i); cbn; eauto.
Qed.

(** ** Routing through the life of the process *)

(** With the handlers main registers, the routing state after the events
    is the abstract one after the answers handled, whatever the dials and
    probes in between. *)
Lemma serve_routes p srv (m : option Ipset.Manager) A evs :
  p_dns p = Some srv -> ds_started srv = true ->
  ds_handlers srv = RuleDialerAddDomainIP :: (match m with Some _ => [IpsetAddDomainIP] | None => [] end) ->
  RoutesAs (p_dialer p) A -> RoutesAs (p_dialer (serve p evs).1.2) (spec_answers A (answers_of evs)).
Proof.
  intros Hd Hst Hh. induction evs as [|[d ips|h rnd dialf retries|t i ok lat now|s] evs IH] in p, A, Hd |- *;
    cbn; intros HR; [done| | | |].
  - apply IH; [by rewrite on_answer_dns|]. rewrite (on_answer_dialer p srv m) by done.
    by apply RoutesAs_answer.
  - destruct (dial_step p h rnd dialf retries) as [r p1] eqn:E.
    destruct (serve p1 evs) as [[rs q] ex] eqn:Es; cbn.
    destruct (dial_step_shape p h rnd dialf retries) as [f Hf]. rewrite E in Hf; cbn in Hf.
    specialize (IH p1 A); rewrite Es in IH. apply IH; rewrite Hf; [done|]. by apply RoutesAs_update_at.
  - apply IH; [done|]. by apply RoutesAs_update_at.
  - destruct (notified s); [done|]. by apply IH.
Qed.

(** Without a DNS server, no event changes the routing state. *)
Lemma serve_routes_no_dns p A evs :
  p_dns p = None -> RoutesAs (p_dialer p) A -> RoutesAs (p_dialer (serve p evs).1.2) A.
Proof.
  intros Hd HR. apply (serve_ind (fun q => p_dns q = None /\ RoutesAs (p_dialer q) A)); [| | | done].
  - intros q d ips [Hq HRq]. unfold on_answer. by rewrite Hq.
  - intros q h rnd dialf retries [Hq HRq]. destruct (dial_step_shape q h rnd dialf retries) as [f ->].
    split; [done|]. by apply RoutesAs_update_at.
  - intros q t i ok lat now [Hq HRq]. split; [done|]. by apply RoutesAs_update_at.
Qed.

(** C33: Spec 6: main returns at the first SIGINT or SIGTERM, both of
    them, and handles nothing after it, no answer, connection or probe:
    the results and the state are those of the events before the
    signal, during which main had not returned, whatever other signal
    arrived meanwhile. *)
Theorem serve_stops_at_signal p pre s post :
  Forall (fun e => forall s', e = PSignal s' -> s' <> SIGINT /\ s' <> SIGTERM) pre ->
  s = SIGINT \/ s = SIGTERM ->
  (serve p pre).2 = false /\ serve p (pre ++ PSignal s :: post) = ((serve p pre).1, true).
Proof.
  intros Hpre Hs. induction Hpre as [|e pre He _ IH] in p |- *; cbn.
  { by destruct Hs as [-> | ->]. }
  destruct e as [d ips|h rnd dialf retries|t i ok lat now|s']; try apply IH.
  - destruct (dial_step p h rnd dialf retries) as [r p1].
    destruct (IH p1) as [IH1 IH2]. rewrite IH2.
    destruct (serve p1 pre) as [[rs q] ex]; cbn in IH1 |- *. by subst ex.
  - destruct (He s' eq_refl) as [H1 H2].
    destruct s' as [| |n]; [done | done | apply IH].
Qed.

(** C34: Spec 5 and 8.5, for the whole life of the process: whatever
    interleaving of DNS answers, connections (each advancing the shared
    cursor of the dialer it routes to) and health results main handles,
    every strategy dialer of the process keeps its configured forwarders,
    satisfies the health invariant on each of them and has an active
    forwarder in range. *)
Theorem main_serve_dialer_inv env conf p eff evs t :
  main env conf = (Ok p, eff) -> 1 <= sd_max_failures (dialer_at (p_dialer p) t) ->
  dialer_inv health_inv (config_of (dialer_at (p_dialer p) t)) (dialer_at (p_dialer (serve p evs).1.2) t).
Proof.
  intros Hm Hmax. apply (inv_serve _ health_inv_step).
  destruct (dialer_at_main env conf p eff t Hm) as (urls & cfg & Hd). rewrite Hd in Hmax |- *.
  pose proof (dialer_inv_new _ health_inv_new urls cfg Hmax) as Hi.
  by rewrite <- (inv_config _ _ _ Hi) in Hi.
Qed.

(** C35: Spec 8.1 and 8.2, for the whole life of the process: whatever
    interleaving of answers, connections and probes main handles before
    it returns, the process routes every host as the abstract first-match
    router over the configured rules and the answers it handled (none
    without a DNS server). *)
Theorem main_serve_routes env conf p eff evs h :
  main env conf = (Ok p, eff) ->
  route (p_dialer (serve p evs).1.2) h =
  spec_route (if String.eqb (conf_dns conf) "" then mkSpec (conf_rules conf) []
              else spec_answers (mkSpec (conf_rules conf) []) (answers_of evs)) h.
Proof.
  intros Hm. apply route_RoutesAs. pose proof (Refines_RoutesAs _ _ _ _ (main_refines_init _ _ _ _ Hm)) as HR.
  destruct (String.eqb_spec (conf_dns conf) "") as [He|Hne].
  - by apply serve_routes_no_dns; [eapply main_dns_none|].
  - destruct (main_handlers _ _ _ _ Hm Hne) as (srv & Hs & Hst & Hh). by eapply serve_routes.
Qed.

(** C36: Spec 6 and 8.3: connections to different hosts that route to the
    same strategy dialer share its state: with every forwarder up, the
    forwarders they connect through are the successive selections of
    that one dialer, in the order the connections come (under
    round-robin, each forwarder once per cycle across all of them). *)
Theorem serve_connections_share_dialer p t retries conns :
  Forall (fun c => route (p_dialer p) c.1 = t) conns ->
  (serve p ((fun c => PConnect c.1 c.2 (fun _ => true) retries) <$> conns)).1.1 =
  (fun o => match o with Some i => Ok i | None => Err (ErrAllFailed []) end)
    <$> (run (dialer_at (p_dialer p) t) (EvSelect <$> conns.*2)).1.
Proof.
  induction conns as [|[h rnd] conns IH] in p |- *; intros Hr; [done|].
  apply Forall_cons in Hr as [Hh Hr]; cbn in Hh |- *.
  unfold dial_step at 1. rewrite Hh, Dial_all_up.
  destruct (select (dialer_at (p_dialer p) t) rnd) as [o sd1] eqn:Es; cbn.
  set (p1 := mkProcess _ _ _ _).
  assert (Hd : dialer_at (p_dialer p1) t = sd1).
  { unfold p1; cbn. rewrite <- Hh, dialer_at_update_route. done. }
  assert (Hr1 : Forall (fun c => route (p_dialer p1) c.1 = t) conns).
  { eapply Forall_impl; [exact Hr|]. intros c Hc. unfold p1; cbn. by rewrite route_update_at. }
  specialize (IH p1 Hr1). rewrite Hd in IH.
  destruct (serve p1 _) as [[rs q] ex]. destruct (run sd1 _) as [os sd2]. cbn in IH |- *. by rewrite IH.
Qed.

End LifetimeProps.

Module LifetimeExamples.
Import Strategy StrategyFacts StrategyInv Rule Dns Main MainExamples Lifetime LifetimeProps.

(** An answer for example.com, a connection to github.com whose first
    forwarder is down, a failed probe of the default dialer's first
    forwarder, a connection to the learned address, SIGINT, and a
    connection that comes too late. *)
Definition evs_life : list PEvent :=
  [PAnswer "example.com" ["93.184.216.34"]; PConnect "github.com" 3 (fun i => negb (Nat.eqb i 0)) 1;
   PProbe RouteDefault 0 false 10 1; PConnect "93.184.216.34" 0 (fun _ => true) 0; PSignal SIGINT;
   PConnect "golang.org" 0 (fun _ => true) 0].

Lemma serve_stops_at_signal_witness :
  exists p eff, main env_ex conf_dns_rr = (Ok p, eff) /\
    (serve p (PSignal (SIGOther 1) :: take 4 evs_life)).2 = false /\
    serve p ((PSignal (SIGOther 1) :: take 4 evs_life) ++ PSignal SIGTERM :: drop 5 evs_life) =
      ((serve p (PSignal (SIGOther 1) :: take 4 evs_life)).1, true).
Proof.
  destruct (main env_ex conf_dns_rr) as [[p|e] eff] eqn:Hm; [|vm_compute in Hm; discriminate].
  exists p, eff. split; [done|].
  apply (serve_stops_at_signal p (PSignal (SIGOther 1) :: take 4 evs_life) SIGTERM (drop 5 evs_life)); [|by right].
  unfold evs_life; cbn [take]. repeat constructor; congruence.
Defined.

Lemma main_serve_dialer_inv_witness :
  exists p eff, main env_ex conf_dns_rr = (Ok p, eff) /\
    dialer_inv health_inv (config_of (dialer_at (p_dialer p) RouteDefault))
      (dialer_at (p_dialer (serve p evs_life).1.2) RouteDefault).
Proof.
  destruct (main env_ex conf_dns_rr) as [[p|e] eff] eqn:Hm; [|vm_compute in Hm; discriminate].
  exists p, eff. split; [done|]. apply (main_serve_dialer_inv _ _ _ _ _ _ Hm).
  pose proof Hm as Hm'. vm_compute in Hm'. injection Hm' as Hp _. subst p. vm_compute. lia.
Defined.

Lemma main_serve_routes_witness :
  exists p eff, main env_ex conf_dns_rr = (Ok p, eff) /\
    route (p_dialer (serve p evs_life).1.2) "93.184.216.34" = RouteRule 0.
Proof.
  destruct (main env_ex conf_dns_rr) as [[p|e] eff] eqn:Hm; [|vm_compute in Hm; discriminate].
  exists p, eff. split; [done|]. rewrite (main_serve_routes _ _ _ _ evs_life "93.184.216.34" Hm).
  vm_compute. reflexivity.
Defined.

(** Three connections, to two hosts the default dialer serves. *)
Definition conns_ex : list (string * nat) := [("github.com", 0); ("golang.org", 0); ("github.com", 0)].

Lemma serve_connections_share_dialer_witness :
  exists p eff, main env_ex conf_dns_rr = (Ok p, eff) /\
    (serve p ((fun c => PConnect c.1 c.2 (fun _ => true) 1) <$> conns_ex)).1.1 = [Ok 0; Ok 1; Ok 2].
Proof.
  destruct (main env_ex conf_dns_rr) as [[p|e] eff] eqn:Hm; [|vm_compute in Hm; discriminate].
  exists p, eff. split; [done|]. pose proof Hm as Hm'. vm_compute in Hm'. injection Hm' as Hp _. subst p.
  rewrite (serve_connections_share_dialer _ RouteDefault 1 conns_ex); [reflexivity|].
  repeat constructor.
Defined.

End LifetimeExamples.
